(** * Worksheeter: the document tree, the drag-reorder engine, the
      segmentation and the link codec

    A shallow embedding of the logic of [src/helpers.ts],
    [src/QuestionBoard.tsx], [src/components/EditorBlockWrapper.tsx],
    [src/components/PlayerComponents.tsx], [src/components/Answer.tsx] and
    of the older monolithic [src/index.tsx].

    JavaScript strings are sequences of UTF-16 code units; they are modelled
    as lists of [N].  Block ids are such strings.  The block tree is the
    tagged union of [src/types.ts]; optional properties are [option]s, a
    property holding [undefined] being the same as an absent one. *)

From Stdlib Require Import String Ascii.
From Stdlib Require Import List ZArith NArith Lia Bool Arith Permutation.
From Stdlib Require Import DecimalString DecimalN.
Import ListNotations.

(* ===================================================================== *)
(** ** JavaScript strings *)
(* ===================================================================== *)

Definition jsstring := list N.

(** A Rocq string literal read as a JavaScript string. *)
Definition js (s : string) : jsstring :=
  map N_of_ascii (list_ascii_of_string s).

(** [a === b] on strings. *)
Fixpoint streq (a b : jsstring) : bool :=
  match a, b with
  | [], [] => true
  | x :: a', y :: b' => N.eqb x y && streq a' b'
  | _, _ => false
  end.

(** Truthiness of [string | undefined]: [undefined] and the empty string
    are falsy. *)
Definition truthy (s : option jsstring) : bool :=
  match s with
  | Some (_ :: _) => true
  | _ => false
  end.

(* ===================================================================== *)
(** ** The block model ([types.ts]) *)
(* ===================================================================== *)

Inductive BlockType := TyText | TyDivider | TyEmbed | TyGroup | TyQuestion.

Inductive QuestionType :=
  MultipleChoice | OpenAnswer | ClozeText | ClozeDropdown | DragInline.

(** The fields of a [QuestionBlock] besides [id] and [type].  [image] and
    [description] are [string | null] and optional: [None] is absent,
    [Some None] is [null].  [qType] is required by the interface, but
    [createBlock] stores whatever it is given ([qType!]). *)
Record QuestionFields := mkQuestion {
  qType : option QuestionType;
  prompt : jsstring;
  listItems : option (list jsstring);
  image : option (option jsstring);
  description : option (option jsstring);
  options : option (list jsstring);
  multiSelect : option bool;
  correctAnswer : option (jsstring + list jsstring)
}.

Unset Elimination Schemes.
Inductive Block :=
| TextBlock (id : jsstring) (content : jsstring)
| DividerBlock (id : jsstring)
| EmbedBlock (id : jsstring) (url : jsstring) (title : option jsstring)
| QuestionBlock (id : jsstring) (q : QuestionFields)
| GroupBlock (id : jsstring) (title : option jsstring) (children : list Block).
Set Elimination Schemes.

Section BlockInduction.
Variable P : Block -> Prop.
Hypothesis Htext : forall i c, P (TextBlock i c).
Hypothesis Hdivider : forall i, P (DividerBlock i).
Hypothesis Hembed : forall i u t, P (EmbedBlock i u t).
Hypothesis Hquestion : forall i q, P (QuestionBlock i q).
Hypothesis Hgroup : forall i t ch, Forall P ch -> P (GroupBlock i t ch).

Fixpoint Block_ind (b : Block) : P b :=
  match b with
  | TextBlock i c => Htext i c
  | DividerBlock i => Hdivider i
  | EmbedBlock i u t => Hembed i u t
  | QuestionBlock i q => Hquestion i q
  | GroupBlock i t ch =>
      Hgroup i t ch
        ((fix all (l : list Block) : Forall P l :=
            match l with
            | [] => Forall_nil P
            | c :: l' => Forall_cons c (Block_ind c) (all l')
            end) ch)
  end.
End BlockInduction.

Definition block_id (b : Block) : jsstring :=
  match b with
  | TextBlock i _ | DividerBlock i | EmbedBlock i _ _
  | QuestionBlock i _ | GroupBlock i _ _ => i
  end.

Definition block_type (b : Block) : BlockType :=
  match b with
  | TextBlock _ _ => TyText
  | DividerBlock _ => TyDivider
  | EmbedBlock _ _ _ => TyEmbed
  | QuestionBlock _ _ => TyQuestion
  | GroupBlock _ _ _ => TyGroup
  end.

Definition is_divider (b : Block) : bool :=
  match b with DividerBlock _ => true | _ => false end.

Definition is_group (b : Block) : bool :=
  match b with GroupBlock _ _ _ => true | _ => false end.

(** [(b as GroupBlock).children], empty for the other variants. *)
Definition block_children (b : Block) : list Block :=
  match b with GroupBlock _ _ ch => ch | _ => [] end.

Record DesignSettings := mkDesign {
  accentColor : jsstring;
  font : jsstring
}.

Record WorksheetData := mkWorksheet {
  title : jsstring;
  description_ : jsstring;
  blocks : list Block;
  design : option DesignSettings
}.

Record Payload := mkPayload {
  payload_type : BlockType;
  payload_qType : option QuestionType
}.

Inductive DragItemType := ItemBlock | ItemNewBlock.

Record DragItem := mkDragItem {
  item_id : option jsstring;
  item_index : option Z;
  item_parentId : option jsstring;
  item_type : DragItemType;
  item_payload : option Payload
}.

(* ===================================================================== *)
(** ** Measures on forests *)
(* ===================================================================== *)

(** Every block of a forest, parents before children, in document order. *)
Fixpoint nodes_of (b : Block) : list Block :=
  b :: match b with
       | GroupBlock _ _ ch => flat_map nodes_of ch
       | _ => []
       end.

Definition nodes (t : list Block) : list Block := flat_map nodes_of t.

(** The ids found anywhere in a forest. *)
Definition ids (t : list Block) : list jsstring := map block_id (nodes t).

(** The total number of blocks of a forest. *)
Definition count_blocks (t : list Block) : nat := length (nodes t).

(** The data-model invariant: ids are unique across the whole tree. *)
Definition unique_ids (t : list Block) : Prop := NoDup (ids t).

(* ===================================================================== *)
(** ** Tree helpers of [QuestionBoard.tsx] *)
(* ===================================================================== *)

(** The callback of the [map] in [removeBlockRecursive]; its group case is
    the recursive call on the children (lemma [removeNode_group]). *)
Fixpoint removeNode (id : jsstring) (b : Block) : Block :=
  match b with
  | GroupBlock i t ch =>
      GroupBlock i t
        ((fix visit (bs : list Block) : list Block :=
            match bs with
            | [] => []
            | c :: bs' =>
                if negb (streq (block_id c) id)
                then removeNode id c :: visit bs'
                else visit bs'
            end) ch)
  | _ => b
  end.

(** [blocks.filter(b => b.id !== id).map(b => group ? {...b, children:
    removeBlockRecursive(children, id)} : b)] *)
Definition removeBlockRecursive (blocks : list Block) (id : jsstring)
  : list Block :=
  map (removeNode id) (filter (fun b => negb (streq (block_id b) id)) blocks).

(** The first [Some] a function gives along a list: a [for] loop that
    returns from inside. *)
Fixpoint first_some {A B : Type} (f : A -> option B) (l : list A) : option B :=
  match l with
  | [] => None
  | x :: l' => match f x with
               | Some r => Some r
               | None => first_some f l'
               end
  end.

Fixpoint findBlockIn (id : jsstring) (b : Block) : option Block :=
  if streq (block_id b) id then Some b
  else match b with
       | GroupBlock _ _ ch => first_some (findBlockIn id) ch
       | _ => None
       end.

Definition findBlock (blocks : list Block) (id : jsstring) : option Block :=
  first_some (findBlockIn id) blocks.

(** [arr.findIndex(b => b.id === id)]: the first index, or [-1]. *)
Fixpoint findIndex (blocks : list Block) (id : jsstring) : Z :=
  match blocks with
  | [] => -1
  | b :: rest =>
      if streq (block_id b) id then 0
      else let r := findIndex rest id in
           if r =? -1 then -1 else r + 1
  end%Z.

(** [arr.splice(start, 0, x)] on a copy of [arr]: a negative [start] counts
    from the end, and [start] is clamped to the array. *)
Definition splice_insert {A : Type} (start : Z) (x : A) (l : list A) : list A :=
  let len := Z.of_nat (length l) in
  let k := if (start <? 0)%Z then Z.max (len + start) 0 else Z.min start len in
  firstn (Z.to_nat k) l ++ x :: skipn (Z.to_nat k) l.

(** [arr.splice(i, 1)] on a copy of [arr], for an index of the array. *)
Definition splice_remove {A : Type} (i : nat) (l : list A) : list A :=
  firstn i l ++ skipn (S i) l.

(** [Math.max(0, Math.min(index, length))] *)
Definition safeIndex (index : Z) (len : nat) : Z :=
  Z.max 0 (Z.min index (Z.of_nat len)).

(** The callback of the [map] of [insertBlockAt], for a truthy [parentId]. *)
Fixpoint insertInto (parentId : jsstring) (index : Z) (block : Block)
  (b : Block) : Block :=
  match b with
  | GroupBlock i t ch =>
      if streq i parentId
      then GroupBlock i t (splice_insert (safeIndex index (length ch)) block ch)
      else GroupBlock i t (map (insertInto parentId index block) ch)
  | _ => b
  end.

Definition insertBlockAt (blocks : list Block) (parentId : option jsstring)
  (index : Z) (block : Block) : list Block :=
  if negb (truthy parentId)
  then splice_insert (safeIndex index (length blocks)) block blocks
  else match parentId with
       | Some pid => map (insertInto pid index block) blocks
       | None => blocks
       end.

(** [updateRecursive] of [updateBlock]. *)
Fixpoint updateNode (id : jsstring) (newData : Block) (b : Block) : Block :=
  if streq (block_id b) id then newData
  else match b with
       | GroupBlock i t ch => GroupBlock i t (map (updateNode id newData) ch)
       | _ => b
       end.

Definition updateRecursive (id : jsstring) (newData : Block)
  (blocks : list Block) : list Block :=
  map (updateNode id newData) blocks.

Definition updateBlock (id : jsstring) (newData : Block)
  (prev : WorksheetData) : WorksheetData :=
  mkWorksheet (title prev) (description_ prev)
    (updateRecursive id newData (blocks prev)) (design prev).

Definition removeBlock (id : jsstring) (prev : WorksheetData) : WorksheetData :=
  mkWorksheet (title prev) (description_ prev)
    (removeBlockRecursive (blocks prev) id) (design prev).

(* ===================================================================== *)
(** ** Segmentation ([QuestionBoard.tsx], [Answer.tsx]) *)
(* ===================================================================== *)

(** The [forEach] loop, with [segs] and [currentSegment] as accumulators. *)
Fixpoint segments_loop (segs : list (list Block)) (currentSegment : list Block)
  (bs : list Block) : list (list Block) * list Block :=
  match bs with
  | [] => (segs, currentSegment)
  | block :: bs' =>
      if is_divider block
      then segments_loop (segs ++ [currentSegment] ++ [[block]]) [] bs'
      else segments_loop segs (currentSegment ++ [block]) bs'
  end.

Definition segments (blocks : list Block) : list (list Block) :=
  let (segs, currentSegment) := segments_loop [] [] blocks in
  segs ++ [currentSegment].

(** [segments] of [Answer.tsx]: the same loop, and no segment at all while
    no worksheet is loaded. *)
Definition Answer_segments (data : option WorksheetData) : list (list Block) :=
  match data with
  | None => []
  | Some d => segments (blocks d)
  end.

(** The segments still to come when the loop stands before [bs] with
    [currentSegment] open. *)
Fixpoint segments_from (currentSegment : list Block) (bs : list Block)
  : list (list Block) :=
  match bs with
  | [] => [currentSegment]
  | block :: bs' =>
      if is_divider block
      then currentSegment :: [block] :: segments_from [] bs'
      else segments_from (currentSegment ++ [block]) bs'
  end.

(** The number of dividers of a list. *)
Definition dividers (bs : list Block) : nat := length (filter is_divider bs).

(* ===================================================================== *)
(** ** Id generation and the block factory ([helpers.ts]) *)
(* ===================================================================== *)

(** [generateId] reads [Math.random()].  The random source is an explicit
    supply: [draw n] is the id the [n]-th call returns, [drawn] counts the
    calls made so far. *)
Record IdSupply := mkSupply {
  draw : nat -> jsstring;
  drawn : nat
}.

(** Computations that call [generateId]. *)
Definition Gen (A : Type) : Type := IdSupply -> A * IdSupply.

Definition ret {A : Type} (x : A) : Gen A := fun s => (x, s).

Definition bind {A B : Type} (m : Gen A) (k : A -> Gen B) : Gen B :=
  fun s => let (x, s') := m s in k x s'.

Notation "x <- m ;; k" := (bind m (fun x => k))
  (at level 61, m at next level, right associativity).

Definition generateId : Gen jsstring :=
  fun s => (draw s (drawn s), mkSupply (draw s) (S (drawn s))).

(** [arr.map(f)] for an [f] that calls [generateId]: left to right. *)
Fixpoint mapGen {A B : Type} (f : A -> Gen B) (l : list A) : Gen (list B) :=
  match l with
  | [] => ret []
  | x :: l' => y <- f x ;; ys <- mapGen f l' ;; ret (y :: ys)
  end.

Definition defaultPrompt (qType : option QuestionType) : jsstring :=
  match qType with
  | Some MultipleChoice => js "Select the correct option"
  | Some OpenAnswer => js "Type your answer below"
  | Some ClozeText => js "Fill in the missing words"
  | Some ClozeDropdown => js "Select the correct options"
  | Some DragInline => js "Drag and drop the words"
  | None => js "New Question"
  end.

Definition createBlock (type : BlockType) (qType : option QuestionType)
  : Gen Block :=
  id <- generateId ;;
  ret match type with
      | TyQuestion =>
          QuestionBlock id
            {| qType := qType;
               prompt := defaultPrompt qType;
               listItems :=
                 match qType with
                 | Some ClozeText => Some [js "The capital of France is [Paris]."]
                 | Some ClozeDropdown => Some [js "The sky is [blue|green|red]."]
                 | Some DragInline => Some [js "The [cat] sat on the [mat]."]
                 | _ => None
                 end;
               image := None;
               description := None;
               options :=
                 match qType with
                 | Some MultipleChoice => Some [js "Option 1"; js "Option 2"]
                 | _ => None
                 end;
               multiSelect := None;
               correctAnswer := None |}
      | TyText =>
          TextBlock id
            (js "### Instructions" ++ [10; 10]%N
               ++ js "Enter your text instructions here...")
      | TyGroup => GroupBlock id (Some (js "New Group")) []
      | TyEmbed => EmbedBlock id [] (Some (js "Video Resource"))
      | TyDivider => DividerBlock id
      end.

(** [{...block, id: newId}], and the children re-identified for a group. *)
Fixpoint duplicateBlockHelper (block : Block) : Gen Block :=
  newId <- generateId ;;
  match block with
  | GroupBlock _ t ch =>
      ch' <- mapGen duplicateBlockHelper ch ;;
      ret (GroupBlock newId t ch')
  | TextBlock _ c => ret (TextBlock newId c)
  | DividerBlock _ => ret (DividerBlock newId)
  | EmbedBlock _ u t => ret (EmbedBlock newId u t)
  | QuestionBlock _ q => ret (QuestionBlock newId q)
  end.

(* ===================================================================== *)
(** ** The editor operations of [QuestionBoard.tsx] *)
(* ===================================================================== *)

Definition with_blocks (prev : WorksheetData) (bs : list Block) : WorksheetData :=
  mkWorksheet (title prev) (description_ prev) bs (design prev).

(** [insertAfterRecursive] of [duplicateBlock]: when the id is found in the
    list at hand the copy goes right after it, and only otherwise are the
    groups of the list visited. *)
Fixpoint insertAfterNode (id : jsstring) (newBlock : Block) (b : Block)
  : Block :=
  match b with
  | GroupBlock i t ch =>
      GroupBlock i t
        (let idx := findIndex ch id in
         if negb (idx =? -1)%Z
         then splice_insert (idx + 1) newBlock ch
         else map (insertAfterNode id newBlock) ch)
  | _ => b
  end.

Definition insertAfterRecursive (id : jsstring) (newBlock : Block)
  (blocks : list Block) : list Block :=
  let idx := findIndex blocks id in
  if negb (idx =? -1)%Z
  then splice_insert (idx + 1) newBlock blocks
  else map (insertAfterNode id newBlock) blocks.

Definition duplicateBlock (block : Block) (prev : WorksheetData)
  : Gen WorksheetData :=
  newBlock <- duplicateBlockHelper block ;;
  ret (with_blocks prev (insertAfterRecursive (block_id block) newBlock (blocks prev))).

Definition addBlock (type : BlockType) (qType : option QuestionType)
  (prev : WorksheetData) : Gen WorksheetData :=
  b <- createBlock type qType ;;
  ret (with_blocks prev (blocks prev ++ [b])).

(** [findIndexInParent] for a truthy [pId], one turn of its [for] loop:
    [Some r] when the turn returns [r], [None] when the loop goes on. *)
Fixpoint findIndexInParentNode (targetId pId : jsstring) (b : Block)
  : option Z :=
  match b with
  | GroupBlock i _ ch =>
      if streq i pId then Some (findIndex ch targetId)
      else let res := match first_some (findIndexInParentNode targetId pId) ch with
                      | Some r => r
                      | None => (-1)%Z
                      end in
           if negb (res =? -1)%Z then Some res else None
  | _ => None
  end.

Definition findIndexInParent (targetId : jsstring) (blocks : list Block)
  (pId : option jsstring) : Z :=
  if negb (truthy pId) then findIndex blocks targetId
  else match pId with
       | Some p => match first_some (findIndexInParentNode targetId p) blocks with
                   | Some r => r
                   | None => (-1)%Z
                   end
       | None => (-1)%Z
       end.

(** The updater that [handleDragDrop] hands to [setData]. *)
Definition handleDragDrop (item : DragItem)
  (targetId targetParentId : option jsstring) (targetIndex : option Z)
  (prev : WorksheetData) : Gen WorksheetData :=
  let finish (movingBlock : Block) (currentBlocks : list Block) : WorksheetData :=
    if is_divider movingBlock && truthy targetParentId then prev
    else
      let finalIndex :=
        match targetIndex with
        | Some i => Some i
        | None =>
            match targetId with
            | Some (c :: tid) =>
                let idx := findIndexInParent (c :: tid) currentBlocks targetParentId in
                if negb (idx =? -1)%Z then Some (idx + 1)%Z else None
            | _ => None
            end
        end in
      let finalIndex := match finalIndex with Some i => i | None => (-1)%Z end in
      with_blocks prev (insertBlockAt currentBlocks targetParentId finalIndex movingBlock)
  in
  match item_type item with
  | ItemNewBlock =>
      match item_payload item with
      | None => ret prev
      | Some payload =>
          movingBlock <- createBlock (payload_type payload) (payload_qType payload) ;;
          ret (finish movingBlock (blocks prev))
      end
  | ItemBlock =>
      match item_id item with
      | None => ret prev
      | Some id =>
          match findBlock (blocks prev) id with
          | None => ret prev
          | Some found =>
              ret (finish found (removeBlockRecursive (blocks prev) id))
          end
      end
  end.

(* ===================================================================== *)
(** ** Drop zones of [EditorBlockWrapper.tsx] *)
(* ===================================================================== *)

(** The pointer and the bounds of the wrapper under it. *)
Record Pointer := mkPointer {
  clientY : Z;
  rect_top : Z;
  rect_bottom : Z
}.

(** The arguments of one [handleDrop] call. *)
Record DropCall := mkDropCall {
  call_targetId : option jsstring;
  call_targetParentId : option jsstring;
  call_targetIndex : option Z
}.

(** [onDrop] of the wrapper of [block], rendered at [index] of the list of
    [parentId], at nesting [depth]. *)
Definition onDrop (block : Block) (index : Z) (parentId : option jsstring)
  (depth : Z) (e : Pointer) : DropCall :=
  let isTop := (clientY e <? rect_top e + 20)%Z in
  let isBottom := (clientY e >? rect_bottom e - 20)%Z in
  if is_group block && negb isTop && negb isBottom
     && (clientY e <? rect_top e + 80)%Z && (depth <? 1)%Z
  then mkDropCall None (Some (block_id block))
         (Some (Z.of_nat (length (block_children block))))
  else mkDropCall None parentId (Some (if isTop then index else index + 1)%Z).

(** [canDropInGroup] of a wrapper at [depth], while a block of
    [draggedType] is dragged. *)
Definition canDropInGroup (draggedType : option BlockType) (depth : Z) : bool :=
  let isGroupDrag := match draggedType with Some TyGroup => true | _ => false end in
  let isDividerDrag := match draggedType with Some TyDivider => true | _ => false end in
  let isMaxDepth := (depth >=? 1)%Z in
  negb (isGroupDrag && isMaxDepth) && negb isDividerDrag.

(** [onDrop] of the drop zone inside a group; the zone is rendered only
    when the group is empty or a drag is under way, and [depth < 1].
    [None]: no [handleDrop] call. *)
Definition onDropInside (block : Block) (depth : Z) (isDraggingItem : bool)
  (draggedType : option BlockType) : option DropCall :=
  if (Nat.eqb (length (block_children block)) 0 || isDraggingItem)
     && (depth <? 1)%Z && is_group block
  then if canDropInGroup draggedType depth
       then Some (mkDropCall None (Some (block_id block))
                    (Some (Z.of_nat (length (block_children block)))))
       else None
  else None.

(** Where [onDragOver] shows the drop: the [pos] it hands to
    [setDragTarget] for the wrapper of [block] at nesting [depth]. *)
Inductive DropPos := PosTop | PosBottom | PosInside.

Definition onDragOver (block : Block) (depth : Z) (e : Pointer) : DropPos :=
  let isTop := (clientY e <? rect_top e + 20)%Z in
  let isBottom := (clientY e >? rect_bottom e - 20)%Z in
  if is_group block && negb isTop && negb isBottom
     && (clientY e <? rect_top e + 80)%Z && (depth <? 1)%Z
  then PosInside
  else if isTop then PosTop else PosBottom.

(** [handleItemDrop] of the wrapper, on the options or the sentences of a
    question: the list it hands to [updateBlock], or [None] when it
    returns before.  An entry [None] of the list is [undefined], what
    [list[draggedOptionIdx]] is beyond the list. *)
Definition handleItemDrop {A : Type} (draggedOptionIdx : option nat)
  (dropIdx : nat) (list_ : list A) : option (list (option A)) :=
  match draggedOptionIdx with
  | None => None
  | Some dragged =>
      if Nat.eqb dragged dropIdx then None
      else
        let item := nth_error list_ dragged in
        Some (splice_insert (Z.of_nat dropIdx) item
                (map Some (splice_remove dragged list_)))
  end.

(* ===================================================================== *)
(** ** The multiple-choice player ([PlayerComponents.tsx]) *)
(* ===================================================================== *)

(** The answer to a multiple-choice question: nothing yet, the option of
    a single choice, or the options ticked so far. *)
Inductive AnswerValue :=
| NoAnswer
| OneAnswer (opt : jsstring)
| ManyAnswers (opts : list jsstring).

Module MultipleChoicePlayer.

Definition isSelected (isMulti : bool) (value : AnswerValue) (opt : jsstring)
  : bool :=
  if isMulti
  then match value with
       | ManyAnswers l => existsb (fun o => streq o opt) l
       | _ => false
       end
  else match value with
       | OneAnswer v => streq v opt
       | _ => false
       end.

(** The value [handleChange] hands to [onChange]. *)
Definition handleChange (isMulti : bool) (value : AnswerValue) (opt : jsstring)
  : AnswerValue :=
  if isMulti
  then let current := match value with
                      | ManyAnswers l => l
                      | _ => []
                      end in
       if existsb (fun o => streq o opt) current
       then ManyAnswers (filter (fun o => negb (streq o opt)) current)
       else ManyAnswers (current ++ [opt])
  else OneAnswer opt.

End MultipleChoicePlayer.

(* ===================================================================== *)
(** ** The older drop handler of [index.tsx] *)
(* ===================================================================== *)

Module Legacy.

Definition createBlock (type : BlockType) (qType : option QuestionType)
  : Gen Block :=
  id <- generateId ;;
  ret match type with
      | TyQuestion =>
          let isComplex :=
            match qType with
            | Some ClozeText | Some ClozeDropdown | Some DragInline => true
            | _ => false
            end in
          QuestionBlock id
            {| qType := qType;
               prompt := if isComplex then js "Complete the sentences:"
                         else js "New Question";
               listItems :=
                 match qType with
                 | Some ClozeText => Some [js "The capital of France is [Paris]."]
                 | Some ClozeDropdown => Some [js "The sky is [blue|green|red]."]
                 | Some DragInline => Some [js "The [cat] sat on the [mat]."]
                 | _ => None
                 end;
               image := None;
               description := None;
               options :=
                 match qType with
                 | Some MultipleChoice => Some [js "Option 1"; js "Option 2"]
                 | _ => None
                 end;
               multiSelect := None;
               correctAnswer := None |}
      | TyText => TextBlock id (js "Write some **markdown** text here...")
      | TyGroup => GroupBlock id (Some (js "Question Group")) []
      | TyEmbed => EmbedBlock id [] None
      | TyDivider => DividerBlock id
      end.

(** [findIndex(b => b.id === id)] for an id that may be [undefined]. *)
Definition findIndexOpt (blocks : list Block) (id : option jsstring) : Z :=
  match id with
  | Some i => findIndex blocks i
  | None => (-1)%Z
  end.

(** [newBlocks[i] = b] for an index of the array. *)
Definition set_nth (i : nat) (b : Block) (l : list Block) : list Block :=
  firstn i l ++ b :: skipn (S i) l.

(** The index a block is inserted at, in a list that holds [len]
    blocks once the source is taken out.  [sameList] says whether the
    source came out of this very list. *)
Definition insertIdx (item : DragItem) (sameList : bool) (originalIndex : Z)
  (targetId : option jsstring) (targetIndex : option Z)
  (l : list Block) : Z :=
  let insertIdx := match targetIndex with
                   | Some i => i
                   | None => Z.of_nat (length l)
                   end in
  let insertIdx :=
    if match item_type item with ItemNewBlock => false | ItemBlock => true end
       && sameList && negb (originalIndex =? -1)%Z
       && (originalIndex <? insertIdx)%Z
    then (insertIdx - 1)%Z else insertIdx in
  match targetId, targetIndex with
  | Some (c :: tid), None =>
      let tIdx := findIndex l (c :: tid) in
      if negb (tIdx =? -1)%Z then (tIdx + 1)%Z else insertIdx
  | _, _ => insertIdx
  end.

(** [a === b] on [string | undefined]. *)
Definition opt_streq (a b : option jsstring) : bool :=
  match a, b with
  | Some x, Some y => streq x y
  | None, None => true
  | _, _ => false
  end.

(** The second half of the handler: the insertion of [movingBlock] into
    [newBlocks].  [None] is the [TypeError] of reading the children of a
    block that is not a group. *)
Definition insertMoving (item : DragItem) (originalIndex : Z)
  (targetId targetParentId : option jsstring) (targetIndex : option Z)
  (movingBlock : Block) (newBlocks : list Block) : option (list Block) :=
  if negb (truthy targetParentId)
  then
    let i := insertIdx item (negb (truthy (item_parentId item)))
               originalIndex targetId targetIndex newBlocks in
    Some (splice_insert i movingBlock newBlocks)
  else
    let parentIdx := findIndexOpt newBlocks targetParentId in
    if negb (parentIdx =? -1)%Z
    then match nth_error newBlocks (Z.to_nat parentIdx) with
         | Some (GroupBlock pi pt ch) =>
             let i := insertIdx item (opt_streq (item_parentId item) targetParentId)
                        originalIndex targetId targetIndex ch in
             Some (set_nth (Z.to_nat parentIdx)
                     (GroupBlock pi pt (splice_insert i movingBlock ch))
                     newBlocks)
         | _ => None
         end
    else Some newBlocks.

(** The updater of the older [handleDragDrop]; [None] when it throws. *)
Definition handleDragDrop (item : DragItem)
  (targetId targetParentId : option jsstring) (targetIndex : option Z)
  (prev : WorksheetData) : Gen (option WorksheetData) :=
  let newBlocks := blocks prev in
  let finish (originalIndex : Z) (movingBlock : Block) (newBlocks : list Block) :=
    option_map (with_blocks prev)
      (insertMoving item originalIndex targetId targetParentId targetIndex
         movingBlock newBlocks) in
  match item_type item with
  | ItemNewBlock =>
      match item_payload item with
      | None => ret (Some prev)
      | Some payload =>
          movingBlock <- createBlock (payload_type payload) (payload_qType payload) ;;
          ret (finish (-1)%Z movingBlock newBlocks)
      end
  | ItemBlock =>
      if negb (truthy (item_parentId item))
      then
        let originalIndex := findIndexOpt newBlocks (item_id item) in
        if (originalIndex =? -1)%Z then ret (Some prev)
        else match nth_error newBlocks (Z.to_nat originalIndex) with
             | Some movingBlock =>
                 ret (finish originalIndex movingBlock
                        (splice_remove (Z.to_nat originalIndex) newBlocks))
             | None => ret (Some prev)
             end
      else
        let parentIdx := findIndexOpt newBlocks (item_parentId item) in
        if (parentIdx =? -1)%Z then ret (Some prev)
        else match nth_error newBlocks (Z.to_nat parentIdx) with
             | Some (GroupBlock pi pt ch) =>
                 let originalIndex := findIndexOpt ch (item_id item) in
                 if (originalIndex =? -1)%Z then ret (Some prev)
                 else match nth_error ch (Z.to_nat originalIndex) with
                      | Some movingBlock =>
                          ret (finish originalIndex movingBlock
                                 (set_nth (Z.to_nat parentIdx)
                                    (GroupBlock pi pt
                                       (splice_remove (Z.to_nat originalIndex) ch))
                                    newBlocks))
                      | None => ret (Some prev)
                      end
             | _ => ret None
             end
  end.

(** The updater of the older [removeBlock], which is told the parent of
    the block; [None] when it throws, on a parent that is not a group. *)
Definition removeBlock (id : jsstring) (parentId : option jsstring)
  (prev : WorksheetData) : option WorksheetData :=
  let newBlocks := blocks prev in
  if negb (truthy parentId)
  then Some (with_blocks prev
               (filter (fun b => negb (streq (block_id b) id)) newBlocks))
  else
    let parentIdx := findIndexOpt newBlocks parentId in
    if negb (parentIdx =? -1)%Z
    then match nth_error newBlocks (Z.to_nat parentIdx) with
         | Some (GroupBlock pi pt ch) =>
             Some (with_blocks prev
                     (set_nth (Z.to_nat parentIdx)
                        (GroupBlock pi pt
                           (filter (fun b => negb (streq (block_id b) id)) ch))
                        newBlocks))
         | _ => None
         end
    else Some (with_blocks prev newBlocks).

End Legacy.

(* ===================================================================== *)
(** ** The platform functions the codec calls *)
(* ===================================================================== *)

(** [helpers.ts] builds the codec from [btoa], [atob], [JSON.stringify],
    [JSON.parse] and [String.prototype.replace].  They are part of the
    platform, not of the repository; the definitions of this section follow
    their standards (WHATWG forgiving-base64, ECMA-262 [JSON]).  A thrown
    exception is [None]. *)

(** The code unit of an ASCII character. *)
Definition code (a : ascii) : N := N_of_ascii a.

Notation "c == a" := (N.eqb c (code a)) (at level 70, no associativity).

Local Open Scope char_scope.

(** *** [String.prototype.replace] with a string pattern *)

(** [Some rest] when [s] is [pat] followed by [rest]. *)
Fixpoint strip_prefix (pat s : jsstring) : option jsstring :=
  match pat, s with
  | [], _ => Some s
  | p :: pat', c :: s' => if N.eqb p c then strip_prefix pat' s' else None
  | _ :: _, [] => None
  end.

(** [s.replace(pat, rep)]: the first occurrence only; [rep] is taken
    literally (the codec passes the empty string). *)
Fixpoint replace (pat rep s : jsstring) : jsstring :=
  match strip_prefix pat s with
  | Some rest => rep ++ rest
  | None => match s with
            | [] => []
            | c :: s' => c :: replace pat rep s'
            end
  end.

(** *** [btoa] and [atob] *)

Definition b64char (v : N) : N :=
  (if v <? 26 then 65 + v
   else if v <? 52 then 97 + (v - 26)
   else if v <? 62 then 48 + (v - 52)
   else if v =? 62 then 43
   else 47)%N.

Definition b64val (c : N) : option N :=
  (if (65 <=? c) && (c <=? 90) then Some (c - 65)
   else if (97 <=? c) && (c <=? 122) then Some (c - 97 + 26)
   else if (48 <=? c) && (c <=? 57) then Some (c - 48 + 52)
   else if c =? 43 then Some 62
   else if c =? 47 then Some 63
   else None)%N.

(** Three octets are four sextets; a last group of one or two octets gives
    two or three sextets, the spare low bits being zero. *)
Fixpoint sextets (bytes : list N) : list N :=
  match bytes with
  | a :: b :: c :: rest =>
      (a / 4 :: (a mod 4) * 16 + b / 16 :: (b mod 16) * 4 + c / 64 :: c mod 64
         :: sextets rest)%N
  | [a; b] => [a / 4; (a mod 4) * 16 + b / 16; (b mod 16) * 4]%N
  | [a] => [a / 4; (a mod 4) * 16]%N
  | [] => []
  end.

(** Four sextets are three octets; a last group of two or three sextets
    gives one or two octets, the spare bits being dropped. *)
Fixpoint octets (vs : list N) : list N :=
  match vs with
  | a :: b :: c :: d :: rest =>
      (a * 4 + b / 16 :: (b mod 16) * 16 + c / 4 :: (c mod 4) * 64 + d
         :: octets rest)%N
  | [a; b; c] => [a * 4 + b / 16; (b mod 16) * 16 + c / 4]%N
  | [a; b] => [a * 4 + b / 16]%N
  | _ => []
  end.

Definition padding (len : nat) : jsstring :=
  match Nat.modulo len 3 with
  | 1 => [code "="; code "="]
  | 2 => [code "="]
  | _ => []
  end.

(** [btoa(s)]: throws when a code unit is above [0xFF]. *)
Definition btoa (s : jsstring) : option jsstring :=
  if forallb (fun c => c <? 256)%N s
  then Some (map b64char (sextets s) ++ padding (length s))
  else None.

Definition is_ascii_whitespace (c : N) : bool :=
  ((c =? 9) || (c =? 10) || (c =? 12) || (c =? 13) || (c =? 32))%N.

(** One or two [=] at the end are dropped. *)
Definition strip_padding (s : jsstring) : jsstring :=
  match rev s with
  | c1 :: c2 :: r =>
      if c1 == "=" then (if c2 == "=" then rev r else rev (c2 :: r)) else s
  | [c1] => if c1 == "=" then [] else s
  | [] => s
  end.

(** Every character read in the base64 alphabet, or [None]. *)
Fixpoint b64vals (s : jsstring) : option (list N) :=
  match s with
  | [] => Some []
  | c :: s' => match b64val c, b64vals s' with
               | Some v, Some vs => Some (v :: vs)
               | _, _ => None
               end
  end.

(** [atob(s)], the forgiving-base64 decode. *)
Definition atob (s : jsstring) : option jsstring :=
  let data := filter (fun c => negb (is_ascii_whitespace c)) s in
  let data := if Nat.eqb (Nat.modulo (length data) 4) 0
              then strip_padding data else data in
  if Nat.eqb (Nat.modulo (length data) 4) 1 then None
  else option_map octets (b64vals data).

(** *** JSON values *)

(** The values [JSON.parse] builds and [JSON.stringify] reads.  An object
    is the list of its own properties in enumeration order.  A number is
    kept as the text of its literal: its IEEE-754 value is not modelled
    (no field of a worksheet is a number). *)
Unset Elimination Schemes.
Inductive json :=
| JNull
| JBool (b : bool)
| JNumber (literal : jsstring)
| JString (s : jsstring)
| JArray (elements : list json)
| JObject (properties : list (jsstring * json)).
Set Elimination Schemes.

Section JsonInduction.
Variable P : json -> Prop.
Hypothesis Hnull : P JNull.
Hypothesis Hbool : forall b, P (JBool b).
Hypothesis Hnumber : forall l, P (JNumber l).
Hypothesis Hstring : forall s, P (JString s).
Hypothesis Harray : forall l, Forall P l -> P (JArray l).
Hypothesis Hobject : forall ps, Forall (fun kv => P (snd kv)) ps -> P (JObject ps).

Fixpoint json_ind (v : json) : P v :=
  match v with
  | JNull => Hnull
  | JBool b => Hbool b
  | JNumber l => Hnumber l
  | JString s => Hstring s
  | JArray l =>
      Harray l
        ((fix all (l : list json) : Forall P l :=
            match l with
            | [] => Forall_nil P
            | x :: l' => Forall_cons x (json_ind x) (all l')
            end) l)
  | JObject ps =>
      Hobject ps
        ((fix all (l : list (jsstring * json))
            : Forall (fun kv => P (snd kv)) l :=
            match l with
            | [] => Forall_nil _
            | kv :: l' =>
                Forall_cons (P := fun kv => P (snd kv)) kv
                  (json_ind (snd kv)) (all l')
            end) ps)
  end.
End JsonInduction.

(** *** [JSON.stringify] *)

Definition hexdigit (v : N) : N :=
  (if v <? 10 then 48 + v else 97 + (v - 10))%N.

(** [\uXXXX], lower-case digits. *)
Definition unicodeEscape (c : N) : jsstring :=
  [code "\"; code "u"; hexdigit (c / 4096 mod 16); hexdigit (c / 256 mod 16);
   hexdigit (c / 16 mod 16); hexdigit (c mod 16)]%N.

Definition is_leading_surrogate (c : N) : bool :=
  ((55296 <=? c) && (c <=? 56319))%N.

Definition is_trailing_surrogate (c : N) : bool :=
  ((56320 <=? c) && (c <=? 57343))%N.

(** One code unit that is not half of a surrogate pair. *)
Definition quoteUnit (c : N) : jsstring :=
  (if c =? 8 then [code "\"; code "b"]
   else if c =? 9 then [code "\"; code "t"]
   else if c =? 10 then [code "\"; code "n"]
   else if c =? 12 then [code "\"; code "f"]
   else if c =? 13 then [code "\"; code "r"]
   else if c =? 34 then [code "\"; 34]
   else if c =? 92 then [code "\"; code "\"]
   else if (c <? 32) || is_leading_surrogate c || is_trailing_surrogate c
        then unicodeEscape c
   else [c])%N.

(** The characters between the quotes: a surrogate pair is copied, a lone
    surrogate is escaped. *)
Fixpoint quoteChars (s : jsstring) : jsstring :=
  match s with
  | [] => []
  | c :: s' =>
      if is_leading_surrogate c
      then match s' with
           | d :: s'' =>
               if is_trailing_surrogate d then c :: d :: quoteChars s''
               else quoteUnit c ++ quoteChars s'
           | [] => quoteUnit c
           end
      else quoteUnit c ++ quoteChars s'
  end.

Definition quoteJSONString (s : jsstring) : jsstring :=
  34%N :: quoteChars s ++ [34%N].

Fixpoint join_comma (parts : list jsstring) : jsstring :=
  match parts with
  | [] => []
  | [p] => p
  | p :: ps => p ++ code "," :: join_comma ps
  end.

(** [JSON.stringify(v)], without indentation. *)
Fixpoint stringify (v : json) : jsstring :=
  match v with
  | JNull => js "null"
  | JBool true => js "true"
  | JBool false => js "false"
  | JNumber literal => literal
  | JString s => quoteJSONString s
  | JArray elements =>
      code "[" :: join_comma (map stringify elements) ++ [code "]"]
  | JObject properties =>
      code "{"
        :: join_comma
             (map (fun kv => quoteJSONString (fst kv) ++ code ":" :: stringify (snd kv))
                properties)
        ++ [code "}"]
  end.

(** *** [JSON.parse] *)

Definition is_json_whitespace (c : N) : bool :=
  ((c =? 9) || (c =? 10) || (c =? 13) || (c =? 32))%N.

Fixpoint skip_ws (s : jsstring) : jsstring :=
  match s with
  | c :: s' => if is_json_whitespace c then skip_ws s' else s
  | [] => []
  end.

Definition is_digit (c : N) : bool := ((48 <=? c) && (c <=? 57))%N.

Definition hexval (c : N) : option N :=
  (if (48 <=? c) && (c <=? 57) then Some (c - 48)
   else if (97 <=? c) && (c <=? 102) then Some (c - 97 + 10)
   else if (65 <=? c) && (c <=? 70) then Some (c - 65 + 10)
   else None)%N.

Definition hex4 (h1 h2 h3 h4 : N) : option N :=
  match hexval h1, hexval h2, hexval h3, hexval h4 with
  | Some a, Some b, Some c, Some d => Some (a * 4096 + b * 256 + c * 16 + d)%N
  | _, _, _, _ => None
  end.

(** The character a one-letter escape stands for. *)
Definition simpleEscape (e : N) : option N :=
  if e == "b" then Some 8%N
  else if e == "t" then Some 9%N
  else if e == "n" then Some 10%N
  else if e == "f" then Some 12%N
  else if e == "r" then Some 13%N
  else if N.eqb e 34 then Some 34%N
  else if e == "\" then Some 92%N
  else if e == "/" then Some 47%N
  else None.

Definition consChar (c : N) (r : option (jsstring * jsstring))
  : option (jsstring * jsstring) :=
  match r with
  | Some (s, rest) => Some (c :: s, rest)
  | None => None
  end.

(** The characters of a string literal after its opening quote, up to the
    closing quote: the string read, and the text that follows. *)
Fixpoint parseChars (s : jsstring) : option (jsstring * jsstring) :=
  match s with
  | [] => None
  | c :: r =>
      if N.eqb c 34 then Some ([], r)
      else if c == "\" then
        match r with
        | e :: r1 =>
            if e == "u" then
              match r1 with
              | h1 :: h2 :: h3 :: h4 :: r2 =>
                  match hex4 h1 h2 h3 h4 with
                  | Some u => consChar u (parseChars r2)
                  | None => None
                  end
              | _ => None
              end
            else match simpleEscape e with
                 | Some x => consChar x (parseChars r1)
                 | None => None
                 end
        | [] => None
        end
      else if (c <? 32)%N then None
      else consChar c (parseChars r)
  end.

(** The longest run of digits at the head of [s], and what follows. *)
Fixpoint spanDigits (s : jsstring) : jsstring * jsstring :=
  match s with
  | c :: s' => if is_digit c
               then let (ds, r) := spanDigits s' in (c :: ds, r)
               else ([], s)
  | [] => ([], [])
  end.

(** A number literal at the head of [s]: an optional minus sign; a zero,
    or a digit that is not zero and then any digits; an optional fraction,
    a dot and one digit or more; an optional exponent, [e] or [E], an
    optional sign and one digit or more. *)
Definition parseNumber (s : jsstring) : option (jsstring * jsstring) :=
  let (sign, s1) := match s with
                    | c :: r => if c == "-" then ([c], r) else ([], s)
                    | [] => ([], s)
                    end in
  let int_part :=
    match s1 with
    | c :: r =>
        if c == "0" then Some ([c], r)
        else if is_digit c then let (ds, r') := spanDigits r in Some (c :: ds, r')
        else None
    | [] => None
    end in
  match int_part with
  | None => None
  | Some (int_digits, s2) =>
      let frac :=
        match s2 with
        | c :: r =>
            if c == "." then
              match spanDigits r with
              | ([], _) => None
              | (ds, r') => Some (c :: ds, r')
              end
            else Some ([], s2)
        | [] => Some ([], s2)
        end in
      match frac with
      | None => None
      | Some (frac_digits, s3) =>
          let exponent :=
            match s3 with
            | c :: r =>
                if (c == "e") || (c == "E") then
                  let (esign, r1) :=
                    match r with
                    | d :: r' => if (d == "+") || (d == "-") then ([d], r')
                                 else ([], r)
                    | [] => ([], r)
                    end in
                  match spanDigits r1 with
                  | ([], _) => None
                  | (ds, r') => Some (c :: esign ++ ds, r')
                  end
                else Some ([], s3)
            | [] => Some ([], s3)
            end in
          match exponent with
          | None => None
          | Some (exp_part, s4) =>
              Some (sign ++ int_digits ++ frac_digits ++ exp_part, s4)
          end
      end
  end.

(** The array index a property key denotes, if it is one: a decimal
    numeral without leading zero, below [2^32 - 1]. *)
Definition arrayIndex (k : jsstring) : option N :=
  match k with
  | [] => None
  | c :: r =>
      if forallb is_digit k && (negb (c == "0") || Nat.eqb (length r) 0)
         && (length k <=? 10)%nat
      then let n := fold_left (fun acc d => acc * 10 + (d - 48))%N k 0%N in
           if (n <? 4294967295)%N then Some n else None
      else None
  end.

(** An integer-indexed property goes among the integer-indexed ones, in
    ascending order, ahead of the string-keyed ones. *)
Fixpoint insertIndexed (n : N) (k : jsstring) (v : json)
  (ps : list (jsstring * json)) : list (jsstring * json) :=
  match ps with
  | [] => [(k, v)]
  | (k', v') :: ps' =>
      match arrayIndex k' with
      | Some m => if (m <? n)%N then (k', v') :: insertIndexed n k v ps'
                  else (k, v) :: ps
      | None => (k, v) :: ps
      end
  end.

(** [CreateDataProperty(obj, k, v)]: a property that exists keeps its place
    and takes the new value; a new one is added in enumeration order. *)
Fixpoint hasProperty (k : jsstring) (ps : list (jsstring * json)) : bool :=
  match ps with
  | [] => false
  | (k', _) :: ps' => streq k' k || hasProperty k ps'
  end.

Fixpoint overwrite (k : jsstring) (v : json) (ps : list (jsstring * json))
  : list (jsstring * json) :=
  match ps with
  | [] => []
  | (k', v') :: ps' =>
      if streq k' k then (k', v) :: ps' else (k', v') :: overwrite k v ps'
  end.

Definition createDataProperty (ps : list (jsstring * json))
  (kv : jsstring * json) : list (jsstring * json) :=
  let (k, v) := kv in
  if hasProperty k ps then overwrite k v ps
  else match arrayIndex k with
       | Some n => insertIndexed n k v ps
       | None => ps ++ [(k, v)]
       end.

(** [Some rest] when [s] is the literal [word] followed by [rest]. *)
Definition expect (word : string) (s : jsstring) : option jsstring :=
  strip_prefix (js word) s.

(** The recursive-descent parser.  [fuel] bounds the depth of the calls;
    [JSON_parse] gives it more than the length of the text. *)
Fixpoint parseValue (fuel : nat) (s : jsstring) : option (json * jsstring) :=
  match fuel with
  | O => None
  | S fuel =>
      match skip_ws s with
      | [] => None
      | c :: r =>
          if c == "n" then option_map (pair JNull) (expect "ull" r)
          else if c == "t" then option_map (pair (JBool true)) (expect "rue" r)
          else if c == "f" then option_map (pair (JBool false)) (expect "alse" r)
          else if N.eqb c 34 then
            match parseChars r with
            | Some (str, r') => Some (JString str, r')
            | None => None
            end
          else if c == "[" then
            match skip_ws r with
            | c' :: r' =>
                if c' == "]" then Some (JArray [], r')
                else match parseElements fuel (c' :: r') with
                     | Some (vs, r'') => Some (JArray vs, r'')
                     | None => None
                     end
            | [] => None
            end
          else if c == "{" then
            match skip_ws r with
            | c' :: r' =>
                if c' == "}" then Some (JObject [], r')
                else match parseMembers fuel (c' :: r') with
                     | Some (ms, r'') =>
                         Some (JObject (fold_left createDataProperty ms []), r'')
                     | None => None
                     end
            | [] => None
            end
          else match parseNumber (c :: r) with
               | Some (literal, r') => Some (JNumber literal, r')
               | None => None
               end
      end
  end

with parseElements (fuel : nat) (s : jsstring) : option (list json * jsstring) :=
  match fuel with
  | O => None
  | S fuel =>
      match parseValue fuel s with
      | Some (v, r) =>
          match skip_ws r with
          | c :: r' =>
              if c == "," then
                match parseElements fuel r' with
                | Some (vs, r'') => Some (v :: vs, r'')
                | None => None
                end
              else if c == "]" then Some ([v], r')
              else None
          | [] => None
          end
      | None => None
      end
  end

with parseMembers (fuel : nat) (s : jsstring)
  : option (list (jsstring * json) * jsstring) :=
  match fuel with
  | O => None
  | S fuel =>
      match skip_ws s with
      | c :: r =>
          if N.eqb c 34 then
            match parseChars r with
            | Some (k, r1) =>
                match skip_ws r1 with
                | c1 :: r2 =>
                    if c1 == ":" then
                      match parseValue fuel r2 with
                      | Some (v, r3) =>
                          match skip_ws r3 with
                          | c3 :: r4 =>
                              if c3 == "," then
                                match parseMembers fuel r4 with
                                | Some (ms, r5) => Some ((k, v) :: ms, r5)
                                | None => None
                                end
                              else if c3 == "}" then Some ([(k, v)], r4)
                              else None
                          | [] => None
                          end
                      | None => None
                      end
                    else None
                | [] => None
                end
            | None => None
            end
          else None
      | [] => None
      end
  end.

(** [JSON.parse(text)]: one value, white space around it, nothing else. *)
Definition JSON_parse (text : jsstring) : option json :=
  match parseValue (S (length text)) text with
  | Some (v, rest) => match skip_ws rest with
                      | [] => Some v
                      | _ :: _ => None
                      end
  | None => None
  end.

(* ===================================================================== *)
(** ** The link codec ([helpers.ts]) *)
(* ===================================================================== *)

(** [try { body } catch (e) { handler }] *)
Definition try_catch {A : Type} (body : option A) (handler : A) : A :=
  match body with
  | Some x => x
  | None => handler
  end.

Definition option_bind {A B : Type} (m : option A) (k : A -> option B)
  : option B :=
  match m with
  | Some x => k x
  | None => None
  end.

(** [encodeState]: the empty string when the encoding throws. *)
Definition encodeState (data : json) : jsstring :=
  try_catch (btoa (stringify data)) [].

(** [decodeState]: [null] when the decoding throws; the value is
    returned as parsed, whatever its shape. *)
Definition decodeState (hash : jsstring) : json :=
  try_catch
    (option_bind (atob (replace (js "#data=") [] hash)) JSON_parse)
    JNull.

(* ===================================================================== *)
(** ** The file import of [Answer.tsx] *)
(* ===================================================================== *)

(** [v[k]] for a value that is not [null]: [None] is [undefined]. *)
Definition getProperty (k : jsstring) (v : json) : option json :=
  match v with
  | JObject ps =>
      option_map snd (find (fun kv => streq (fst kv) k) ps)
  | _ => None
  end.

(** A number literal that denotes zero: no digit of its mantissa is
    other than [0].  The test is on the text of the literal: a literal
    whose double underflows to zero, as [1e-400], is not taken for zero,
    though the code, which tests the double, takes it for falsy.  No
    property below tests the truthiness of a number. *)
Fixpoint zeroLiteral (literal : jsstring) : bool :=
  match literal with
  | [] => true
  | c :: r =>
      if (c == "e") || (c == "E") then true
      else negb ((49 <=? c) && (c <=? 57))%N && zeroLiteral r
  end.

(** Truthiness of a value read from a property. *)
Definition truthyValue (o : option json) : bool :=
  match o with
  | None | Some JNull | Some (JBool false) | Some (JString []) => false
  | Some (JNumber literal) => negb (zeroLiteral literal)
  | Some _ => true
  end.

Inductive ImportResult :=
| Imported (data : json)
| InvalidFormat
| ParseFailed.

(** [reader.onload] of [handleFileUpload]: the text is parsed, and the
    worksheet is taken only if it has a [blocks] property ("Basic
    validation").  Reading a property of [null] throws like a parse
    error does. *)
Definition handleFileUpload (text : jsstring) : ImportResult :=
  match JSON_parse text with
  | None | Some JNull => ParseFailed
  | Some json =>
      if truthyValue (getProperty (js "blocks") json) then Imported json
      else InvalidFormat
  end.

(* ===================================================================== *)
(** ** Publishing, and opening a link *)
(* ===================================================================== *)

(** [s.startsWith(pat)] *)
Definition startsWith (pat s : jsstring) : bool :=
  match strip_prefix pat s with
  | Some _ => true
  | None => false
  end.

(** The fragment of [publishLink], the address the builder offers for
    copying: what [window.location.hash] is on the page the link opens (the
    characters of base64 are kept as they are in a fragment). *)
Definition publishHash (data : json) : jsstring :=
  js "#data=" ++ encodeState data.

(** The text [handleDownloadFile] hands to [downloadFile]. *)
Definition handleDownloadFile (data : json) : jsstring := stringify data.

(** The state of [Answer] after its effect at mount: worksheet and error
    message, both [null] before. *)
Record Loaded := mkLoaded {
  loaded_data : option json;
  loaded_error : option jsstring
}.

Definition Answer_load (hash : jsstring) : Loaded :=
  if startsWith (js "#data=") hash
  then let decoded := decodeState hash in
       if truthyValue (Some decoded) then mkLoaded (Some decoded) None
       else if Nat.ltb 6 (length hash)
            then mkLoaded None (Some (js "Invalid worksheet link."))
            else mkLoaded None None
  else mkLoaded None None.

(** The effect at mount of the builder: the worksheet it switches to, in
    preview mode, or [None] when it stays where it is. *)
Definition Builder_load (hash : jsstring) : option json :=
  if startsWith (js "#data=") hash
  then let decoded := decodeState hash in
       if truthyValue (Some decoded) then Some decoded else None
  else None.

(* ===================================================================== *)
(** ** Worksheets as JavaScript values *)
(* ===================================================================== *)

(** The object a typed worksheet is at run time.  A property holding
    [undefined] is left out, as [JSON.stringify] leaves it out. *)

Definition optField (k : string) (o : option json) : list (jsstring * json) :=
  match o with
  | Some v => [(js k, v)]
  | None => []
  end.

Definition stringsToJS (l : list jsstring) : json := JArray (map JString l).

Definition nullableToJS (o : option jsstring) : json :=
  match o with
  | Some s => JString s
  | None => JNull
  end.

Definition qTypeName (q : QuestionType) : jsstring :=
  match q with
  | MultipleChoice => js "multiple-choice"
  | OpenAnswer => js "open-answer"
  | ClozeText => js "cloze-text"
  | ClozeDropdown => js "cloze-dropdown"
  | DragInline => js "drag-inline"
  end.

Definition questionToJS (id : jsstring) (q : QuestionFields) : json :=
  JObject
    ([(js "id", JString id); (js "type", JString (js "question"))]
       ++ optField "qType" (option_map (fun t => JString (qTypeName t)) (qType q))
       ++ [(js "prompt", JString (prompt q))]
       ++ optField "listItems" (option_map stringsToJS (listItems q))
       ++ optField "options" (option_map stringsToJS (options q))
       ++ optField "image" (option_map nullableToJS (image q))
       ++ optField "description" (option_map nullableToJS (description q))
       ++ optField "multiSelect" (option_map JBool (multiSelect q))
       ++ optField "correctAnswer"
            (option_map (fun a => match a with
                                  | inl s => JString s
                                  | inr l => stringsToJS l
                                  end) (correctAnswer q))).

Fixpoint blockToJS (b : Block) : json :=
  match b with
  | TextBlock i c =>
      JObject [(js "id", JString i); (js "type", JString (js "text"));
               (js "content", JString c)]
  | DividerBlock i =>
      JObject [(js "id", JString i); (js "type", JString (js "divider"))]
  | EmbedBlock i u t =>
      JObject ([(js "id", JString i); (js "type", JString (js "embed"));
                (js "url", JString u)]
                 ++ optField "title" (option_map JString t))
  | QuestionBlock i q => questionToJS i q
  | GroupBlock i t ch =>
      JObject ([(js "id", JString i); (js "type", JString (js "group"))]
                 ++ optField "title" (option_map JString t)
                 ++ [(js "children", JArray (map blockToJS ch))])
  end.

Definition designToJS (d : DesignSettings) : json :=
  JObject [(js "accentColor", JString (accentColor d));
           (js "font", JString (font d))].

Definition worksheetToJS (x : WorksheetData) : json :=
  JObject ([(js "title", JString (title x));
            (js "description", JString (description_ x));
            (js "blocks", JArray (map blockToJS (blocks x)))]
             ++ optField "design" (option_map designToJS (design x))).

(** *** The strings [btoa] can encode *)

Definition latin1 (s : jsstring) : bool := forallb (fun c => c <? 256)%N s.

Definition latin1_opt (o : option jsstring) : bool :=
  match o with Some s => latin1 s | None => true end.

Definition latin1_list (l : list jsstring) : bool := forallb latin1 l.

Definition latin1_question (q : QuestionFields) : bool :=
  latin1 (prompt q)
  && match listItems q with Some l => latin1_list l | None => true end
  && match image q with Some o => latin1_opt o | None => true end
  && match description q with Some o => latin1_opt o | None => true end
  && match options q with Some l => latin1_list l | None => true end
  && match correctAnswer q with
     | Some (inl s) => latin1 s
     | Some (inr l) => latin1_list l
     | None => true
     end.

Fixpoint latin1_block (b : Block) : bool :=
  match b with
  | TextBlock i c => latin1 i && latin1 c
  | DividerBlock i => latin1 i
  | EmbedBlock i u t => latin1 i && latin1 u && latin1_opt t
  | QuestionBlock i q => latin1 i && latin1_question q
  | GroupBlock i t ch => latin1 i && latin1_opt t && forallb latin1_block ch
  end.

(** Every string of the worksheet has code units up to [0xFF] only. *)
Definition latin1_worksheet (x : WorksheetData) : bool :=
  latin1 (title x) && latin1 (description_ x)
  && forallb latin1_block (blocks x)
  && match design x with
     | Some d => latin1 (accentColor d) && latin1 (font d)
     | None => true
     end.

Fixpoint distinct_keys (ks : list jsstring) : bool :=
  match ks with
  | [] => true
  | k :: ks' => negb (existsb (streq k) ks') && distinct_keys ks'
  end.

(** The values the codec carries unchanged: no number, every string and
    key within [0xFF], and in every object distinct keys none of which
    is an array index. *)
Fixpoint codec_safe (v : json) : bool :=
  match v with
  | JNull | JBool _ => true
  | JNumber _ => false
  | JString s => latin1 s
  | JArray l => forallb codec_safe l
  | JObject ps =>
      distinct_keys (map fst ps)
      && forallb (fun kv => latin1 (fst kv)
                            && match arrayIndex (fst kv) with
                               | None => true
                               | Some _ => false
                               end
                            && codec_safe (snd kv)) ps
  end.

(** The first property of a list, if there is one, is not named [k]. *)
Definition head_not (k : string) (ps : list (jsstring * json)) : Prop :=
  match ps with
  | [] => True
  | (k', _) :: _ => k' <> js k
  end.

(** A key the codec carries: within [0xFF], and no array index. *)
Definition key_ok (k : jsstring) : bool :=
  latin1 k && match arrayIndex k with None => true | Some _ => false end.

(** A bound on the depth of the calls of the parser on the text of a
    value. *)
Fixpoint weight (v : json) : nat :=
  match v with
  | JArray l => S (list_sum (map (fun x => S (weight x)) l))
  | JObject ps => S (list_sum (map (fun kv => S (weight (snd kv))) ps))
  | _ => 1
  end.

(** A value that the parser reads back from its text, whatever follows. *)
Definition parses_back (x : json) : Prop :=
  codec_safe x = true
  /\ forall fuel rest, weight x <= fuel ->
                       parseValue fuel (stringify x ++ rest) = Some (x, rest).

(* ===================================================================== *)
(** ** Specification vocabulary for the tree *)
(* ===================================================================== *)

(** A block list of the tree is addressed by the indices of the groups to
    go through from the root: [[]] is the root list, [[i]] the children of
    the [i]-th root block, and so on. *)
Fixpoint list_at (path : list nat) (t : list Block) : option (list Block) :=
  match path with
  | [] => Some t
  | i :: path' =>
      match nth_error t i with
      | Some (GroupBlock _ _ ch) => list_at path' ch
      | _ => None
      end
  end.

(** The tree with [f] applied to the list at [path], and nothing else
    touched. *)
Fixpoint modify_at (path : list nat) (f : list Block -> list Block)
  (t : list Block) : list Block :=
  match path with
  | [] => f t
  | i :: path' =>
      match nth_error t i with
      | Some (GroupBlock gi gt ch) =>
          firstn i t ++ GroupBlock gi gt (modify_at path' f ch) :: skipn (S i) t
      | _ => t
      end
  end.

(** [l] with its [i]-th element replaced by [x]. *)
Definition replace_nth (i : nat) (x : Block) (l : list Block) : list Block :=
  firstn i l ++ x :: skipn (S i) l.

(** [l] with [x] put right after its [i]-th element. *)
Definition insert_after (i : nat) (x : Block) (l : list Block) : list Block :=
  firstn (S i) l ++ x :: skipn (S i) l.

(** A block with every id of its subtree blanked: what is left are the
    shape and all the fields that are not ids. *)
Fixpoint erase_ids (b : Block) : Block :=
  match b with
  | TextBlock _ c => TextBlock [] c
  | DividerBlock _ => DividerBlock []
  | EmbedBlock _ u t => EmbedBlock [] u t
  | QuestionBlock _ q => QuestionBlock [] q
  | GroupBlock _ t ch => GroupBlock [] t (map erase_ids ch)
  end.

(** No group of the forest has the id [p]. *)
Definition no_group_with (p : jsstring) (t : list Block) : Prop :=
  forall g, In g (nodes t) -> is_group g = true -> block_id g <> p.

(** No call of [generateId] from now on returns an id of the tree. *)
Definition fresh_for (s : IdSupply) (t : list Block) : Prop :=
  forall n, drawn s <= n -> ~ In (draw s n) (ids t).

(** No group of the subtree of [b] has a divider among its children. *)
Fixpoint dividers_outside_groups_in (b : Block) : bool :=
  match b with
  | GroupBlock _ _ ch =>
      forallb (fun c => negb (is_divider c) && dividers_outside_groups_in c) ch
  | _ => true
  end.

Definition dividers_outside_groups (t : list Block) : bool :=
  forallb dividers_outside_groups_in t.

(** What the children of a group have to be: no divider among them, and
    the same below. *)
Definition divider_free (t : list Block) : bool :=
  forallb (fun c => negb (is_divider c) && dividers_outside_groups_in c) t.

(** The block a drag item stands for is a divider: a page break dragged
    from the palette, or a divider of the tree. *)
Definition drags_divider (item : DragItem) (prev : WorksheetData) : bool :=
  match item_type item with
  | ItemNewBlock =>
      match item_payload item with
      | Some payload =>
          match payload_type payload with TyDivider => true | _ => false end
      | None => false
      end
  | ItemBlock =>
      match item_id item with
      | Some id => match findBlock (blocks prev) id with
                   | Some found => is_divider found
                   | None => false
                   end
      | None => false
      end
  end.

(** The deepest nesting of a group: [0] without groups, [1] when every
    group is at the root, [2] with a group inside a root group, ... *)
Fixpoint group_depth_of (b : Block) : nat :=
  match b with
  | GroupBlock _ _ ch => S (fold_right Nat.max 0 (map group_depth_of ch))
  | _ => 0
  end.

Definition group_depth (t : list Block) : nat :=
  fold_right Nat.max 0 (map group_depth_of t).

(** A segment list that alternates runs without a divider and single
    dividers; [run] says which of the two comes first. *)
Fixpoint alternating (run : bool) (segs : list (list Block)) : bool :=
  match segs with
  | [] => true
  | seg :: segs' =>
      (if run then forallb (fun b => negb (is_divider b)) seg
       else match seg with
            | [b] => is_divider b
            | _ => false
            end)
      && alternating (negb run) segs'
  end.

(* ===================================================================== *)
(** ** The editor as a transition system *)
(* ===================================================================== *)

Record Editor := mkEditor {
  data : WorksheetData;
  supply : IdSupply
}.

Definition run (m : Gen WorksheetData) (e : Editor) : Editor :=
  let (d, s) := m (supply e) in mkEditor d s.

(** What an input of the block editor passes to [updateBlock]: the block
    spread with one field of its own changed, [{...block, field: value}];
    id, type and children stay. *)
Definition fieldEdit (b newData : Block) : Prop :=
  block_id newData = block_id b
  /\ block_type newData = block_type b
  /\ block_children newData = block_children b.

(** The state [Builder] starts from. *)
Definition initialData : WorksheetData :=
  mkWorksheet (js "Untitled Worksheet") (js "Fill out the questions below.")
    [] (Some (mkDesign (js "#6366f1") (js "sans"))).

(** The blocks that are rendered by an [EditorBlockWrapper], the only
    place [updateBlock] and [duplicateBlock] are called from: the top-level
    blocks other than dividers (a top-level divider is rendered as a page
    break, with a remove button only) and every block below them. *)
Definition wrapped (t : list Block) : list Block :=
  nodes (filter (fun b => negb (is_divider b)) t).

(** One user action on the builder. *)
Inductive step : Editor -> Editor -> Prop :=
| step_add : forall e type qType,
    step e (run (addBlock type qType (data e)) e)
| step_update : forall e b newData,
    In b (wrapped (blocks (data e))) ->
    fieldEdit b newData ->
    step e (mkEditor (updateBlock (block_id b) newData (data e)) (supply e))
| step_remove : forall e id,
    step e (mkEditor (removeBlock id (data e)) (supply e))
| step_duplicate : forall e b,
    In b (wrapped (blocks (data e))) ->
    step e (run (duplicateBlock b (data e)) e)
| step_drop : forall e item targetId targetParentId targetIndex,
    step e (run (handleDragDrop item targetId targetParentId targetIndex (data e)) e)
| step_clear : forall e,
    step e (mkEditor (with_blocks (data e) []) (supply e))
| step_header : forall e t d,
    step e (mkEditor (mkWorksheet t d (blocks (data e)) (design (data e)))
              (supply e)).

(** The states the builder reaches from a new worksheet. *)
Inductive reachable : Editor -> Prop :=
| reachable_init : forall s, reachable (mkEditor initialData s)
| reachable_step : forall e e', reachable e -> step e e' -> reachable e'.

(** The generator never returns the same id twice. *)
Definition supply_injective (s : IdSupply) : Prop :=
  forall n m, draw s n = draw s m -> n = m.

(** Every id of the tree is one the generator has returned. *)
Definition ids_drawn (e : Editor) : Prop :=
  forall x, In x (ids (blocks (data e))) ->
            exists n, n < drawn (supply e) /\ x = draw (supply e) n.

(* ===================================================================== *)
(** ** Drop zones of the pages of [QuestionBoard.tsx] *)
(* ===================================================================== *)

(** [segments.slice(0, n).reduce((acc, s) => acc + s.length, 0)] *)
Definition lengthBefore (segs : list (list Block)) (n : nat) : Z :=
  fold_left (fun acc s => (acc + Z.of_nat (length s))%Z) (firstn n segs) 0%Z.

(** [onDrop] of the area of a page, the segment at [segIdx].  The pointer
    is in the upper half when [clientY - rect.top < rect.height / 2], which
    for whole pixels is the comparison of the doubles below. *)
Definition onDropPage (segs : list (list Block)) (segIdx : nat)
  (segment : list Block) (e : Pointer) : DropCall :=
  let segmentStartIndex := lengthBefore segs segIdx in
  let isTop := (2 * (clientY e - rect_top e) <? rect_bottom e - rect_top e)%Z in
  match nth_error segment (length segment - 1) with
  | Some lastBlock =>
      if isTop then mkDropCall None None (Some segmentStartIndex)
      else mkDropCall (Some (block_id lastBlock)) None None
  | None => mkDropCall None None (Some segmentStartIndex)
  end.

(** [onDrop] of the zone under a page, "Drop here to append to page". *)
Definition onDropAppend (segs : list (list Block)) (segIdx : nat) : DropCall :=
  mkDropCall None None (Some (lengthBefore segs (S segIdx))).

(** [onDrop] of the zone under a page break, "Drop to start new page". *)
Definition onDropPageBreak (blocks : list Block) (divider : Block) : DropCall :=
  let globalIndex := findIndex blocks (block_id divider) in
  mkDropCall None None (Some (globalIndex + 1)%Z).

(** The drag data of a palette button. *)
Definition paletteItem (payload : Payload) : DragItem :=
  mkDragItem None None None ItemNewBlock (Some payload).

(** The blocks after [handleDragDrop] has served a call of a drop zone. *)
Definition dropped (item : DragItem) (call : DropCall) (prev : WorksheetData)
  (s : IdSupply) : list Block :=
  blocks (fst (handleDragDrop item (call_targetId call) (call_targetParentId call)
                 (call_targetIndex call) prev s)).

(* ===================================================================== *)
(** ** Numbering of questions and groups *)
(* ===================================================================== *)

(** The object [roman] of [toRoman], in the order of its keys. *)
Definition roman : list (jsstring * N) :=
  [(js "m", 1000); (js "cm", 900); (js "d", 500); (js "cd", 400);
   (js "c", 100); (js "xc", 90); (js "l", 50); (js "xl", 40);
   (js "x", 10); (js "ix", 9); (js "v", 5); (js "iv", 4); (js "i", 1)]%N.

(** [i.repeat(q)] *)
Definition repeat_string (i : jsstring) (q : N) : jsstring :=
  concat (repeat i (N.to_nat q)).

(** An array holds fewer than [2^32] elements, so no count of blocks goes
    beyond this. *)
Definition maxCount : N := 4294967296.

(** [toRoman(num)] for a whole number [0 <= num <= maxCount]; the callers
    pass a count of blocks.  In that range the doubles of the code are
    exact: the floor of the quotient of the doubles is the quotient of the
    whole numbers, [num - q * value] is a whole number below [2^53], and
    [i.repeat(q)] stays far below the longest string.  Beyond it the
    quotient is rounded and [repeat] throws a [RangeError]; the model does
    not follow the code there, and the properties below stay within
    [maxCount]. *)
Definition toRoman (num : N) : jsstring :=
  snd (fold_left
         (fun (state : N * jsstring) (entry : jsstring * N) =>
            let (num, str) := state in
            let (i, value) := entry in
            let q := (num / value)%N in
            ((num - q * value)%N, str ++ repeat_string i q))
         roman (num, [])).

(** The decimal digits of a whole number, as a template literal writes it. *)
Definition decimal (n : N) : jsstring :=
  js (NilZero.string_of_uint (N.to_uint n)).

(** [getNumbering(depth, index)], for whole numbers [depth] and
    [index < maxCount]: the callers pass a nesting depth and a count of
    blocks less one.  In that range [index + 1] and [97 + index] are exact
    on doubles and the template literal writes the decimal digits; from
    [2^53] on the code rounds [index + 1], which the model does not follow. *)
Definition getNumbering (depth index : N) : jsstring :=
  (if depth =? 0 then decimal (index + 1) ++ js "."
   else if depth =? 1 then [(97 + index) mod 65536] ++ js "."
   else toRoman (index + 1) ++ js ".")%N.

(** [c.type === 'question' || c.type === 'group'] *)
Definition isNumbered (b : Block) : bool :=
  match block_type b with
  | TyQuestion | TyGroup => true
  | _ => false
  end.

(** The label of the child at [childIdx] of a group rendered at [depth]:
    [None] where the code gives [undefined] or the empty string. *)
Definition childLabel (depth : N) (children : list Block) (childIdx : nat)
  (child : Block) : option jsstring :=
  let relevantChildren := filter isNumbered (firstn (childIdx + 1) children) in
  if isNumbered child
  then Some (getNumbering (depth + 1) (N.of_nat (length relevantChildren) - 1))
  else None.

(** The labels of the children of a group, as its [children.map] goes
    through them. *)
Definition childLabels (depth : N) (children : list Block)
  : list (option jsstring) :=
  map (fun ic => childLabel depth children (fst ic) (snd ic))
    (combine (seq 0 (length children)) children).



(** What a Roman numeral in lower case stands for. *)
Definition romanDigit (c : N) : N :=
  if c == "m" then 1000
  else if c == "d" then 500
  else if c == "c" then 100
  else if c == "l" then 50
  else if c == "x" then 10
  else if c == "v" then 5
  else if c == "i" then 1
  else 0.

Fixpoint romanValue (s : jsstring) : N :=
  match s with
  | [] => 0
  | c :: r =>
      match r with
      | d :: _ => if (romanDigit c <? romanDigit d)%N
                  then (romanValue r - romanDigit c)%N
                  else (romanDigit c + romanValue r)%N
      | [] => romanDigit c
      end
  end.

(* ===================================================================== *)
(** ** Sample worksheets *)
(* ===================================================================== *)

Definition sampleText (i : string) : Block := TextBlock (js i) (js "text").

Definition sampleGroup (i : string) (ch : list Block) : Block :=
  GroupBlock (js i) (Some (js "New Group")) ch.

Definition sampleQuestion (i : string) : Block :=
  QuestionBlock (js i)
    (mkQuestion (Some OpenAnswer) (js "Type your answer below")
       None None None None None None).

Definition sampleSheet (bs : list Block) : WorksheetData :=
  mkWorksheet (js "Untitled Worksheet") (js "Fill out the questions below.")
    bs None.

(** A supply that numbers its ids: [n0], [n1], ... *)
Definition numbered : IdSupply :=
  mkSupply (fun n => code "n" :: [N.of_nat n + 48]%N) 0.

(** A text, then a group of two texts, the second of which is followed by
    a nested group with one question. *)
Definition sampleTree : list Block :=
  [ sampleText "t1";
    sampleGroup "g1"
      [ sampleText "a"; sampleText "b"; sampleGroup "g2" [sampleQuestion "q"] ] ].

(** A forest in which two blocks share the id [a]. *)
Definition clashingTree : list Block :=
  [ sampleGroup "a" [sampleText "b"]; sampleText "a" ].

(** A new worksheet, then a group and a page break added from the
    palette. *)
Definition afterGroupAndBreak : Editor :=
  run (addBlock TyDivider None
         (data (run (addBlock TyGroup None initialData)
                  (mkEditor initialData numbered))))
    (run (addBlock TyGroup None initialData) (mkEditor initialData numbered)).

(** The drag data of an existing block.  ([index] and [parentId] are in the
    data as well; the drop handler of [QuestionBoard.tsx] does not read
    them.) *)
Definition blockItem (id : string) (index : Z) (parentId : option jsstring)
  : DragItem :=
  mkDragItem (Some (js id)) (Some index) parentId ItemBlock None.

(** A [handleDrop] call made by a drop zone, as an action of the builder. *)
Definition dropWith (item : DragItem) (call : DropCall) (e : Editor) : Editor :=
  run (handleDragDrop item (call_targetId call) (call_targetParentId call)
         (call_targetIndex call) (data e)) e.

(** The pointer in the top twenty pixels of a wrapper. *)
Definition pointerTop : Pointer := mkPointer 105 100 160.

Definition newGroup (i : string) (ch : list Block) : Block :=
  GroupBlock (js i) (Some (js "New Group")) ch.

Definition newQuestion (i : string) : Block :=
  QuestionBlock (js i)
    (mkQuestion (Some OpenAnswer) (js "Type your answer below")
       None None None None None None).

(** Three groups and a question added from the palette: [n0], [n1], [n2]
    (the question), [n3]. *)
Definition fourBlocks : Editor :=
  let e0 := mkEditor initialData numbered in
  let e1 := run (addBlock TyGroup None (data e0)) e0 in
  let e2 := run (addBlock TyGroup None (data e1)) e1 in
  let e3 := run (addBlock TyQuestion (Some OpenAnswer) (data e2)) e2 in
  run (addBlock TyGroup None (data e3)) e3.

(** The question is dropped into the zone inside the group [n1]. *)
Definition questionInGroup : Editor :=
  match onDropInside (newGroup "n1" []) 0 true (Some TyQuestion) with
  | Some call => dropWith (blockItem "n2" 2 None) call fourBlocks
  | None => fourBlocks
  end.

(** The group [n1] is dropped into the zone inside the group [n0]. *)
Definition groupInGroup : Editor :=
  match onDropInside (newGroup "n0" []) 0 true (Some TyGroup) with
  | Some call => dropWith (blockItem "n1" 1 None) call questionInGroup
  | None => questionInGroup
  end.

(** The group [n3] is dropped on the top edge of the question, whose
    wrapper is at depth 2, in the list of [n1]. *)
Definition groupAtDepthTwo : Editor :=
  dropWith (blockItem "n3" 1 None)
    (onDrop (newQuestion "n2") 0 (Some (js "n1")) 2 pointerTop)
    groupInGroup.

(** Three texts at the root. *)
Definition threeTexts : list Block :=
  [sampleText "A"; sampleText "B"; sampleText "C"].

(** Two pages: a text and a question, a page break, a text. *)
Definition twoPages : list Block :=
  [sampleText "A"; sampleQuestion "B"; DividerBlock (js "d"); sampleText "C"].

Definition questionPayload : Payload := mkPayload TyQuestion (Some OpenAnswer).

(* ===================================================================== *)
(** * Properties of the document tree *)
(* ===================================================================== *)

Lemma streq_refl (a : jsstring) : streq a a = true.
Proof.
  induction a as [|x a IH]; simpl; [reflexivity|].
  now rewrite N.eqb_refl, IH.
Qed.

Lemma streq_true_iff (a b : jsstring) : streq a b = true <-> a = b.
Proof.
  split; [|intros ->; apply streq_refl].
  revert b; induction a as [|x a IH]; intros [|y b]; simpl; try discriminate.
  - reflexivity.
  - intros H. apply andb_true_iff in H as [Hx Hab].
    apply N.eqb_eq in Hx. now rewrite Hx, (IH b Hab).
Qed.

Lemma streq_false_iff (a b : jsstring) : streq a b = false <-> a <> b.
Proof.
  rewrite <- streq_true_iff. destruct (streq a b); split; congruence.
Qed.

Lemma streq_sym (a b : jsstring) : streq a b = streq b a.
Proof.
  destruct (streq a b) eqn:E.
  - apply streq_true_iff in E. subst. now rewrite streq_refl.
  - symmetry. apply streq_false_iff. apply streq_false_iff in E. congruence.
Qed.

(** Induction on forests: a property of the empty forest that passes from
    the children of a block and from the blocks after it to the whole. *)
Lemma forest_ind (P : list Block -> Prop) :
  P [] ->
  (forall b rest, P (block_children b) -> P rest -> P (b :: rest)) ->
  forall t, P t.
Proof.
  intros Hnil Hcons.
  assert (Hb : forall b rest, P rest -> P (b :: rest)).
  { induction b as [i c|i|i u t|i q|i t ch IH] using Block_ind; intros rest Hrest;
      try (apply Hcons; [exact Hnil | exact Hrest]).
    apply Hcons; [|exact Hrest]. simpl.
    induction IH as [|c ch Hc _ IHch]; [exact Hnil|].
    apply Hc, IHch. }
  induction t as [|b rest IH]; [exact Hnil | apply Hb, IH].
Qed.

Lemma nodes_of_eq (b : Block) : nodes_of b = b :: nodes (block_children b).
Proof. destruct b; reflexivity. Qed.

Lemma nodes_cons (b : Block) (rest : list Block) :
  nodes (b :: rest) = b :: nodes (block_children b) ++ nodes rest.
Proof. unfold nodes at 1. simpl. now rewrite nodes_of_eq. Qed.

Lemma nodes_app (t1 t2 : list Block) : nodes (t1 ++ t2) = nodes t1 ++ nodes t2.
Proof. apply flat_map_app. Qed.

Lemma ids_cons (b : Block) (rest : list Block) :
  ids (b :: rest) = block_id b :: ids (block_children b) ++ ids rest.
Proof. unfold ids. rewrite nodes_cons. simpl. now rewrite map_app. Qed.

Lemma ids_app (t1 t2 : list Block) : ids (t1 ++ t2) = ids t1 ++ ids t2.
Proof. unfold ids. now rewrite nodes_app, map_app. Qed.

Lemma count_blocks_cons (b : Block) (rest : list Block) :
  count_blocks (b :: rest)
  = S (count_blocks (block_children b) + count_blocks rest).
Proof. unfold count_blocks. rewrite nodes_cons. simpl. now rewrite length_app. Qed.

Lemma count_blocks_app (t1 t2 : list Block) :
  count_blocks (t1 ++ t2) = count_blocks t1 + count_blocks t2.
Proof. unfold count_blocks. now rewrite nodes_app, length_app. Qed.

Lemma count_blocks_ids (t : list Block) : count_blocks t = length (ids t).
Proof. unfold count_blocks, ids. now rewrite length_map. Qed.

Lemma in_nodes_ids (b : Block) (t : list Block) :
  In b (nodes t) -> In (block_id b) (ids t).
Proof. intros H. unfold ids. now apply in_map. Qed.

(** A block of the tree brings its whole subtree with it. *)
Lemma nodes_subtree (t : list Block) :
  forall g, In g (nodes t) -> incl (nodes (block_children g)) (nodes t).
Proof.
  induction t as [|b rest IHch IHrest] using forest_ind; intros g Hg.
  - destruct Hg.
  - rewrite nodes_cons in *. destruct Hg as [<-|Hg].
    + intros x Hx. right. apply in_or_app. now left.
    + apply in_app_or in Hg as [Hg|Hg].
      * intros x Hx. right. apply in_or_app. left. exact (IHch g Hg x Hx).
      * intros x Hx. right. apply in_or_app. right. exact (IHrest g Hg x Hx).
Qed.

(** *** [removeBlockRecursive] *)

Lemma removeNode_group (id i : jsstring) (t : option jsstring) (ch : list Block) :
  removeNode id (GroupBlock i t ch) = GroupBlock i t (removeBlockRecursive ch id).
Proof.
  simpl. f_equal. unfold removeBlockRecursive.
  induction ch as [|c ch IH]; simpl; [reflexivity|].
  destruct (negb (streq (block_id c) id)); simpl; now rewrite IH.
Qed.

Lemma removeNode_id (id : jsstring) (b : Block) :
  block_id (removeNode id b) = block_id b.
Proof. destruct b; reflexivity. Qed.

Lemma removeNode_children (id : jsstring) (b : Block) :
  block_children (removeNode id b) = removeBlockRecursive (block_children b) id.
Proof.
  destruct b; try reflexivity.
  now rewrite removeNode_group.
Qed.

Lemma removeBlockRecursive_cons (b : Block) (rest : list Block) (id : jsstring) :
  removeBlockRecursive (b :: rest) id
  = if streq (block_id b) id then removeBlockRecursive rest id
    else removeNode id b :: removeBlockRecursive rest id.
Proof.
  unfold removeBlockRecursive. simpl.
  now destruct (streq (block_id b) id).
Qed.

Lemma removeBlockRecursive_app (l1 l2 : list Block) (id : jsstring) :
  removeBlockRecursive (l1 ++ l2) id
  = removeBlockRecursive l1 id ++ removeBlockRecursive l2 id.
Proof.
  induction l1 as [|b l1 IH]; [reflexivity|].
  cbn [app]. rewrite !removeBlockRecursive_cons, IH.
  now destruct (streq (block_id b) id).
Qed.

Lemma removeNode_leaf (id : jsstring) (b : Block) :
  block_children b = [] -> removeNode id b = b.
Proof.
  destruct b; try reflexivity. simpl. now intros ->.
Qed.

(** Removing an id the forest does not hold changes nothing. *)
Lemma remove_absent (id : jsstring) (t : list Block) :
  ~ In id (ids t) -> removeBlockRecursive t id = t.
Proof.
  induction t as [|b rest IHch IHrest] using forest_ind; intros Hid.
  - reflexivity.
  - rewrite ids_cons in Hid. rewrite removeBlockRecursive_cons.
    destruct (streq (block_id b) id) eqn:E.
    + apply streq_true_iff in E. exfalso. apply Hid. now left.
    + rewrite IHrest by (intros H; apply Hid; right; apply in_or_app; now right).
      f_equal. destruct b; try reflexivity.
      rewrite removeNode_group. simpl in *. f_equal.
      apply IHch. intros H. apply Hid. right. apply in_or_app. now left.
Qed.

(** After the removal the id is nowhere in the forest. *)
Lemma remove_gone (id : jsstring) (t : list Block) :
  ~ In id (ids (removeBlockRecursive t id)).
Proof.
  induction t as [|b rest IHch IHrest] using forest_ind.
  - intros [].
  - rewrite removeBlockRecursive_cons.
    destruct (streq (block_id b) id) eqn:E; [exact IHrest|].
    rewrite ids_cons, removeNode_id, removeNode_children.
    intros [H|H].
    + apply streq_false_iff in E. now apply E.
    + apply in_app_or in H as [H|H]; [now apply IHch | now apply IHrest].
Qed.

(** The removal brings no id in. *)
Lemma remove_ids_incl (id : jsstring) (t : list Block) :
  incl (ids (removeBlockRecursive t id)) (ids t).
Proof.
  induction t as [|b rest IHch IHrest] using forest_ind.
  - intros x [].
  - rewrite removeBlockRecursive_cons, ids_cons.
    destruct (streq (block_id b) id) eqn:E.
    + intros x Hx. right. apply in_or_app. right. now apply IHrest.
    + rewrite ids_cons, removeNode_id, removeNode_children.
      intros x [Hx|Hx]; [now left|]. right.
      apply in_app_or in Hx as [Hx|Hx]; apply in_or_app;
        [left; now apply IHch | right; now apply IHrest].
Qed.

(** With unique ids, the removal of a block of the tree cuts exactly the
    ids of its subtree out of the id sequence. *)
Lemma remove_cuts_subtree (t : list Block) :
  forall g, unique_ids t -> In g (nodes t) ->
  exists l1 l2,
    ids t = l1 ++ ids [g] ++ l2
    /\ ids (removeBlockRecursive t (block_id g)) = l1 ++ l2.
Proof.
  unfold unique_ids.
  induction t as [|b rest IHch IHrest] using forest_ind; intros g Hnd Hg.
  - destruct Hg.
  - rewrite nodes_cons in Hg. rewrite ids_cons in Hnd.
    rewrite removeBlockRecursive_cons.
    assert (Hnd' := Hnd). apply NoDup_cons_iff in Hnd' as [Hb Hnd'].
    assert (Hch := NoDup_app_remove_r _ _ Hnd').
    assert (Hrs := NoDup_app_remove_l _ _ Hnd').
    destruct Hg as [<-|Hg].
    + rewrite streq_refl. exists [], (ids rest). split.
      * rewrite !ids_cons. simpl. now rewrite app_nil_r.
      * simpl. f_equal. apply remove_absent.
        intros H. apply Hb. apply in_or_app. now right.
    + assert (Hne : streq (block_id b) (block_id g) = false).
      { apply streq_false_iff. intros E. apply Hb. rewrite E.
        apply in_app_or in Hg as [Hg|Hg]; apply in_or_app;
          [left|right]; now apply in_nodes_ids. }
      rewrite Hne, (ids_cons b), (ids_cons (removeNode _ _)),
        removeNode_id, removeNode_children.
      apply in_app_or in Hg as [Hg|Hg].
      * destruct (IHch g Hch Hg) as (l1 & l2 & E1 & E2).
        exists (block_id b :: l1), (l2 ++ ids rest). split.
        -- rewrite E1. simpl. now rewrite <- !app_assoc.
        -- rewrite E2. rewrite (remove_absent (block_id g) rest).
           ++ simpl. now rewrite <- app_assoc.
           ++ intros H. apply in_nodes_ids in Hg.
              revert Hnd' Hg H. clear. intros Hnd' Hg H.
              induction (ids (block_children b)) as [|x l IH]; [destruct Hg|].
              simpl in Hnd'. apply NoDup_cons_iff in Hnd' as [Hx Hnd'].
              destruct Hg as [->|Hg]; [|now apply IH].
              apply Hx. apply in_or_app. now right.
      * destruct (IHrest g Hrs Hg) as (l1 & l2 & E1 & E2).
        exists (block_id b :: ids (block_children b) ++ l1), l2. split.
        -- rewrite E1. simpl. now rewrite <- !app_assoc.
        -- rewrite E2. rewrite (remove_absent (block_id g) (block_children b)).
           ++ simpl. now rewrite <- app_assoc.
           ++ intros H. apply in_nodes_ids in Hg.
              revert Hnd' Hg H. clear. intros Hnd' Hg H.
              induction (ids (block_children b)) as [|x l IH]; [destruct H|].
              simpl in Hnd'. apply NoDup_cons_iff in Hnd' as [Hx Hnd'].
              destruct H as [->|H]; [|now apply IH].
              apply Hx. apply in_or_app. now right.
Qed.

(** *** [findBlock] *)

Lemma findBlockIn_eq (id : jsstring) (b : Block) :
  findBlockIn id b
  = if streq (block_id b) id then Some b else findBlock (block_children b) id.
Proof. destruct b; simpl; destruct (streq _ id); reflexivity. Qed.

Lemma findBlock_cons (b : Block) (rest : list Block) (id : jsstring) :
  findBlock (b :: rest) id
  = if streq (block_id b) id then Some b
    else match findBlock (block_children b) id with
         | Some r => Some r
         | None => findBlock rest id
         end.
Proof.
  unfold findBlock at 1. simpl. rewrite findBlockIn_eq.
  now destruct (streq (block_id b) id).
Qed.

Lemma findBlock_some (t : list Block) (id : jsstring) :
  forall b, findBlock t id = Some b -> In b (nodes t) /\ block_id b = id.
Proof.
  induction t as [|c rest IHch IHrest] using forest_ind; intros b H.
  - discriminate.
  - rewrite findBlock_cons in H. rewrite nodes_cons.
    destruct (streq (block_id c) id) eqn:E.
    + injection H as <-. apply streq_true_iff in E. split; [now left | exact E].
    + destruct (findBlock (block_children c) id) as [r|] eqn:F.
      * injection H as <-. destruct (IHch r eq_refl) as [Hin Hid].
        split; [right; apply in_or_app; now left | exact Hid].
      * destruct (IHrest b H) as [Hin Hid].
        split; [right; apply in_or_app; now right | exact Hid].
Qed.

Lemma findBlock_none_iff (t : list Block) (id : jsstring) :
  findBlock t id = None <-> ~ In id (ids t).
Proof.
  induction t as [|c rest IHch IHrest] using forest_ind.
  - split; [intros _ [] | reflexivity].
  - rewrite findBlock_cons, ids_cons.
    destruct (streq (block_id c) id) eqn:E.
    + apply streq_true_iff in E. split; [discriminate|].
      intros H. exfalso. apply H. now left.
    + apply streq_false_iff in E.
      destruct (findBlock (block_children c) id) as [r|] eqn:F.
      * split; [discriminate|]. intros H. exfalso.
        assert (Hn : ~ In id (ids (block_children c))).
        { intros Hin. apply H. right. apply in_or_app. now left. }
        apply IHch in Hn. discriminate.
      * rewrite IHrest. split.
        -- intros H [Hc|Hc]; [now apply E|].
           apply in_app_or in Hc as [Hc|Hc]; [|now apply H].
           now apply (proj1 IHch eq_refl).
        -- intros H Hin. apply H. right. apply in_or_app. now right.
Qed.

(** *** Positions in the tree *)

Lemma nth_error_split_at {A : Type} (l : list A) (i : nat) (x : A) :
  nth_error l i = Some x ->
  exists l1 l2, l = l1 ++ x :: l2 /\ length l1 = i
                /\ firstn i l = l1 /\ skipn (S i) l = l2.
Proof.
  intros H. destruct (nth_error_split l i H) as (l1 & l2 & -> & Hlen).
  exists l1, l2. repeat split; try assumption.
  - rewrite <- Hlen. rewrite firstn_app, Nat.sub_diag, firstn_all. simpl.
    apply app_nil_r.
  - rewrite <- Hlen. rewrite skipn_app.
    replace (S (length l1) - length l1) with 1 by lia.
    rewrite skipn_all2 by lia. reflexivity.
Qed.

Lemma ids_middle (l1 l2 : list Block) (x : Block) :
  ids (l1 ++ x :: l2) = ids l1 ++ ids [x] ++ ids l2.
Proof.
  rewrite ids_app. f_equal. rewrite (ids_cons x l2), (ids_cons x []).
  simpl. now rewrite app_nil_r.
Qed.

Lemma ids_single_group (i : jsstring) (t : option jsstring) (ch : list Block) :
  ids [GroupBlock i t ch] = i :: ids ch.
Proof. rewrite ids_cons. simpl. now rewrite app_nil_r. Qed.

Lemma NoDup_app_disjoint {A : Type} (l1 l2 : list A) :
  NoDup (l1 ++ l2) -> forall x, In x l1 -> ~ In x l2.
Proof.
  induction l1 as [|a l1 IH]; intros H x Hx; [destruct Hx|].
  simpl in H. apply NoDup_cons_iff in H as [Ha H].
  destruct Hx as [->|Hx]; [|now apply IH].
  intros Hin. apply Ha. apply in_or_app. now right.
Qed.

(** In a forest with unique ids, an id of one root subtree is in no
    other. *)
Lemma unique_ids_middle (l1 l2 : list Block) (x : Block) (id : jsstring) :
  unique_ids (l1 ++ x :: l2) -> In id (ids [x]) ->
  ~ In id (ids l1) /\ ~ In id (ids l2) /\ unique_ids [x].
Proof.
  unfold unique_ids. rewrite ids_middle. intros H Hx.
  assert (H2 := NoDup_app_remove_l _ _ H).
  repeat split.
  - intros Hin. apply (NoDup_app_disjoint _ _ H id Hin).
    apply in_or_app. now left.
  - apply (NoDup_app_disjoint _ _ H2 id Hx).
  - apply (NoDup_app_remove_r _ _ H2).
Qed.

Lemma unique_ids_group (i : jsstring) (t : option jsstring) (ch : list Block)
  (id : jsstring) :
  unique_ids [GroupBlock i t ch] -> In id (ids ch) -> i <> id /\ unique_ids ch.
Proof.
  unfold unique_ids. rewrite ids_single_group. intros H Hin.
  apply NoDup_cons_iff in H as [Hi H]. split; [|exact H].
  intros ->. now apply Hi.
Qed.

Lemma list_at_nodes (path : list nat) :
  forall t l i b, list_at path t = Some l -> nth_error l i = Some b ->
                  In b (nodes t).
Proof.
  induction path as [|j path IH]; intros t l i b Hl Hb; simpl in Hl.
  - injection Hl as ->. apply nth_error_In in Hb.
    unfold nodes. apply in_flat_map. exists b. split; [exact Hb|].
    rewrite nodes_of_eq. now left.
  - destruct (nth_error t j) as [[| | | |gi gt ch]|] eqn:E; try discriminate.
    assert (Hin := IH ch l i b Hl Hb).
    apply nth_error_In in E.
    unfold nodes. apply in_flat_map. exists (GroupBlock gi gt ch).
    split; [exact E|]. rewrite nodes_of_eq. right. exact Hin.
Qed.

(** Every block of the tree has a position. *)
Lemma nodes_have_paths (t : list Block) :
  forall b, In b (nodes t) ->
  exists path l i, list_at path t = Some l /\ nth_error l i = Some b.
Proof.
  induction t as [|c rest IHch IHrest] using forest_ind; intros b Hb.
  - destruct Hb.
  - rewrite nodes_cons in Hb. destruct Hb as [<-|Hb].
    + exists [], (c :: rest), 0. now split.
    + apply in_app_or in Hb as [Hb|Hb].
      * destruct c as [| | | |gi gt ch]; try destruct Hb.
        destruct (IHch b Hb) as (path & l & i & Hl & Hi).
        exists (0 :: path), l, i. now split.
      * destruct (IHrest b Hb) as ([|j path] & l & i & Hl & Hi).
        -- injection Hl as <-. exists [], (c :: rest), (S i). now split.
        -- exists (S j :: path), l, i. now split.
Qed.

(** *** [updateRecursive] *)

Lemma updateNode_eq (id : jsstring) (newData b : Block) :
  updateNode id newData b
  = if streq (block_id b) id then newData
    else match b with
         | GroupBlock i t ch => GroupBlock i t (updateRecursive id newData ch)
         | _ => b
         end.
Proof. destruct b; reflexivity. Qed.

Lemma update_absent (id : jsstring) (newData : Block) (t : list Block) :
  ~ In id (ids t) -> updateRecursive id newData t = t.
Proof.
  induction t as [|b rest IHch IHrest] using forest_ind; intros Hid.
  - reflexivity.
  - rewrite ids_cons in Hid. unfold updateRecursive in *. simpl.
    rewrite IHrest by (intros H; apply Hid; right; apply in_or_app; now right).
    f_equal. rewrite updateNode_eq.
    destruct (streq (block_id b) id) eqn:E.
    + apply streq_true_iff in E. exfalso. apply Hid. now left.
    + destruct b; try reflexivity. simpl in *. f_equal.
      apply IHch. intros H. apply Hid. right. apply in_or_app. now left.
Qed.

Lemma update_at_path (newData : Block) (path : list nat) :
  forall t l i b,
    unique_ids t -> list_at path t = Some l -> nth_error l i = Some b ->
    updateRecursive (block_id b) newData t
    = modify_at path (replace_nth i newData) t.
Proof.
  induction path as [|j path IH]; intros t l i b Hu Hl Hb; simpl in Hl.
  - injection Hl as ->. simpl.
    destruct (nth_error_split_at _ _ _ Hb) as (l1 & l2 & -> & Hlen & Hf & Hs).
    unfold replace_nth. rewrite Hf, Hs.
    assert (Hin : In (block_id b) (ids [b])) by (rewrite ids_cons; now left).
    destruct (unique_ids_middle _ _ _ _ Hu Hin) as (H1 & H2 & _).
    unfold updateRecursive. rewrite map_app. cbn [map].
    fold (updateRecursive (block_id b) newData l1).
    fold (updateRecursive (block_id b) newData l2).
    rewrite (update_absent _ _ _ H1), (update_absent _ _ _ H2).
    now rewrite updateNode_eq, streq_refl.
  - destruct (nth_error t j) as [[| | | |gi gt ch]|] eqn:E; try discriminate.
    cbn [modify_at]. rewrite E.
    assert (Hbn := list_at_nodes _ _ _ _ _ Hl Hb).
    apply in_nodes_ids in Hbn.
    destruct (nth_error_split_at _ _ _ E) as (l1 & l2 & -> & Hlen & Hf & Hs).
    rewrite Hf, Hs.
    assert (Hin : In (block_id b) (ids [GroupBlock gi gt ch])).
    { rewrite ids_single_group. now right. }
    destruct (unique_ids_middle _ _ _ _ Hu Hin) as (H1 & H2 & Hg).
    destruct (unique_ids_group _ _ _ _ Hg Hbn) as [Hne Hch].
    unfold updateRecursive. rewrite map_app. cbn [map].
    fold (updateRecursive (block_id b) newData l1).
    fold (updateRecursive (block_id b) newData l2).
    rewrite (update_absent _ _ _ H1), (update_absent _ _ _ H2).
    rewrite updateNode_eq. cbn [block_id].
    apply streq_false_iff in Hne. rewrite Hne.
    now rewrite (IH ch l i b Hch Hl Hb).
Qed.

(** *** [findIndex] and [splice] *)

Lemma in_root_ids (x : Block) (l : list Block) :
  In x l -> In (block_id x) (ids l).
Proof.
  intros H. apply in_nodes_ids. unfold nodes. apply in_flat_map.
  exists x. split; [exact H|]. rewrite nodes_of_eq. now left.
Qed.

Lemma findIndex_lower (l : list Block) (id : jsstring) :
  (-1 <= findIndex l id)%Z.
Proof.
  induction l as [|b l IH]; simpl; [lia|].
  destruct (streq (block_id b) id); [lia|].
  destruct (findIndex l id =? -1)%Z eqn:E; lia.
Qed.

Lemma findIndex_absent (l : list Block) (id : jsstring) :
  (forall x, In x l -> block_id x <> id) -> findIndex l id = (-1)%Z.
Proof.
  induction l as [|b l IH]; intros H; simpl; [reflexivity|].
  assert (Hb : streq (block_id b) id = false).
  { apply streq_false_iff. apply H. now left. }
  rewrite Hb, IH; [reflexivity|].
  intros x Hx. apply H. now right.
Qed.

Lemma findIndex_first (l1 l2 : list Block) (b : Block) :
  (forall x, In x l1 -> block_id x <> block_id b) ->
  findIndex (l1 ++ b :: l2) (block_id b) = Z.of_nat (length l1).
Proof.
  induction l1 as [|a l1 IH]; intros H.
  - simpl. now rewrite streq_refl.
  - cbn [app findIndex length].
    assert (Ha : streq (block_id a) (block_id b) = false).
    { apply streq_false_iff. apply H. now left. }
    rewrite Ha, IH by (intros x Hx; apply H; now right).
    destruct (Z.of_nat (length l1) =? -1)%Z eqn:E; lia.
Qed.

Lemma splice_insert_after {A : Type} (i : nat) (x : A) (l : list A) :
  i < length l ->
  splice_insert (Z.of_nat i + 1) x l = firstn (S i) l ++ x :: skipn (S i) l.
Proof.
  intros H. unfold splice_insert.
  destruct (Z.of_nat i + 1 <? 0)%Z eqn:E; [lia|].
  replace (Z.to_nat (Z.min (Z.of_nat i + 1) (Z.of_nat (length l)))) with (S i)
    by lia.
  reflexivity.
Qed.

Lemma splice_insert_clamped {A : Type} (index : Z) (x : A) (l : list A) :
  exists k, k <= length l
            /\ splice_insert (safeIndex index (length l)) x l
               = firstn k l ++ x :: skipn k l.
Proof.
  unfold splice_insert, safeIndex.
  set (c := Z.max 0 (Z.min index (Z.of_nat (length l)))).
  assert (Hc : (0 <= c <= Z.of_nat (length l))%Z) by (unfold c; lia).
  destruct (c <? 0)%Z eqn:E; [lia|].
  exists (Z.to_nat (Z.min c (Z.of_nat (length l)))). split; [lia | reflexivity].
Qed.

(** *** [insertAfterRecursive] *)

Lemma insertAfterNode_eq (id : jsstring) (newBlock b : Block) :
  insertAfterNode id newBlock b
  = match b with
    | GroupBlock i t ch => GroupBlock i t (insertAfterRecursive id newBlock ch)
    | _ => b
    end.
Proof. destruct b; reflexivity. Qed.

Lemma insertAfter_miss (id : jsstring) (newBlock : Block) (t : list Block) :
  findIndex t id = (-1)%Z ->
  insertAfterRecursive id newBlock t = map (insertAfterNode id newBlock) t.
Proof. unfold insertAfterRecursive. now intros ->. Qed.

Lemma insertAfter_hit (id : jsstring) (newBlock : Block) (t : list Block)
  (i : nat) :
  findIndex t id = Z.of_nat i ->
  insertAfterRecursive id newBlock t = splice_insert (Z.of_nat i + 1) newBlock t.
Proof.
  unfold insertAfterRecursive. intros ->. cbv zeta.
  destruct (Z.of_nat i =? -1)%Z eqn:E; [|reflexivity].
  apply Z.eqb_eq in E. lia.
Qed.

Lemma findIndex_absent_ids (l : list Block) (id : jsstring) :
  ~ In id (ids l) -> findIndex l id = (-1)%Z.
Proof.
  intros H. apply findIndex_absent. intros x Hx E. apply H. rewrite <- E.
  now apply in_root_ids.
Qed.

Lemma insertAfter_absent (id : jsstring) (newBlock : Block) (t : list Block) :
  ~ In id (ids t) -> insertAfterRecursive id newBlock t = t.
Proof.
  induction t as [|b rest IHch IHrest] using forest_ind; intros Hid.
  - reflexivity.
  - rewrite insertAfter_miss by now apply findIndex_absent_ids.
    rewrite ids_cons in Hid.
    assert (Hrest : ~ In id (ids rest)).
    { intros H. apply Hid. right. apply in_or_app. now right. }
    assert (E := IHrest Hrest).
    rewrite insertAfter_miss in E by now apply findIndex_absent_ids.
    cbn [map]. rewrite E. f_equal.
    rewrite insertAfterNode_eq. destruct b; try reflexivity.
    f_equal. apply IHch. simpl. intros H. apply Hid. right.
    apply in_or_app. now left.
Qed.

Lemma insertAfter_at_path (newBlock : Block) (path : list nat) :
  forall t l i b,
    unique_ids t -> list_at path t = Some l -> nth_error l i = Some b ->
    insertAfterRecursive (block_id b) newBlock t
    = modify_at path (insert_after i newBlock) t.
Proof.
  induction path as [|j path IH]; intros t l i b Hu Hl Hb; simpl in Hl.
  - injection Hl as Hl. subst l. cbn [modify_at].
    assert (Hlt : i < length t) by (apply nth_error_Some; congruence).
    destruct (nth_error_split_at _ _ _ Hb) as (l1 & l2 & E & Hlen & _ & _).
    assert (Hin : In (block_id b) (ids [b])) by (rewrite ids_cons; now left).
    rewrite E in Hu.
    destruct (unique_ids_middle _ _ _ _ Hu Hin) as (H1 & _ & _).
    rewrite (insertAfter_hit _ _ _ i).
    + now apply splice_insert_after.
    + rewrite E, findIndex_first, Hlen; [reflexivity|].
      intros x Hx Ex. apply H1. rewrite <- Ex. now apply in_root_ids.
  - destruct (nth_error t j) as [[| | | |gi gt ch]|] eqn:E; try discriminate.
    cbn [modify_at]. rewrite E.
    assert (Hbn := list_at_nodes _ _ _ _ _ Hl Hb).
    apply in_nodes_ids in Hbn.
    destruct (nth_error_split_at _ _ _ E) as (l1 & l2 & -> & Hlen & Hf & Hs).
    rewrite Hf, Hs.
    assert (Hin : In (block_id b) (ids [GroupBlock gi gt ch])).
    { rewrite ids_single_group. now right. }
    destruct (unique_ids_middle _ _ _ _ Hu Hin) as (H1 & H2 & Hg).
    destruct (unique_ids_group _ _ _ _ Hg Hbn) as [Hne Hch].
    rewrite insertAfter_miss.
    2:{ apply findIndex_absent. intros x Hx Ex.
        apply in_app_or in Hx as [Hx|[<-|Hx]].
        - apply H1. rewrite <- Ex. now apply in_root_ids.
        - now apply Hne.
        - apply H2. rewrite <- Ex. now apply in_root_ids. }
    rewrite map_app. cbn [map].
    assert (M1 := insertAfter_absent _ newBlock _ H1).
    assert (M2 := insertAfter_absent _ newBlock _ H2).
    rewrite insertAfter_miss in M1 by now apply findIndex_absent_ids.
    rewrite insertAfter_miss in M2 by now apply findIndex_absent_ids.
    rewrite M1, M2, insertAfterNode_eq.
    now rewrite (IH ch l i b Hch Hl Hb).
Qed.

(** *** [duplicateBlockHelper] *)

Lemma mapGen_app {A B : Type} (f : A -> Gen B) (l : list A) (s : IdSupply) :
  forall x, mapGen f (x :: l) s
            = (let (y, s1) := f x s in
               let (ys, s2) := mapGen f l s1 in (y :: ys, s2)).
Proof.
  intros x. cbn [mapGen]. unfold bind, ret.
  destruct (f x s) as [y s1]. now destruct (mapGen f l s1).
Qed.

Lemma duplicateBlockHelper_eq (b : Block) (s : IdSupply) :
  duplicateBlockHelper b s
  = (let s1 := mkSupply (draw s) (S (drawn s)) in
     match b with
     | GroupBlock _ t ch =>
         let (ch', s2) := mapGen duplicateBlockHelper ch s1 in
         (GroupBlock (draw s (drawn s)) t ch', s2)
     | TextBlock _ c => (TextBlock (draw s (drawn s)) c, s1)
     | DividerBlock _ => (DividerBlock (draw s (drawn s)), s1)
     | EmbedBlock _ u t => (EmbedBlock (draw s (drawn s)) u t, s1)
     | QuestionBlock _ q => (QuestionBlock (draw s (drawn s)) q, s1)
     end).
Proof.
  destruct b; reflexivity.
Qed.

(** The copy of a forest: same shape and fields, and the ids are the next
    draws of the supply, one per block, in document order. *)
Lemma duplicate_forest (t : list Block) :
  forall s,
    let (t', s') := mapGen duplicateBlockHelper t s in
    map erase_ids t' = map erase_ids t
    /\ ids t' = map (draw s) (seq (drawn s) (count_blocks t))
    /\ s' = mkSupply (draw s) (drawn s + count_blocks t).
Proof.
  induction t as [|b rest IHch IHrest] using forest_ind; intros s.
  - simpl. unfold ret. repeat split. destruct s; simpl. now rewrite Nat.add_0_r.
  - rewrite mapGen_app, duplicateBlockHelper_eq. cbv zeta.
    rewrite count_blocks_cons.
    set (s1 := mkSupply (draw s) (S (drawn s))).
    assert (Hch := IHch s1).
    destruct b as [i c|i|i u ti|i q|i ti ch]; cbn [block_children] in *.
    1-4: specialize (IHrest s1);
         destruct (mapGen duplicateBlockHelper rest s1) as [rest' s2];
         destruct IHrest as (E1 & E2 & E3); subst s1; cbn [draw drawn] in *;
         repeat split;
         [ cbn [map erase_ids]; now rewrite E1
         | rewrite ids_cons; cbn [block_id block_children]; rewrite E2;
           change (count_blocks []) with 0; cbn [Nat.add seq map ids nodes flat_map app];
           reflexivity
         | rewrite E3; change (count_blocks []) with 0; f_equal; lia ].
    destruct (mapGen duplicateBlockHelper ch s1) as [ch' s2].
    destruct Hch as (C1 & C2 & C3).
    specialize (IHrest s2).
    destruct (mapGen duplicateBlockHelper rest s2) as [rest' s3].
    destruct IHrest as (E1 & E2 & E3). subst s2 s1. cbn [draw drawn] in *.
    repeat split.
    + cbn [map erase_ids]. now rewrite E1, C1.
    + rewrite ids_cons. cbn [block_id block_children]. rewrite C2, E2.
      cbn [Nat.add seq map]. f_equal.
      rewrite seq_app, map_app. f_equal.
    + rewrite E3. f_equal. lia.
Qed.

Lemma duplicate_block (b : Block) (s : IdSupply) :
  let (copy, s') := duplicateBlockHelper b s in
  erase_ids copy = erase_ids b
  /\ ids [copy] = map (draw s) (seq (drawn s) (count_blocks [b]))
  /\ s' = mkSupply (draw s) (drawn s + count_blocks [b]).
Proof.
  assert (H := duplicate_forest [b] s).
  rewrite mapGen_app in H. destruct (duplicateBlockHelper b s) as [copy s1].
  cbn [mapGen] in H. unfold ret in H. destruct H as (E1 & E2 & E3).
  repeat split; try assumption. cbn [map] in E1. congruence.
Qed.

(** *** Segmentation *)

Lemma segments_loop_from (bs : list Block) :
  forall segs cur,
    (let (segs', cur') := segments_loop segs cur bs in segs' ++ [cur'])
    = segs ++ segments_from cur bs.
Proof.
  induction bs as [|b bs IH]; intros segs cur; simpl.
  - reflexivity.
  - destruct (is_divider b).
    + rewrite IH. now rewrite <- !app_assoc.
    + apply IH.
Qed.

Lemma segments_eq (bs : list Block) : segments bs = segments_from [] bs.
Proof.
  unfold segments. assert (H := segments_loop_from bs [] []).
  now destruct (segments_loop [] [] bs).
Qed.

Lemma segments_from_length (bs : list Block) :
  forall cur, length (segments_from cur bs) = 2 * dividers bs + 1.
Proof.
  unfold dividers.
  induction bs as [|b bs IH]; intros cur; simpl; [reflexivity|].
  destruct (is_divider b); simpl; rewrite IH; lia.
Qed.

Lemma segments_from_concat (bs : list Block) :
  forall cur, concat (segments_from cur bs) = cur ++ bs.
Proof.
  induction bs as [|b bs IH]; intros cur; simpl.
  - reflexivity.
  - destruct (is_divider b); simpl; rewrite IH; [reflexivity|].
    now rewrite <- app_assoc.
Qed.

Lemma segments_from_alternating (bs : list Block) :
  forall cur,
    forallb (fun b => negb (is_divider b)) cur = true ->
    alternating true (segments_from cur bs) = true.
Proof.
  induction bs as [|b bs IH]; intros cur Hcur; simpl.
  - now rewrite Hcur.
  - destruct (is_divider b) eqn:E.
    + cbn [alternating negb]. rewrite Hcur, E. simpl. now apply IH.
    + apply IH. rewrite forallb_app, Hcur. simpl. now rewrite E.
Qed.

Lemma alternating_nth (segs : list (list Block)) :
  forall run k seg,
    alternating run segs = true -> nth_error segs k = Some seg ->
    if Bool.eqb run (Nat.even k)
    then forallb (fun b => negb (is_divider b)) seg = true
    else exists dv, seg = [dv] /\ is_divider dv = true.
Proof.
  induction segs as [|s segs IH]; intros run k seg Ha Hk.
  - destruct k; discriminate.
  - cbn [alternating] in Ha. apply andb_true_iff in Ha as [Hs Ha].
    destruct k as [|k].
    + injection Hk as <-. destruct run; cbn.
      * exact Hs.
      * destruct s as [|dv [|]]; try discriminate. now exists dv.
    + cbn [nth_error] in Hk. specialize (IH (negb run) k seg Ha Hk).
      rewrite Nat.even_succ, <- Nat.negb_even.
      now destruct run, (Nat.even k).
Qed.

(** C6.  A top-level list with [d] dividers is cut into [2d+1] segments:
    the segments at even positions ([d+1] of them, the first one always
    there) hold no divider, those at odd positions ([d] of them) are one
    divider each, and together they are the list again.  The empty list
    gives one empty segment, a lone divider three entries, and text, divider,
    question one segment each. *)
Theorem segments_interleave :
  forall bs : list Block,
    length (segments bs) = 2 * dividers bs + 1
    /\ (forall k seg,
           nth_error (segments bs) k = Some seg ->
           if Nat.even k
           then forallb (fun b => negb (is_divider b)) seg = true
           else exists dv, seg = [dv] /\ is_divider dv = true)
    /\ concat (segments bs) = bs
    /\ Answer_segments (Some (mkWorksheet [] [] bs None)) = segments bs
    /\ segments [] = [[]]
    /\ (forall i, segments [DividerBlock i] = [[]; [DividerBlock i]; []])
    /\ (forall i c dv j q,
           segments [TextBlock i c; DividerBlock dv; QuestionBlock j q]
           = [[TextBlock i c]; [DividerBlock dv]; [QuestionBlock j q]]).
Proof.
  intros bs. rewrite segments_eq. repeat split.
  - apply segments_from_length.
  - intros k seg Hk.
    assert (H := alternating_nth _ true k seg
                   (segments_from_alternating bs [] eq_refl) Hk).
    now destruct (Nat.even k).
  - apply segments_from_concat.
  - cbn. apply segments_eq.
Qed.

Lemma segments_interleave_witness :
  nth_error (segments (sampleText "t" :: DividerBlock (js "d") :: sampleTree)) 1
  = Some [DividerBlock (js "d")]
  /\ exists dv, [DividerBlock (js "d")] = [dv] /\ is_divider dv = true.
Proof.
  split; [reflexivity|].
  exact (proj1 (proj2 (segments_interleave
                         (sampleText "t" :: DividerBlock (js "d") :: sampleTree)))
           1 [DividerBlock (js "d")] eq_refl).
Defined.

(** *** Removal *)

Lemma count_blocks_single (b : Block) :
  count_blocks [b] = S (count_blocks (block_children b)).
Proof. rewrite count_blocks_cons. change (count_blocks []) with 0. lia. Qed.

Lemma NoDup_middle_out {A : Type} (l1 m l2 : list A) (x : A) :
  NoDup (l1 ++ m ++ l2) -> In x m -> ~ In x (l1 ++ l2).
Proof.
  intros H Hm Hin. apply in_app_or in Hin as [Hin|Hin].
  - apply (NoDup_app_disjoint _ _ H x Hin). apply in_or_app. now left.
  - apply NoDup_app_remove_l in H.
    now apply (NoDup_app_disjoint _ _ H x Hm).
Qed.

Ltac solve_concrete_NoDup :=
  vm_compute;
  repeat (apply NoDup_cons; [intros H; simpl in H; intuition discriminate|]);
  apply NoDup_nil.

(** In a tree with unique ids a removal cuts the block that has the id
    out of the list it sits in, and touches nothing else. *)
Lemma remove_at_path (path : list nat) :
  forall t l i b,
    unique_ids t -> list_at path t = Some l -> nth_error l i = Some b ->
    removeBlockRecursive t (block_id b) = modify_at path (splice_remove i) t.
Proof.
  induction path as [|j path IH]; intros t l i b Hu Hl Hb; simpl in Hl.
  - injection Hl as ->. cbn [modify_at].
    destruct (nth_error_split_at _ _ _ Hb) as (l1 & l2 & E & Hlen & Hf & Hs).
    unfold splice_remove. rewrite Hf, Hs. rewrite E in Hu |- *.
    assert (Hin : In (block_id b) (ids [b])) by (rewrite ids_cons; now left).
    destruct (unique_ids_middle _ _ _ _ Hu Hin) as (H1 & H2 & _).
    rewrite removeBlockRecursive_app, removeBlockRecursive_cons, streq_refl.
    now rewrite (remove_absent _ l1 H1), (remove_absent _ l2 H2).
  - destruct (nth_error t j) as [[| | | |gi gt ch]|] eqn:E; try discriminate.
    cbn [modify_at]. rewrite E.
    assert (Hbn := list_at_nodes _ _ _ _ _ Hl Hb).
    apply in_nodes_ids in Hbn.
    destruct (nth_error_split_at _ _ _ E) as (l1 & l2 & Et & Hlen & Hf & Hs).
    rewrite Hf, Hs. rewrite Et in Hu |- *.
    assert (Hin : In (block_id b) (ids [GroupBlock gi gt ch])).
    { rewrite ids_single_group. now right. }
    destruct (unique_ids_middle _ _ _ _ Hu Hin) as (H1 & H2 & Hg).
    destruct (unique_ids_group _ _ _ _ Hg Hbn) as [Hne Hch].
    rewrite removeBlockRecursive_app, removeBlockRecursive_cons.
    cbn [block_id]. apply streq_false_iff in Hne. rewrite Hne.
    rewrite removeNode_group, (IH ch l i b Hch Hl Hb).
    now rewrite (remove_absent _ l1 H1), (remove_absent _ l2 H2).
Qed.

(** C3, amended.  For every tree: removing an id the tree does not hold
    leaves the worksheet as it is, and after a removal the id is found
    nowhere in the tree.  In a tree with unique ids, removing a group that
    has [N] descendants takes exactly [N+1] blocks out of the tree, and
    afterwards neither the id of the group nor the id of any descendant is
    found in the tree; the removal of a block cuts it, with all that is
    below it, out of the list it sits in and changes nothing else. *)
Theorem remove_group_cascades :
  forall prev : WorksheetData,
    (forall id, ~ In id (ids (blocks prev)) -> removeBlock id prev = prev)
    /\ (forall id, ~ In id (ids (blocks (removeBlock id prev)))
                   /\ findBlock (blocks (removeBlock id prev)) id = None)
    /\ (unique_ids (blocks prev) ->
        (forall i t ch,
            In (GroupBlock i t ch) (nodes (blocks prev)) ->
            count_blocks (blocks (removeBlock i prev)) + (count_blocks ch + 1)
            = count_blocks (blocks prev)
            /\ (forall x, In x (i :: ids ch) ->
                          ~ In x (ids (blocks (removeBlock i prev)))
                          /\ findBlock (blocks (removeBlock i prev)) x = None))
        /\ (forall path l k b,
               list_at path (blocks prev) = Some l ->
               nth_error l k = Some b ->
               removeBlock (block_id b) prev
               = with_blocks prev
                   (modify_at path (splice_remove k) (blocks prev)))).
Proof.
  intros prev. split; [|split].
  - intros id Hid. destruct prev as [ti de bs ds]. unfold removeBlock.
    cbn [title description_ blocks design] in *. now rewrite remove_absent.
  - intros id. cbn [removeBlock blocks]. split.
    + apply remove_gone.
    + apply findBlock_none_iff, remove_gone.
  - intros Hu. split.
    + intros i t ch Hg. cbn [removeBlock blocks].
      destruct (remove_cuts_subtree _ _ Hu Hg) as (l1 & l2 & E1 & E2).
      cbn [block_id] in E2. rewrite ids_single_group in E1.
      repeat split.
      * rewrite !count_blocks_ids, E1, E2. rewrite !length_app. cbn [length].
        rewrite ?length_app. lia.
      * rewrite E2. unfold unique_ids in Hu. rewrite E1 in Hu.
        now apply (NoDup_middle_out _ _ _ x Hu).
      * apply findBlock_none_iff. rewrite E2. unfold unique_ids in Hu.
        rewrite E1 in Hu. now apply (NoDup_middle_out _ _ _ x Hu).
    + intros path l k b Hl Hb. unfold removeBlock, with_blocks. f_equal.
      now apply (remove_at_path _ _ l).
Qed.

Lemma remove_group_cascades_witness :
  unique_ids (blocks (sampleSheet sampleTree))
  /\ In (sampleGroup "g1" [sampleText "a"; sampleText "b";
                          sampleGroup "g2" [sampleQuestion "q"]])
        (nodes (blocks (sampleSheet sampleTree)))
  /\ count_blocks (blocks (removeBlock (js "g1") (sampleSheet sampleTree))) + (4 + 1)
     = count_blocks (blocks (sampleSheet sampleTree))
  /\ ~ In (js "gone") (ids (blocks (sampleSheet sampleTree)))
  /\ removeBlock (js "gone") (sampleSheet sampleTree) = sampleSheet sampleTree.
Proof.
  assert (Hu : unique_ids (blocks (sampleSheet sampleTree))).
  { unfold unique_ids. solve_concrete_NoDup. }
  assert (Hg : In (sampleGroup "g1" [sampleText "a"; sampleText "b";
                                    sampleGroup "g2" [sampleQuestion "q"]])
                  (nodes (blocks (sampleSheet sampleTree)))) by (simpl; auto).
  assert (Hgone : ~ In (js "gone") (ids (blocks (sampleSheet sampleTree)))).
  { vm_compute. intuition discriminate. }
  split; [exact Hu|]. split; [exact Hg|]. split; [|split; [exact Hgone|]].
  - exact (proj1 (proj1 (proj2 (proj2 (remove_group_cascades
                                         (sampleSheet sampleTree))) Hu)
                    _ _ _ Hg)).
  - exact (proj1 (remove_group_cascades (sampleSheet sampleTree)) _ Hgone).
Defined.

(** C3 as stated, for every tree, fails when ids clash: removing the group
    [a] of [clashingTree], which has one descendant, takes three blocks
    out. *)
Lemma remove_without_unique_ids :
  ~ (forall (t : list Block) (i : jsstring) (ti : option jsstring)
            (ch : list Block),
        In (GroupBlock i ti ch) (nodes t) ->
        count_blocks (removeBlockRecursive t i) + (count_blocks ch + 1)
        = count_blocks t).
Proof.
  intros H.
  specialize (H clashingTree (js "a") (Some (js "New Group")) [sampleText "b"]).
  assert (Hin : In (GroupBlock (js "a") (Some (js "New Group")) [sampleText "b"])
                   (nodes clashingTree)) by (simpl; auto).
  specialize (H Hin). vm_compute in H. discriminate.
Qed.

(** C5.  For every tree, an update under an id the tree does not hold
    leaves the worksheet as it is.  In a tree with unique ids, [updateBlock]
    puts [newData] in the place of the block that has the id, in whichever
    list of the tree the block sits, and changes nothing else. *)
Theorem update_replaces_block :
  forall (prev : WorksheetData) (newData : Block),
    (forall id, ~ In id (ids (blocks prev)) ->
                updateBlock id newData prev = prev)
    /\ (unique_ids (blocks prev) ->
        forall (path : list nat) (l : list Block) (i : nat) (b : Block),
          list_at path (blocks prev) = Some l ->
          nth_error l i = Some b ->
          updateBlock (block_id b) newData prev
          = with_blocks prev
              (modify_at path (replace_nth i newData) (blocks prev))).
Proof.
  intros prev newData. split.
  - intros id Hid. destruct prev as [ti de bs ds]. unfold updateBlock.
    cbn [title description_ blocks design] in *. now rewrite update_absent.
  - intros Hu path l i b Hl Hb.
    unfold updateBlock, with_blocks. f_equal. now apply (update_at_path _ _ _ l).
Qed.

Lemma update_replaces_block_witness :
  unique_ids (blocks (sampleSheet sampleTree))
  /\ list_at [1; 2] (blocks (sampleSheet sampleTree)) = Some [sampleQuestion "q"]
  /\ updateBlock (js "q") (sampleText "q") (sampleSheet sampleTree)
     = sampleSheet
         [ sampleText "t1";
           sampleGroup "g1"
             [ sampleText "a"; sampleText "b"; sampleGroup "g2" [sampleText "q"] ] ]
  /\ ~ In (js "gone") (ids (blocks (sampleSheet [])))
  /\ updateBlock (js "gone") (sampleText "gone") (sampleSheet [])
     = sampleSheet [].
Proof.
  assert (Hu : unique_ids (blocks (sampleSheet sampleTree))).
  { unfold unique_ids. solve_concrete_NoDup. }
  assert (Hgone : ~ In (js "gone") (ids (blocks (sampleSheet [])))).
  { intros []. }
  split; [exact Hu|]. split; [reflexivity|]. split; [|split; [exact Hgone|]].
  - exact (proj2 (update_replaces_block (sampleSheet sampleTree) (sampleText "q"))
             Hu [1; 2] [sampleQuestion "q"] 0 (sampleQuestion "q")
             eq_refl eq_refl).
  - exact (proj1 (update_replaces_block (sampleSheet []) (sampleText "gone"))
             _ Hgone).
Defined.

(** *** Duplication *)

Lemma subtree_ids_incl (t : list Block) (b : Block) :
  In b (nodes t) -> incl (ids [b]) (ids t).
Proof.
  intros Hb x Hx. rewrite ids_cons in Hx. cbn [ids nodes flat_map map] in Hx.
  rewrite app_nil_r in Hx. destruct Hx as [<-|Hx].
  - now apply in_nodes_ids.
  - unfold ids in *. apply in_map_iff in Hx as (y & <- & Hy).
    apply in_map. exact (nodes_subtree t b Hb y Hy).
Qed.

(** C4.  In a tree with unique ids, with a supply that returns none of its
    ids, [duplicateBlock] puts the copy of a block of the tree right after
    the block, in the list the block is in, and changes nothing else.  The
    id of the copy is not the id of the block, no id of the copy's subtree
    is an id of the block's subtree (so the descendants differ too), and
    with the ids blanked the copy is the block: all other fields, of the
    block and of every descendant, are equal. *)
Theorem duplicate_inserts_copy :
  forall (prev : WorksheetData) (s : IdSupply) (path : list nat)
         (l : list Block) (i : nat) (b : Block),
    unique_ids (blocks prev) ->
    fresh_for s (blocks prev) ->
    list_at path (blocks prev) = Some l ->
    nth_error l i = Some b ->
    exists (copy : Block) (s' : IdSupply),
      duplicateBlock b prev s
      = (with_blocks prev (modify_at path (insert_after i copy) (blocks prev)), s')
      /\ block_id copy <> block_id b
      /\ (forall x, In x (ids [copy]) -> ~ In x (ids [b]))
      /\ (forall x, In x (ids (block_children copy)) ->
                    ~ In x (ids (block_children b)))
      /\ erase_ids copy = erase_ids b.
Proof.
  intros prev s path l i b Hu Hf Hl Hb.
  assert (Hcopy := duplicate_block b s).
  unfold duplicateBlock, bind, ret.
  destruct (duplicateBlockHelper b s) as [copy s1].
  destruct Hcopy as (He & Hids & Hs).
  assert (Hin := list_at_nodes _ _ _ _ _ Hl Hb).
  assert (Hdisj : forall x, In x (ids [copy]) -> ~ In x (ids [b])).
  { intros x Hx Hxb. rewrite Hids in Hx.
    apply in_map_iff in Hx as (n & <- & Hn). apply in_seq in Hn.
    apply (Hf n); [lia|]. now apply (subtree_ids_incl _ b). }
  exists copy, s1. repeat split.
  - f_equal. f_equal. now apply (insertAfter_at_path _ _ _ l).
  - intros E. apply (Hdisj (block_id copy)).
    + rewrite ids_cons. now left.
    + rewrite E, ids_cons. now left.
  - exact Hdisj.
  - intros x Hx Hxb. apply (Hdisj x).
    + rewrite ids_cons. right. apply in_or_app. now left.
    + rewrite ids_cons. right. apply in_or_app. now left.
  - exact He.
Qed.

Lemma duplicate_inserts_copy_witness :
  unique_ids sampleTree
  /\ fresh_for numbered sampleTree
  /\ exists (copy : Block) (s' : IdSupply),
      duplicateBlock (sampleGroup "g2" [sampleQuestion "q"])
        (sampleSheet sampleTree) numbered
      = (with_blocks (sampleSheet sampleTree)
           (modify_at [1] (insert_after 2 copy) sampleTree), s')
      /\ block_id copy <> js "g2"
      /\ erase_ids copy = erase_ids (sampleGroup "g2" [sampleQuestion "q"]).
Proof.
  assert (Hu : unique_ids sampleTree) by (unfold unique_ids; solve_concrete_NoDup).
  assert (Hf : fresh_for numbered sampleTree).
  { intros n _ H. cbn in H. intuition discriminate. }
  split; [exact Hu|]. split; [exact Hf|].
  destruct (duplicate_inserts_copy (sampleSheet sampleTree) numbered [1]
              [sampleText "a"; sampleText "b"; sampleGroup "g2" [sampleQuestion "q"]]
              2 (sampleGroup "g2" [sampleQuestion "q"]) Hu Hf eq_refl eq_refl)
    as (copy & s' & E & Hid & _ & _ & He).
  exists copy, s'. repeat split; assumption.
Defined.

(** *** A drop into a parent that is not there *)

Lemma count_blocks_remove_le (t : list Block) (id : jsstring) :
  count_blocks (removeBlockRecursive t id) <= count_blocks t.
Proof.
  induction t as [|b rest IHch IHrest] using forest_ind.
  - apply Nat.le_refl.
  - rewrite removeBlockRecursive_cons, count_blocks_cons.
    destruct (streq (block_id b) id); [lia|].
    rewrite count_blocks_cons, removeNode_children. lia.
Qed.

(** The block [findBlock] returns goes, and its subtree with it. *)
Lemma count_blocks_remove_found (t : list Block) (id : jsstring) :
  forall found, findBlock t id = Some found ->
    count_blocks (removeBlockRecursive t id) + count_blocks [found]
    <= count_blocks t.
Proof.
  induction t as [|b rest IHch IHrest] using forest_ind; intros found Hf.
  - discriminate.
  - rewrite findBlock_cons in Hf.
    rewrite removeBlockRecursive_cons, (count_blocks_cons b rest).
    destruct (streq (block_id b) id).
    + injection Hf as Hf. subst found. rewrite count_blocks_single.
      assert (H := count_blocks_remove_le rest id). lia.
    + rewrite (count_blocks_cons (removeNode id b)), removeNode_children.
      assert (H1 := count_blocks_remove_le rest id).
      assert (H2 := count_blocks_remove_le (block_children b) id).
      destruct (findBlock (block_children b) id) as [r|].
      * injection Hf as Hf. subst found. specialize (IHch r eq_refl).
        rewrite count_blocks_single in *. lia.
      * specialize (IHrest found Hf). rewrite count_blocks_single in *. lia.
Qed.

Lemma no_group_with_cons (p : jsstring) (b : Block) (rest : list Block) :
  no_group_with p (b :: rest) ->
  (is_group b = true -> block_id b <> p)
  /\ no_group_with p (block_children b) /\ no_group_with p rest.
Proof.
  unfold no_group_with. intros H. repeat split.
  - apply H. rewrite nodes_cons. now left.
  - intros g Hg. apply H. rewrite nodes_cons. right. apply in_or_app. now left.
  - intros g Hg. apply H. rewrite nodes_cons. right. apply in_or_app. now right.
Qed.

Lemma insertInto_no_group (p : jsstring) (index : Z) (block : Block)
  (t : list Block) :
  no_group_with p t -> map (insertInto p index block) t = t.
Proof.
  induction t as [|b rest IHch IHrest] using forest_ind; intros H.
  - reflexivity.
  - apply no_group_with_cons in H as (Hb & Hch & Hrest).
    cbn [map]. rewrite (IHrest Hrest). f_equal.
    destruct b as [| | | |gi gt ch]; try reflexivity.
    cbn [insertInto]. cbn [block_children block_id is_group] in *.
    specialize (Hb eq_refl). apply streq_false_iff in Hb. rewrite Hb.
    now rewrite (IHch Hch).
Qed.

Lemma remove_no_group (p id : jsstring) (t : list Block) :
  no_group_with p t -> no_group_with p (removeBlockRecursive t id).
Proof.
  induction t as [|b rest IHch IHrest] using forest_ind; intros H.
  - exact H.
  - apply no_group_with_cons in H as (Hb & Hch & Hrest).
    rewrite removeBlockRecursive_cons.
    destruct (streq (block_id b) id); [now apply IHrest|].
    intros g Hg Hgrp. rewrite nodes_cons, removeNode_children in Hg.
    destruct Hg as [<-|Hg].
    + rewrite removeNode_id. apply Hb. now destruct b.
    + apply in_app_or in Hg as [Hg|Hg];
        [now apply (IHch Hch g) | now apply (IHrest Hrest g)].
Qed.

(** C10.  An existing block that is not a divider is dropped with a parent
    id that is supplied (a string that is not empty) but is the id of no
    group of the tree: the block is taken out and never put back.  The new
    tree is the old one with the block removed; its id is no longer found;
    the block and its whole subtree are gone, so the tree has strictly
    fewer blocks and is not the tree before. *)
Theorem drop_into_missing_parent_loses_block :
  forall (prev : WorksheetData) (s : IdSupply) (item : DragItem)
         (id : jsstring) (found : Block)
         (targetId : option jsstring) (p : jsstring) (targetIndex : option Z),
    item_type item = ItemBlock ->
    item_id item = Some id ->
    findBlock (blocks prev) id = Some found ->
    is_divider found = false ->
    p <> [] ->
    no_group_with p (blocks prev) ->
    exists next,
      handleDragDrop item targetId (Some p) targetIndex prev s = (next, s)
      /\ blocks next = removeBlockRecursive (blocks prev) id
      /\ findBlock (blocks next) id = None
      /\ count_blocks (blocks next) + count_blocks [found]
         <= count_blocks (blocks prev)
      /\ count_blocks (blocks next) < count_blocks (blocks prev)
      /\ next <> prev.
Proof.
  intros prev s item id found targetId p targetIndex Hty Hid Hfound Hdiv Hp Hng.
  unfold handleDragDrop. rewrite Hty, Hid, Hfound, Hdiv. cbn [andb].
  unfold insertBlockAt.
  assert (Htr : truthy (Some p) = true) by (destruct p; [congruence | reflexivity]).
  rewrite Htr. cbn [negb].
  rewrite insertInto_no_group by now apply remove_no_group.
  assert (Hcount := count_blocks_remove_found _ _ _ Hfound).
  rewrite count_blocks_single in Hcount.
  eexists. split; [reflexivity|]. cbn [with_blocks blocks].
  repeat split.
  - apply findBlock_none_iff, remove_gone.
  - rewrite count_blocks_single. exact Hcount.
  - lia.
  - intros E. apply (f_equal blocks) in E. cbn [with_blocks blocks] in E.
    rewrite E in Hcount. lia.
Qed.

Lemma drop_into_missing_parent_loses_block_witness :
  findBlock sampleTree (js "g2") = Some (sampleGroup "g2" [sampleQuestion "q"])
  /\ no_group_with (js "gone") sampleTree
  /\ exists next,
      handleDragDrop (mkDragItem (Some (js "g2")) (Some 2%Z) (Some (js "g1"))
                        ItemBlock None)
        None (Some (js "gone")) (Some 0%Z) (sampleSheet sampleTree) numbered
      = (next, numbered)
      /\ blocks next
         = [ sampleText "t1"; sampleGroup "g1" [sampleText "a"; sampleText "b"] ].
Proof.
  assert (Hng : no_group_with (js "gone") sampleTree).
  { intros g Hg _ E. cbn in Hg, E.
    repeat (destruct Hg as [<-|Hg]; [discriminate|]). destruct Hg. }
  split; [reflexivity|]. split; [exact Hng|].
  destruct (drop_into_missing_parent_loses_block (sampleSheet sampleTree) numbered
              (mkDragItem (Some (js "g2")) (Some 2%Z) (Some (js "g1")) ItemBlock None)
              (js "g2") (sampleGroup "g2" [sampleQuestion "q"])
              None (js "gone") (Some 0%Z)
              eq_refl eq_refl eq_refl eq_refl ltac:(discriminate) Hng)
    as (next & E & Hb & _).
  exists next. split; [exact E | exact Hb].
Defined.

(** *** Dividers stay at the root *)

Lemma dividers_outside_groups_in_eq (b : Block) :
  dividers_outside_groups_in b = divider_free (block_children b).
Proof. destruct b; reflexivity. Qed.

Lemma divider_free_cons (b : Block) (rest : list Block) :
  divider_free (b :: rest)
  = negb (is_divider b) && divider_free (block_children b) && divider_free rest.
Proof.
  unfold divider_free at 1. cbn [forallb].
  now rewrite dividers_outside_groups_in_eq.
Qed.

Lemma dividers_outside_groups_cons (b : Block) (rest : list Block) :
  dividers_outside_groups (b :: rest)
  = divider_free (block_children b) && dividers_outside_groups rest.
Proof.
  unfold dividers_outside_groups at 1. cbn [forallb].
  now rewrite dividers_outside_groups_in_eq.
Qed.

Lemma divider_free_outside (t : list Block) :
  divider_free t = true -> dividers_outside_groups t = true.
Proof.
  unfold divider_free, dividers_outside_groups. rewrite !forallb_forall.
  intros H x Hx. specialize (H x Hx). now apply andb_true_iff in H as [_ H].
Qed.

Lemma divider_free_nodes (t : list Block) :
  divider_free t = true ->
  forall x, In x (nodes t) ->
            is_divider x = false /\ divider_free (block_children x) = true.
Proof.
  induction t as [|b rest IHch IHrest] using forest_ind; intros H x Hx.
  - destruct Hx.
  - rewrite divider_free_cons in H.
    apply andb_true_iff in H as [H Hrest]. apply andb_true_iff in H as [Hb Hch].
    rewrite nodes_cons in Hx. destruct Hx as [<-|Hx].
    + split; [now apply negb_true_iff | exact Hch].
    + apply in_app_or in Hx as [Hx|Hx]; [now apply IHch | now apply IHrest].
Qed.

Lemma outside_nodes (t : list Block) :
  dividers_outside_groups t = true ->
  forall x, In x (nodes t) -> divider_free (block_children x) = true.
Proof.
  induction t as [|b rest IHrest]; intros H x Hx.
  - destruct Hx.
  - rewrite dividers_outside_groups_cons in H.
    apply andb_true_iff in H as [Hch Hrest].
    rewrite nodes_cons in Hx. destruct Hx as [<-|Hx]; [exact Hch|].
    apply in_app_or in Hx as [Hx|Hx]; [|now apply IHrest].
    now apply (divider_free_nodes _ Hch).
Qed.

(** Under the invariant, a wrapped block is no divider. *)
Lemma wrapped_not_divider (t : list Block) :
  dividers_outside_groups t = true ->
  forall x, In x (wrapped t) ->
            is_divider x = false /\ divider_free (block_children x) = true.
Proof.
  unfold wrapped.
  induction t as [|b rest IHrest]; intros H x Hx.
  - destruct Hx.
  - rewrite dividers_outside_groups_cons in H.
    apply andb_true_iff in H as [Hch Hrest].
    cbn [filter] in Hx. destruct (is_divider b) eqn:E; cbn [negb] in Hx.
    + now apply IHrest.
    + rewrite nodes_cons in Hx. destruct Hx as [<-|Hx]; [now split|].
      apply in_app_or in Hx as [Hx|Hx]; [|now apply IHrest].
      now apply (divider_free_nodes _ Hch).
Qed.

Lemma divider_free_remove (id : jsstring) (t : list Block) :
  divider_free t = true -> divider_free (removeBlockRecursive t id) = true.
Proof.
  induction t as [|b rest IHch IHrest] using forest_ind; intros H.
  - reflexivity.
  - rewrite divider_free_cons in H.
    apply andb_true_iff in H as [H Hrest]. apply andb_true_iff in H as [Hb Hch].
    rewrite removeBlockRecursive_cons.
    destruct (streq (block_id b) id); [now apply IHrest|].
    rewrite divider_free_cons, removeNode_children, IHch, IHrest by assumption.
    replace (is_divider (removeNode id b)) with (is_divider b) by now destruct b.
    now rewrite Hb.
Qed.

Lemma outside_remove (id : jsstring) (t : list Block) :
  dividers_outside_groups t = true ->
  dividers_outside_groups (removeBlockRecursive t id) = true.
Proof.
  induction t as [|b rest IHrest]; intros H.
  - reflexivity.
  - rewrite dividers_outside_groups_cons in H.
    apply andb_true_iff in H as [Hch Hrest].
    rewrite removeBlockRecursive_cons.
    destruct (streq (block_id b) id); [now apply IHrest|].
    rewrite dividers_outside_groups_cons, removeNode_children.
    now rewrite divider_free_remove, IHrest.
Qed.

Section InsertedBlock.
(** A block that may go anywhere: no divider, and none in its groups. *)
Variable nb : Block.
Hypothesis nb_not_divider : is_divider nb = false.
Hypothesis nb_free : divider_free (block_children nb) = true.

Lemma divider_free_splice (k : nat) (l : list Block) :
  divider_free l = true ->
  divider_free (firstn k l ++ nb :: skipn k l) = true.
Proof.
  intros H. rewrite <- (firstn_skipn k l) in H. unfold divider_free in H |- *.
  rewrite forallb_app in *. apply andb_true_iff in H as [H1 H2].
  rewrite H1. cbn [forallb]. rewrite H2, nb_not_divider.
  now rewrite dividers_outside_groups_in_eq, nb_free.
Qed.

Lemma divider_free_splice_insert (start : Z) (l : list Block) :
  divider_free l = true -> divider_free (splice_insert start nb l) = true.
Proof. intros H. unfold splice_insert. now apply divider_free_splice. Qed.

Lemma divider_free_update (id : jsstring) (t : list Block) :
  divider_free t = true -> divider_free (updateRecursive id nb t) = true.
Proof.
  induction t as [|b rest IHch IHrest] using forest_ind; intros H.
  - reflexivity.
  - rewrite divider_free_cons in H.
    apply andb_true_iff in H as [H Hrest]. apply andb_true_iff in H as [Hb Hch].
    unfold updateRecursive in *. cbn [map].
    rewrite divider_free_cons, (IHrest Hrest), andb_true_r, updateNode_eq.
    destruct (streq (block_id b) id).
    + now rewrite nb_not_divider, nb_free.
    + destruct b; cbn [block_children is_divider] in *;
        try reflexivity; try discriminate.
      now apply IHch.
Qed.

Lemma divider_free_insertAfter (id : jsstring) (t : list Block) :
  divider_free t = true -> divider_free (insertAfterRecursive id nb t) = true.
Proof.
  induction t as [|b rest IHch IHrest] using forest_ind; intros H.
  - unfold insertAfterRecursive. reflexivity.
  - unfold insertAfterRecursive.
    destruct (negb (findIndex (b :: rest) id =? -1)%Z) eqn:E.
    + now apply divider_free_splice_insert.
    + assert (Er : findIndex rest id = (-1)%Z).
      { apply negb_false_iff, Z.eqb_eq in E. cbn [findIndex] in E.
        destruct (streq (block_id b) id); [discriminate|].
        destruct (findIndex rest id =? -1)%Z eqn:E'; [now apply Z.eqb_eq|].
        assert (H' := findIndex_lower rest id). lia. }
      rewrite divider_free_cons in H.
      apply andb_true_iff in H as [H Hrest]. apply andb_true_iff in H as [Hb Hch].
      cbn [map]. rewrite <- (insertAfter_miss id nb rest Er).
      rewrite divider_free_cons, (IHrest Hrest), andb_true_r, insertAfterNode_eq.
      destruct b; cbn [block_children is_divider] in *;
        try reflexivity; try discriminate.
      now apply IHch.
Qed.

Lemma divider_free_insertInto (p : jsstring) (index : Z) (t : list Block) :
  divider_free t = true -> divider_free (map (insertInto p index nb) t) = true.
Proof.
  induction t as [|b rest IHch IHrest] using forest_ind; intros H.
  - reflexivity.
  - rewrite divider_free_cons in H.
    apply andb_true_iff in H as [H Hrest]. apply andb_true_iff in H as [Hb Hch].
    cbn [map]. rewrite divider_free_cons, (IHrest Hrest), andb_true_r.
    destruct b as [| | | |gi gt ch]; cbn [block_children is_divider insertInto] in *;
      try reflexivity; try discriminate.
    destruct (streq gi p); cbn [block_children is_divider negb andb].
    + now apply divider_free_splice_insert.
    + now apply IHch.
Qed.

Lemma outside_update (id : jsstring) (t : list Block) :
  dividers_outside_groups t = true ->
  dividers_outside_groups (updateRecursive id nb t) = true.
Proof.
  induction t as [|b rest IHrest]; intros H.
  - reflexivity.
  - rewrite dividers_outside_groups_cons in H.
    apply andb_true_iff in H as [Hch Hrest].
    unfold updateRecursive in *. cbn [map].
    rewrite dividers_outside_groups_cons, (IHrest Hrest), andb_true_r,
      updateNode_eq.
    destruct (streq (block_id b) id); [exact nb_free|].
    destruct b; cbn [block_children] in *; try reflexivity.
    now apply divider_free_update.
Qed.

Lemma outside_insertAfter (id : jsstring) (t : list Block) :
  dividers_outside_groups t = true ->
  dividers_outside_groups (insertAfterRecursive id nb t) = true.
Proof.
  intros H. unfold insertAfterRecursive.
  destruct (negb (findIndex t id =? -1)%Z).
  - unfold splice_insert, dividers_outside_groups in *.
    rewrite <- (firstn_skipn
                  (Z.to_nat (if (findIndex t id + 1 <? 0)%Z
                             then Z.max (Z.of_nat (length t) + (findIndex t id + 1)) 0
                             else Z.min (findIndex t id + 1) (Z.of_nat (length t)))) t)
      in H.
    rewrite forallb_app in *. apply andb_true_iff in H as [H1 H2].
    cbv zeta. rewrite H1. cbn [forallb].
    now rewrite H2, dividers_outside_groups_in_eq, nb_free.
  - unfold dividers_outside_groups in *. rewrite forallb_forall in *.
    intros x Hx. apply in_map_iff in Hx as (y & <- & Hy).
    specialize (H y Hy). rewrite insertAfterNode_eq.
    rewrite dividers_outside_groups_in_eq in *.
    destruct y; cbn [block_children] in *; try reflexivity.
    now apply divider_free_insertAfter.
Qed.

Lemma outside_insertInto (p : jsstring) (index : Z) (t : list Block) :
  dividers_outside_groups t = true ->
  dividers_outside_groups (map (insertInto p index nb) t) = true.
Proof.
  unfold dividers_outside_groups. rewrite !forallb_forall.
  intros H x Hx. apply in_map_iff in Hx as (y & <- & Hy).
  specialize (H y Hy). rewrite dividers_outside_groups_in_eq in *.
  destruct y as [| | | |gi gt ch]; cbn [block_children insertInto] in *;
    try reflexivity.
  destruct (streq gi p); cbn [block_children].
  - now apply divider_free_splice_insert.
  - now apply divider_free_insertInto.
Qed.
End InsertedBlock.

(** At the root any block may go, provided its own groups are in order. *)
Lemma outside_splice_root (nb : Block) (start : Z) (t : list Block) :
  divider_free (block_children nb) = true ->
  dividers_outside_groups t = true ->
  dividers_outside_groups (splice_insert start nb t) = true.
Proof.
  intros Hnb H. unfold splice_insert, dividers_outside_groups in *.
  set (k := Z.to_nat _). rewrite <- (firstn_skipn k t) in H.
  rewrite forallb_app in *. apply andb_true_iff in H as [H1 H2].
  rewrite H1. cbn [forallb].
  now rewrite H2, dividers_outside_groups_in_eq, Hnb.
Qed.

Lemma outside_insertBlockAt (cur : list Block) (parentId : option jsstring)
  (index : Z) (mb : Block) :
  dividers_outside_groups cur = true ->
  divider_free (block_children mb) = true ->
  is_divider mb && truthy parentId = false ->
  dividers_outside_groups (insertBlockAt cur parentId index mb) = true.
Proof.
  intros Hcur Hmb Hgate. unfold insertBlockAt.
  destruct (truthy parentId) eqn:Et; cbn [negb].
  - destruct parentId as [p|]; [|exact Hcur].
    rewrite andb_true_r in Hgate. now apply outside_insertInto.
  - now apply outside_splice_root.
Qed.

Lemma createBlock_free (type : BlockType) (qType : option QuestionType)
  (s : IdSupply) :
  divider_free (block_children (fst (createBlock type qType s))) = true.
Proof. destruct type; reflexivity. Qed.

Lemma erase_ids_is_divider (b : Block) : is_divider (erase_ids b) = is_divider b.
Proof. destruct b; reflexivity. Qed.

Lemma erase_ids_children (b : Block) :
  block_children (erase_ids b) = map erase_ids (block_children b).
Proof. destruct b; reflexivity. Qed.

Lemma erase_ids_divider_free (t : list Block) :
  divider_free (map erase_ids t) = divider_free t.
Proof.
  induction t as [|b rest IHch IHrest] using forest_ind.
  - reflexivity.
  - cbn [map]. rewrite !divider_free_cons, erase_ids_is_divider,
      erase_ids_children, IHch, IHrest. reflexivity.
Qed.

Lemma fieldEdit_keeps_kind (b newData : Block) :
  fieldEdit b newData ->
  is_divider newData = is_divider b
  /\ block_children newData = block_children b.
Proof.
  intros (_ & Hty & Hch). split; [|exact Hch].
  destruct b, newData; cbn in Hty |- *; congruence.
Qed.

(** Every action of the builder keeps the dividers out of the groups. *)
Lemma step_keeps_dividers_outside (e e' : Editor) :
  step e e' ->
  dividers_outside_groups (blocks (data e)) = true ->
  dividers_outside_groups (blocks (data e')) = true.
Proof.
  intros Hstep Hinv. destruct Hstep as
    [e type qType | e b newData Hb Hedit | e id | e b Hb
    | e item targetId targetParentId targetIndex | e | e t d].
  - unfold run, addBlock, bind, ret.
    assert (Hc := createBlock_free type qType (supply e)).
    destruct (createBlock type qType (supply e)) as [nb s1].
    cbn [data blocks with_blocks fst] in *.
    unfold dividers_outside_groups in *. rewrite forallb_app, Hinv.
    cbn [forallb]. now rewrite dividers_outside_groups_in_eq, Hc.
  - cbn [data updateBlock blocks].
    destruct (wrapped_not_divider _ Hinv b Hb) as [Hd Hf].
    destruct (fieldEdit_keeps_kind _ _ Hedit) as [Ed Ec].
    apply outside_update; [congruence | congruence | exact Hinv].
  - cbn [data removeBlock blocks]. now apply outside_remove.
  - unfold run, duplicateBlock, bind, ret.
    destruct (wrapped_not_divider _ Hinv b Hb) as [Hd Hf].
    assert (Hcopy := duplicate_block b (supply e)).
    destruct (duplicateBlockHelper b (supply e)) as [copy s1].
    destruct Hcopy as (He & _ & _). cbn [data blocks with_blocks].
    apply outside_insertAfter; [| |exact Hinv].
    + now rewrite <- erase_ids_is_divider, He, erase_ids_is_divider.
    + rewrite <- erase_ids_divider_free, <- erase_ids_children, He,
        erase_ids_children, erase_ids_divider_free. exact Hf.
  - unfold run, handleDragDrop.
    destruct (item_type item).
    + destruct (item_id item) as [id|]; [|exact Hinv].
      destruct (findBlock (blocks (data e)) id) as [found|] eqn:Ef; [|exact Hinv].
      unfold ret. cbn [data].
      destruct (is_divider found && truthy targetParentId) eqn:Eg; [exact Hinv|].
      cbn [with_blocks blocks].
      apply outside_insertBlockAt; [now apply outside_remove| |exact Eg].
      apply (outside_nodes _ Hinv). now apply (findBlock_some _ id).
    + destruct (item_payload item) as [payload|]; [|exact Hinv].
      unfold bind, ret.
      assert (Hc := createBlock_free (payload_type payload) (payload_qType payload)
                      (supply e)).
      destruct (createBlock _ _ (supply e)) as [nb s1]. cbn [data fst] in *.
      destruct (is_divider nb && truthy targetParentId) eqn:Eg; [exact Hinv|].
      cbn [with_blocks blocks]. now apply outside_insertBlockAt.
  - reflexivity.
  - exact Hinv.
Qed.

(** C8.  In every state the builder reaches from a new worksheet, no group,
    at any depth, has a divider among its children.  In particular a drop
    of a divider (from the palette or from the tree) with a target parent
    id (a string that is not empty: the id of a group) is rejected: the
    worksheet is returned as it was. *)
Theorem dividers_stay_at_root :
  (forall e : Editor,
      reachable e -> dividers_outside_groups (blocks (data e)) = true)
  /\ (forall (prev : WorksheetData) (s : IdSupply) (item : DragItem)
             (targetId : option jsstring) (p : jsstring)
             (targetIndex : option Z),
         drags_divider item prev = true ->
         p <> [] ->
         fst (handleDragDrop item targetId (Some p) targetIndex prev s) = prev).
Proof.
  split.
  - intros e Hr. induction Hr as [s|e e' _ IH Hstep].
    + reflexivity.
    + exact (step_keeps_dividers_outside _ _ Hstep IH).
  - intros prev s item targetId p targetIndex Hd Hp.
    assert (Htr : truthy (Some p) = true) by (destruct p; [congruence | reflexivity]).
    unfold drags_divider in Hd. unfold handleDragDrop.
    destruct (item_type item).
    + destruct (item_id item) as [id|]; [|discriminate].
      destruct (findBlock (blocks prev) id) as [found|]; [|discriminate].
      unfold ret. cbn [fst]. now rewrite Hd, Htr.
    + destruct (item_payload item) as [[ty q]|]; [|discriminate].
      cbn [payload_type payload_qType] in *.
      destruct ty; try discriminate.
      unfold bind, createBlock, generateId, ret. cbn [fst is_divider].
      now rewrite Htr.
Qed.

Lemma dividers_stay_at_root_witness :
  reachable afterGroupAndBreak
  /\ dividers_outside_groups (blocks (data afterGroupAndBreak)) = true
  /\ drags_divider (mkDragItem (Some (js "n1")) (Some 0%Z) None ItemBlock None)
       (data afterGroupAndBreak) = true
  /\ fst (handleDragDrop (mkDragItem (Some (js "n1")) (Some 0%Z) None ItemBlock None)
            None (Some (js "n0")) (Some 0%Z)
            (data afterGroupAndBreak) (supply afterGroupAndBreak))
     = data afterGroupAndBreak.
Proof.
  assert (Hr : reachable afterGroupAndBreak).
  { unfold afterGroupAndBreak.
    apply (reachable_step
             (run (addBlock TyGroup None initialData)
                (mkEditor initialData numbered))).
    - apply (reachable_step (mkEditor initialData numbered)).
      + apply reachable_init.
      + apply (step_add (mkEditor initialData numbered) TyGroup None).
    - apply (step_add _ TyDivider None). }
  split; [exact Hr|]. split; [exact (proj1 dividers_stay_at_root _ Hr)|].
  split; [reflexivity|].
  apply (proj2 dividers_stay_at_root); [reflexivity | discriminate].
Defined.

(** *** Nesting of groups *)

Lemma dropWith_step (item : DragItem) (call : DropCall) (e : Editor) :
  step e (dropWith item call e).
Proof. apply step_drop. Qed.

(** C9, at the input that breaks it.  Groups [n0], [n1], [n3] and a
    question come from the palette; the question goes into [n1], and [n1]
    into [n0], through the zones inside the groups, both allowed by
    [canDropInGroup].  The wrapper of the question is now at depth 2, and a
    drop of the group [n3] on its top edge calls [handleDrop] with the
    parent [n1]: no check stands in the way, and [n3] ends up in [n1], a
    group inside a group inside a group. *)
Theorem group_lands_at_depth_two :
  reachable groupAtDepthTwo
  /\ blocks (data groupInGroup)
     = [newGroup "n0" [newGroup "n1" [newQuestion "n2"]]; newGroup "n3" []]
  /\ onDrop (newQuestion "n2") 0 (Some (js "n1")) 2 pointerTop
     = mkDropCall None (Some (js "n1")) (Some 0%Z)
  /\ canDropInGroup (Some TyGroup) 1 = false
  /\ blocks (data groupAtDepthTwo)
     = [newGroup "n0" [newGroup "n1" [newGroup "n3" []; newQuestion "n2"]]]
  /\ group_depth (blocks (data groupAtDepthTwo)) = 3.
Proof.
  split.
  - unfold groupAtDepthTwo.
    apply (reachable_step groupInGroup); [|apply dropWith_step].
    change groupInGroup
      with (dropWith (blockItem "n1" 1 None)
              (mkDropCall None (Some (js "n0")) (Some 0%Z)) questionInGroup).
    apply (reachable_step questionInGroup); [|apply dropWith_step].
    change questionInGroup
      with (dropWith (blockItem "n2" 2 None)
              (mkDropCall None (Some (js "n1")) (Some 0%Z)) fourBlocks).
    apply (reachable_step fourBlocks); [|apply dropWith_step].
    unfold fourBlocks. cbv zeta.
    repeat (eapply reachable_step; [|apply step_add]).
    apply reachable_init.
  - repeat split; vm_compute; reflexivity.
Qed.

(** *** The index of a move within one list *)

Lemma findIndex_nth (l1 l2 : list Block) (b : Block) :
  (forall x, In x l1 -> block_id x <> block_id b) ->
  nth_error (l1 ++ b :: l2)
    (Z.to_nat (findIndex (l1 ++ b :: l2) (block_id b))) = Some b.
Proof.
  intros H. rewrite findIndex_first by exact H. rewrite Nat2Z.id.
  rewrite nth_error_app2 by lia. now rewrite Nat.sub_diag.
Qed.

Lemma splice_remove_middle {A : Type} (l1 l2 : list A) (x : A) :
  splice_remove (length l1) (l1 ++ x :: l2) = l1 ++ l2.
Proof.
  unfold splice_remove.
  rewrite firstn_app, Nat.sub_diag, firstn_all, firstn_O, app_nil_r.
  rewrite skipn_app.
  replace (S (length l1) - length l1) with 1 by lia.
  now rewrite skipn_all2 by lia.
Qed.

Lemma firstn_past {A : Type} (l1 l2 : list A) (k : nat) :
  firstn (length l1 + k) (l1 ++ l2) = l1 ++ firstn k l2.
Proof. apply firstn_app_2. Qed.

Lemma skipn_past {A : Type} (l1 l2 : list A) (k : nat) :
  skipn (length l1 + k) (l1 ++ l2) = skipn k l2.
Proof.
  rewrite skipn_app, skipn_all2 by lia.
  now replace (length l1 + k - length l1) with k by lia.
Qed.

(** The older handler of [index.tsx] has the index correction: a root block
    moved down to the nominal index [t] lands just before the block that
    was at [t] when the drag began. *)
Lemma legacy_move_down_root :
  forall (prev : WorksheetData) (s : IdSupply) (item : DragItem)
         (l1 l2 : list Block) (b : Block) (t : nat),
    blocks prev = l1 ++ b :: l2 ->
    (forall x, In x l1 -> block_id x <> block_id b) ->
    item_type item = ItemBlock ->
    item_id item = Some (block_id b) ->
    truthy (item_parentId item) = false ->
    length l1 < t <= length (blocks prev) ->
    Legacy.handleDragDrop item None None (Some (Z.of_nat t)) prev s
    = (Some (with_blocks prev
               (splice_remove (length l1) (firstn t (blocks prev))
                  ++ b :: skipn t (blocks prev))), s).
Proof.
  intros prev s item l1 l2 b t Hl Hfirst Hty Hid Hpar Ht.
  unfold Legacy.handleDragDrop. rewrite Hty, Hpar, Hid. cbn [negb].
  unfold Legacy.findIndexOpt. rewrite Hl.
  rewrite findIndex_nth by exact Hfirst.
  rewrite findIndex_first by exact Hfirst.
  destruct (Z.of_nat (length l1) =? -1)%Z eqn:E; [apply Z.eqb_eq in E; lia|].
  unfold ret. f_equal. unfold Legacy.insertMoving. cbn [truthy negb].
  unfold option_map. f_equal. f_equal.
  unfold Legacy.insertIdx. rewrite Hty, Hpar, E. cbn [negb andb].
  rewrite Hl, length_app in Ht. cbn [length] in Ht.
  destruct (Z.of_nat (length l1) <? Z.of_nat t)%Z eqn:E2;
    [|apply Z.ltb_ge in E2; lia].
  rewrite Nat2Z.id, splice_remove_middle.
  set (k := t - length l1 - 1).
  assert (Et : t = length l1 + S k) by (unfold k; lia).
  unfold splice_insert.
  destruct (Z.of_nat t - 1 <? 0)%Z eqn:E3; [apply Z.ltb_lt in E3; lia|].
  rewrite length_app.
  replace (Z.to_nat (Z.min (Z.of_nat t - 1) (Z.of_nat (length l1 + length l2))))
    with (length l1 + k) by lia.
  rewrite Et, !firstn_past, !skipn_past. cbn [firstn skipn].
  rewrite splice_remove_middle. now rewrite <- app_assoc.
Qed.

(** C7, at the input that breaks it.  The text [A], first of three, is
    dropped on the top edge of [C]: the wrapper of [C] passes the nominal
    index 2.  The handler of [QuestionBoard.tsx] inserts at 2 after the
    removal, with no correction, and [A] lands behind [C]; the older handler
    of [index.tsx] corrects the index and puts [A] before [C]. *)
Theorem move_down_lacks_index_correction :
  onDrop (sampleText "C") 2 None 0 pointerTop = mkDropCall None None (Some 2%Z)
  /\ blocks (fst (handleDragDrop (blockItem "A" 0 None) None None (Some 2%Z)
                    (sampleSheet threeTexts) numbered))
     = [sampleText "B"; sampleText "C"; sampleText "A"]
  /\ fst (Legacy.handleDragDrop (blockItem "A" 0 None) None None (Some 2%Z)
            (sampleSheet threeTexts) numbered)
     = Some (sampleSheet [sampleText "B"; sampleText "A"; sampleText "C"]).
Proof. repeat split; vm_compute; reflexivity. Qed.

(* ===================================================================== *)
(** * Properties of the link codec *)
(* ===================================================================== *)

Ltac Zify.zify_post_hook ::= Z.to_euclidean_division_equations.

(** Induction on a list three elements at a time. *)
Lemma list_ind3 {A : Type} (P : list A -> Prop) :
  P [] -> (forall a, P [a]) -> (forall a b, P [a; b]) ->
  (forall a b c l, P l -> P (a :: b :: c :: l)) ->
  forall l, P l.
Proof.
  intros H0 H1 H2 H3 l.
  assert (H : P l /\ (forall a, P (a :: l)) /\ (forall a b, P (a :: b :: l))).
  { induction l as [|x l (IH0 & IH1 & IH2)]; repeat split; auto. }
  exact (proj1 H).
Qed.

Lemma latin1_cons (c : N) (s : jsstring) :
  latin1 (c :: s) = true <-> (c < 256)%N /\ latin1 s = true.
Proof.
  unfold latin1. cbn [forallb]. rewrite andb_true_iff, N.ltb_lt. reflexivity.
Qed.

Lemma latin1_app (s1 s2 : jsstring) :
  latin1 (s1 ++ s2) = latin1 s1 && latin1 s2.
Proof. apply forallb_app. Qed.

(** *** Base64 *)

(** A decidable property checked on every number below a bound. *)
Lemma checked_below (P : N -> bool) (n : nat) :
  forallb P (map N.of_nat (seq 0 n)) = true ->
  forall v, (v < N.of_nat n)%N -> P v = true.
Proof.
  intros H v Hv. rewrite forallb_forall in H. apply H.
  apply in_map_iff. exists (N.to_nat v). split; [apply N2Nat.id|].
  apply in_seq. lia.
Qed.

Lemma b64val_b64char (v : N) : (v < 64)%N -> b64val (b64char v) = Some v.
Proof.
  intros Hv.
  assert (H := checked_below
                 (fun v => match b64val (b64char v) with
                           | Some w => N.eqb w v
                           | None => false
                           end) 64 eq_refl v Hv).
  cbv beta in H. destruct (b64val (b64char v)) as [w|]; [|discriminate].
  apply N.eqb_eq in H. now subst.
Qed.

(** A character of the alphabet is neither white space nor [=]. *)
Lemma b64char_plain (v : N) :
  is_ascii_whitespace (b64char v) = false /\ (b64char v == "=") = false.
Proof.
  destruct (N.ltb v 64) eqn:E.
  - apply N.ltb_lt in E.
    assert (H := checked_below
                   (fun v => negb (is_ascii_whitespace (b64char v))
                             && negb (b64char v == "=")) 64 eq_refl v E).
    cbv beta in H. apply andb_true_iff in H as [H1 H2].
    now rewrite negb_true_iff in H1, H2.
  - apply N.ltb_ge in E. unfold b64char.
    destruct (v <? 26)%N eqn:E1; [apply N.ltb_lt in E1; lia|].
    destruct (v <? 52)%N eqn:E2; [apply N.ltb_lt in E2; lia|].
    destruct (v <? 62)%N eqn:E3; [apply N.ltb_lt in E3; lia|].
    destruct (v =? 62)%N eqn:E4; [apply N.eqb_eq in E4; lia|].
    split; reflexivity.
Qed.

Lemma sextets_bound (s : jsstring) :
  latin1 s = true -> Forall (fun v => v < 64)%N (sextets s).
Proof.
  induction s as [|a|a b|a b c l IH] using list_ind3; intros H.
  - constructor.
  - apply latin1_cons in H as [Ha _]. cbn [sextets].
    repeat constructor; lia.
  - apply latin1_cons in H as [Ha H]. apply latin1_cons in H as [Hb _].
    cbn [sextets]. repeat constructor; lia.
  - apply latin1_cons in H as [Ha H]. apply latin1_cons in H as [Hb H].
    apply latin1_cons in H as [Hc H]. cbn [sextets].
    repeat (constructor; [lia|]). now apply IH.
Qed.

Lemma octets_sextets (s : jsstring) :
  latin1 s = true -> octets (sextets s) = s.
Proof.
  induction s as [|a|a b|a b c l IH] using list_ind3; intros H.
  - reflexivity.
  - apply latin1_cons in H as [Ha _]. cbn [sextets octets].
    f_equal. lia.
  - apply latin1_cons in H as [Ha H]. apply latin1_cons in H as [Hb _].
    cbn [sextets octets]. f_equal; [lia|]. f_equal. lia.
  - apply latin1_cons in H as [Ha H]. apply latin1_cons in H as [Hb H].
    apply latin1_cons in H as [Hc H]. cbn [sextets octets].
    rewrite (IH H). f_equal; [lia|]. f_equal; [lia|]. f_equal. lia.
Qed.

Lemma mod3_step (n : nat) : Nat.modulo (S (S (S n))) 3 = Nat.modulo n 3.
Proof.
  replace (S (S (S n))) with (n + 1 * 3) by lia. apply Nat.Div0.mod_add.
Qed.

Lemma mod4_step (n : nat) : Nat.modulo (S (S (S (S n)))) 4 = Nat.modulo n 4.
Proof.
  replace (S (S (S (S n)))) with (n + 1 * 4) by lia. apply Nat.Div0.mod_add.
Qed.

Lemma padding_step (a b c : N) (l : jsstring) :
  padding (length (a :: b :: c :: l)) = padding (length l).
Proof. unfold padding. cbn [length]. now rewrite mod3_step. Qed.

(** With its padding the encoding is a multiple of four characters long;
    without it, it is never one more than a multiple of four. *)
Lemma sextets_length (s : jsstring) :
  Nat.modulo (length (sextets s) + length (padding (length s))) 4 = 0
  /\ Nat.modulo (length (sextets s)) 4 <> 1.
Proof.
  induction s as [|a|a b|a b c l IH] using list_ind3.
  - split; [reflexivity | discriminate].
  - split; [reflexivity | discriminate].
  - split; [reflexivity | discriminate].
  - rewrite padding_step. cbn [sextets length Nat.add].
    now rewrite !mod4_step.
Qed.

Lemma b64vals_map (vs : list N) :
  Forall (fun v => v < 64)%N vs -> b64vals (map b64char vs) = Some vs.
Proof.
  induction 1 as [|v vs Hv _ IH]; [reflexivity|].
  cbn [map b64vals]. now rewrite (b64val_b64char v Hv), IH.
Qed.

Lemma filter_whitespace_body (vs : list N) (pad : nat) :
  filter (fun c => negb (is_ascii_whitespace c))
    (map b64char vs ++ padding pad)
  = map b64char vs ++ padding pad.
Proof.
  rewrite filter_app. f_equal.
  - induction vs as [|v vs IH]; [reflexivity|].
    cbn [map filter]. rewrite (proj1 (b64char_plain v)). cbn [negb].
    now rewrite IH.
  - unfold padding. now destruct (Nat.modulo pad 3) as [|[|[|]]].
Qed.

Lemma strip_padding_body (vs : list N) (pad : nat) :
  strip_padding (map b64char vs ++ padding pad) = map b64char vs.
Proof.
  assert (Hlast : forall c r, rev (map b64char vs) = c :: r -> (c == "=") = false).
  { intros c r E. rewrite <- map_rev in E.
    destruct (rev vs) as [|v vs']; [discriminate|].
    injection E as <- _. apply b64char_plain. }
  unfold strip_padding, padding.
  destruct (Nat.modulo pad 3) as [|[|[|]]].
  - rewrite app_nil_r.
    destruct (rev (map b64char vs)) as [|c1 [|c2 r]] eqn:E; [reflexivity| |];
      now rewrite (Hlast _ _ eq_refl).
  - rewrite rev_app_distr. cbn [rev app]. rewrite N.eqb_refl.
    apply rev_involutive.
  - rewrite rev_app_distr. cbn [rev app]. rewrite N.eqb_refl.
    destruct (rev (map b64char vs)) as [|c2 r] eqn:E.
    + apply (f_equal (@rev N)) in E. rewrite rev_involutive in E.
      now rewrite E.
    + rewrite (Hlast _ _ eq_refl). change (rev r ++ [c2]) with (rev (c2 :: r)).
      rewrite <- E. apply rev_involutive.
  - rewrite app_nil_r.
    destruct (rev (map b64char vs)) as [|c1 [|c2 r]] eqn:E; [reflexivity| |];
      now rewrite (Hlast _ _ eq_refl).
Qed.

(** [atob] undoes [btoa]. *)
Lemma atob_btoa (s : jsstring) :
  latin1 s = true ->
  exists b64, btoa s = Some b64 /\ atob b64 = Some s.
Proof.
  intros H. unfold btoa. fold (latin1 s). rewrite H.
  eexists. split; [reflexivity|].
  unfold atob. rewrite filter_whitespace_body.
  destruct (sextets_length s) as [H0 H1].
  rewrite length_app, length_map, H0. cbn [Nat.eqb].
  rewrite strip_padding_body, length_map.
  destruct (Nat.eqb (Nat.modulo (length (sextets s)) 4) 1) eqn:E.
  - apply Nat.eqb_eq in E. contradiction.
  - rewrite b64vals_map by now apply sextets_bound.
    cbn [option_map]. now rewrite octets_sextets.
Qed.

(** *** The prefix marker *)

Lemma strip_prefix_app (pat s : jsstring) : strip_prefix pat (pat ++ s) = Some s.
Proof.
  induction pat as [|p pat IH]; [reflexivity|].
  cbn [app strip_prefix]. now rewrite N.eqb_refl.
Qed.

Lemma replace_prefix (pat rep s : jsstring) :
  replace pat rep (pat ++ s) = rep ++ s.
Proof.
  destruct pat as [|p pat].
  - destruct s; reflexivity.
  - cbn [app replace]. assert (H := strip_prefix_app (p :: pat) s).
    cbn [app] in H. now rewrite H.
Qed.

(** A text without the first character of the pattern has no occurrence
    of it. *)
Lemma replace_absent (p : N) (pat rep s : jsstring) :
  Forall (fun c => c <> p) s -> replace (p :: pat) rep s = s.
Proof.
  induction 1 as [|c s Hc _ IH]; [reflexivity|].
  cbn [replace strip_prefix].
  destruct (N.eqb p c) eqn:E; [apply N.eqb_eq in E; congruence|].
  now rewrite IH.
Qed.

Lemma btoa_no_hash (s b64 : jsstring) :
  btoa s = Some b64 -> Forall (fun c => c <> code "#") b64.
Proof.
  unfold btoa. destruct (forallb _ s); [|discriminate].
  intros E. injection E as <-. apply Forall_app. split.
  - apply Forall_forall. intros c Hc. apply in_map_iff in Hc as (v & <- & _).
    destruct (N.ltb v 64) eqn:Ev.
    + apply N.ltb_lt in Ev.
      assert (H := checked_below (fun v => negb (b64char v == "#")) 64 eq_refl v Ev).
      cbv beta in H. apply negb_true_iff, N.eqb_neq in H. exact H.
    + apply N.ltb_ge in Ev. unfold b64char.
      destruct (v <? 26)%N eqn:E1; [apply N.ltb_lt in E1; lia|].
      destruct (v <? 52)%N eqn:E2; [apply N.ltb_lt in E2; lia|].
      destruct (v <? 62)%N eqn:E3; [apply N.ltb_lt in E3; lia|].
      destruct (v =? 62)%N eqn:E4; [apply N.eqb_eq in E4; lia|].
      discriminate.
  - unfold padding. destruct (Nat.modulo (length s) 3) as [|[|[|]]];
      repeat constructor; discriminate.
Qed.

(** *** String literals *)

Lemma hexval_hexdigit (d : N) : (d < 16)%N -> hexval (hexdigit d) = Some d.
Proof.
  intros Hd.
  assert (H := checked_below
                 (fun d => match hexval (hexdigit d) with
                           | Some w => N.eqb w d
                           | None => false
                           end) 16 eq_refl d Hd).
  cbv beta in H. destruct (hexval (hexdigit d)) as [w|]; [|discriminate].
  apply N.eqb_eq in H. now subst.
Qed.

Lemma parseChars_unicodeEscape (c : N) (r : jsstring) :
  (c < 65536)%N ->
  parseChars (unicodeEscape c ++ r) = consChar c (parseChars r).
Proof.
  intros Hc. unfold unicodeEscape. cbn [app parseChars].
  change (code "\" =? 34)%N with false.
  change (code "\" == "\") with true.
  change (code "u" == "u") with true. cbv iota.
  unfold hex4. rewrite !hexval_hexdigit by lia.
  do 2 f_equal. lia.
Qed.

Lemma parseChars_plain (c : N) (r : jsstring) :
  (32 <= c)%N -> c <> 34%N -> c <> 92%N ->
  parseChars (c :: r) = consChar c (parseChars r).
Proof.
  intros H32 H34 H92. cbn [parseChars].
  destruct (c =? 34)%N eqn:E1; [apply N.eqb_eq in E1; contradiction|].
  destruct (c == "\") eqn:E2; [apply N.eqb_eq in E2; contradiction|].
  destruct (c <? 32)%N eqn:E3; [apply N.ltb_lt in E3; lia|].
  reflexivity.
Qed.

Lemma parseChars_quoteUnit (c : N) (r : jsstring) :
  (c < 256)%N ->
  parseChars (quoteUnit c ++ r) = consChar c (parseChars r).
Proof.
  intros Hc. unfold quoteUnit.
  destruct (c =? 8)%N eqn:E8; [apply N.eqb_eq in E8; now subst|].
  destruct (c =? 9)%N eqn:E9; [apply N.eqb_eq in E9; now subst|].
  destruct (c =? 10)%N eqn:E10; [apply N.eqb_eq in E10; now subst|].
  destruct (c =? 12)%N eqn:E12; [apply N.eqb_eq in E12; now subst|].
  destruct (c =? 13)%N eqn:E13; [apply N.eqb_eq in E13; now subst|].
  destruct (c =? 34)%N eqn:E34; [apply N.eqb_eq in E34; now subst|].
  destruct (c =? 92)%N eqn:E92; [apply N.eqb_eq in E92; now subst|].
  apply N.eqb_neq in E34, E92.
  unfold is_leading_surrogate, is_trailing_surrogate.
  destruct (c <? 32)%N eqn:E32.
  - cbn [orb]. apply parseChars_unicodeEscape. lia.
  - apply N.ltb_ge in E32.
    destruct (55296 <=? c)%N eqn:Es1; [apply N.leb_le in Es1; lia|].
    destruct (56320 <=? c)%N eqn:Es2; [apply N.leb_le in Es2; lia|].
    cbn [orb andb app]. now apply parseChars_plain.
Qed.

Lemma quoteChars_latin1_cons (c : N) (s : jsstring) :
  (c < 256)%N -> quoteChars (c :: s) = quoteUnit c ++ quoteChars s.
Proof.
  intros Hc. cbn [quoteChars]. unfold is_leading_surrogate.
  destruct (55296 <=? c)%N eqn:E; [apply N.leb_le in E; lia|].
  reflexivity.
Qed.

(** A quoted string parses back to the string. *)
Lemma parseChars_quoteChars (s r : jsstring) :
  latin1 s = true ->
  parseChars (quoteChars s ++ 34%N :: r) = Some (s, r).
Proof.
  induction s as [|c s IH]; intros H.
  - reflexivity.
  - apply latin1_cons in H as [Hc H].
    rewrite quoteChars_latin1_cons by exact Hc.
    rewrite <- app_assoc, parseChars_quoteUnit by exact Hc.
    now rewrite (IH H).
Qed.

Lemma quoteUnit_latin1 (c : N) : (c < 256)%N -> latin1 (quoteUnit c) = true.
Proof.
  intros Hc.
  assert (H := checked_below (fun c => latin1 (quoteUnit c)) 256 eq_refl c Hc).
  exact H.
Qed.

Lemma quoteChars_latin1 (s : jsstring) :
  latin1 s = true -> latin1 (quoteChars s) = true.
Proof.
  induction s as [|c s IH]; intros H; [reflexivity|].
  apply latin1_cons in H as [Hc H].
  rewrite quoteChars_latin1_cons by exact Hc.
  now rewrite latin1_app, quoteUnit_latin1, IH.
Qed.

Lemma quoteJSONString_latin1 (s : jsstring) :
  latin1 s = true -> latin1 (quoteJSONString s) = true.
Proof.
  intros H. unfold quoteJSONString.
  apply latin1_cons. split; [lia|].
  now rewrite latin1_app, quoteChars_latin1.
Qed.

(** *** Values *)

Lemma parseValue_quote (f : nat) (r : jsstring) :
  parseValue (S f) (34%N :: r)
  = match parseChars r with
    | Some (str, r') => Some (JString str, r')
    | None => None
    end.
Proof. reflexivity. Qed.

Lemma parseValue_bracket (f : nat) (r : jsstring) :
  parseValue (S f) (code "[" :: r)
  = match skip_ws r with
    | c' :: r' =>
        if c' == "]" then Some (JArray [], r')
        else match parseElements f (c' :: r') with
             | Some (vs, r'') => Some (JArray vs, r'')
             | None => None
             end
    | [] => None
    end.
Proof. reflexivity. Qed.

Lemma parseValue_brace (f : nat) (r : jsstring) :
  parseValue (S f) (code "{" :: r)
  = match skip_ws r with
    | c' :: r' =>
        if c' == "}" then Some (JObject [], r')
        else match parseMembers f (c' :: r') with
             | Some (ms, r'') =>
                 Some (JObject (fold_left createDataProperty ms []), r'')
             | None => None
             end
    | [] => None
    end.
Proof. reflexivity. Qed.

Lemma parseElements_unfold (f : nat) (s : jsstring) :
  parseElements (S f) s
  = match parseValue f s with
    | Some (v, r) =>
        match skip_ws r with
        | c :: r' =>
            if c == "," then
              match parseElements f r' with
              | Some (vs, r'') => Some (v :: vs, r'')
              | None => None
              end
            else if c == "]" then Some ([v], r')
            else None
        | [] => None
        end
    | None => None
    end.
Proof. reflexivity. Qed.

Lemma parseMembers_quote (f : nat) (r : jsstring) :
  parseMembers (S f) (34%N :: r)
  = match parseChars r with
    | Some (k, r1) =>
        match skip_ws r1 with
        | c1 :: r2 =>
            if c1 == ":" then
              match parseValue f r2 with
              | Some (v, r3) =>
                  match skip_ws r3 with
                  | c3 :: r4 =>
                      if c3 == "," then
                        match parseMembers f r4 with
                        | Some (ms, r5) => Some ((k, v) :: ms, r5)
                        | None => None
                        end
                      else if c3 == "}" then Some ([(k, v)], r4)
                      else None
                  | [] => None
                  end
              | None => None
              end
            else None
        | [] => None
        end
    | None => None
    end.
Proof. reflexivity. Qed.

(** The text of a value without numbers starts with a character that is
    neither white space nor a closing bracket. *)
Lemma stringify_head (v : json) :
  codec_safe v = true ->
  exists c r, stringify v = c :: r
              /\ skip_ws (c :: r) = c :: r
              /\ (c == "]") = false /\ (c == "}") = false.
Proof.
  destruct v as [|[|]|l|s|l|ps]; intros H; try discriminate;
    eexists; eexists; (split; [reflexivity|]); repeat split.
Qed.

Ltac norm_app := repeat (progress (rewrite <- ?app_assoc; cbn [app])).

Lemma parseElements_join (l : list json) :
  Forall parses_back l ->
  forall x fuel rest,
    parses_back x ->
    list_sum (map (fun y => S (weight y)) (x :: l)) <= fuel ->
    parseElements fuel (join_comma (map stringify (x :: l)) ++ code "]" :: rest)
    = Some (x :: l, rest).
Proof.
  induction 1 as [|y l Hy Hl IH]; intros x fuel rest [Hsafe Hx] Hfuel.
  - cbn [map list_sum fold_right] in Hfuel. destruct fuel as [|f]; [lia|].
    cbn [map join_comma]. rewrite parseElements_unfold.
    rewrite Hx by lia. reflexivity.
  - cbn [map list_sum fold_right] in Hfuel. destruct fuel as [|f]; [lia|].
    change (join_comma (map stringify (x :: y :: l)))
      with (stringify x ++ code "," :: join_comma (map stringify (y :: l))).
    rewrite <- app_assoc. rewrite parseElements_unfold.
    rewrite Hx by lia. cbn [app skip_ws].
    change (is_json_whitespace (code ",")) with false. cbv iota.
    change (code "," == ",") with true. cbv iota.
    rewrite (IH y f rest Hy); [reflexivity|].
    cbn [map list_sum fold_right]. lia.
Qed.

Lemma parseMembers_join (ps : list (jsstring * json)) :
  Forall (fun kv => latin1 (fst kv) = true /\ parses_back (snd kv)) ps ->
  forall k v fuel rest,
    latin1 k = true -> parses_back v ->
    list_sum (map (fun kv => S (weight (snd kv))) ((k, v) :: ps)) <= fuel ->
    parseMembers fuel
      (join_comma
         (map (fun kv => quoteJSONString (fst kv) ++ code ":" :: stringify (snd kv))
            ((k, v) :: ps))
         ++ code "}" :: rest)
    = Some ((k, v) :: ps, rest).
Proof.
  induction 1 as [|[k' v'] ps [Hk' Hv'] Hps IH];
    intros k v fuel rest Hk [Hsafe Hv] Hfuel.
  - cbn [map list_sum fold_right snd] in Hfuel. destruct fuel as [|f]; [lia|].
    cbn [map join_comma fst snd]. unfold quoteJSONString.
    norm_app.
    rewrite parseMembers_quote, parseChars_quoteChars by exact Hk.
    cbn [skip_ws]. change (is_json_whitespace (code ":")) with false. cbv iota.
    change (code ":" == ":") with true. cbv iota.
    rewrite Hv by lia. reflexivity.
  - cbn [map list_sum fold_right snd] in Hfuel. destruct fuel as [|f]; [lia|].
    change (join_comma
              (map (fun kv => quoteJSONString (fst kv) ++ code ":" :: stringify (snd kv))
                 ((k, v) :: (k', v') :: ps)))
      with ((quoteJSONString k ++ code ":" :: stringify v)
              ++ code "," ::
              join_comma
                (map (fun kv => quoteJSONString (fst kv) ++ code ":" :: stringify (snd kv))
                   ((k', v') :: ps))).
    unfold quoteJSONString at 1.
    norm_app.
    rewrite parseMembers_quote, parseChars_quoteChars by exact Hk.
    cbn [skip_ws]. change (is_json_whitespace (code ":")) with false. cbv iota.
    change (code ":" == ":") with true. cbv iota.
    rewrite Hv by lia. cbn [app skip_ws].
    change (is_json_whitespace (code ",")) with false. cbv iota.
    change (code "," == ",") with true. cbv iota.
    rewrite (IH k' v' f rest Hk' Hv'); [reflexivity|].
    cbn [map list_sum fold_right snd]. lia.
Qed.

(** *** Objects *)

Lemma hasProperty_existsb (k : jsstring) (ps : list (jsstring * json)) :
  hasProperty k ps = existsb (streq k) (map fst ps).
Proof.
  induction ps as [|[k' v'] ps IH]; [reflexivity|].
  cbn [hasProperty map fst existsb]. now rewrite IH, (streq_sym k' k).
Qed.

(** Distinct keys that are no array indices are stored one after the
    other. *)
Lemma fold_createDataProperty (ms : list (jsstring * json)) :
  forall acc,
    distinct_keys (map fst (acc ++ ms)) = true ->
    Forall (fun kv => arrayIndex (fst kv) = None) ms ->
    fold_left createDataProperty ms acc = acc ++ ms.
Proof.
  induction ms as [|[k v] ms IH]; intros acc Hd Hidx.
  - now rewrite app_nil_r.
  - apply Forall_cons_iff in Hidx as [Hk Hidx]. cbn [fst] in Hk.
    cbn [fold_left createDataProperty].
    assert (Hnot : hasProperty k acc = false).
    { rewrite hasProperty_existsb. clear -Hd.
      induction acc as [|[a w] acc IHa]; [reflexivity|].
      cbn [app map fst distinct_keys existsb] in *.
      apply andb_true_iff in Hd as [Ha Hd].
      rewrite (IHa Hd), orb_false_r.
      rewrite map_app, existsb_app in Ha. cbn [map fst existsb] in Ha.
      apply negb_true_iff in Ha. apply orb_false_iff in Ha as [_ Ha].
      apply orb_false_iff in Ha as [Ha _]. now rewrite streq_sym. }
    rewrite Hnot, Hk.
    rewrite IH.
    + now rewrite <- app_assoc.
    + now rewrite <- app_assoc.
    + exact Hidx.
Qed.

Lemma codec_safe_object (ps : list (jsstring * json)) :
  codec_safe (JObject ps) = true ->
  distinct_keys (map fst ps) = true
  /\ Forall (fun kv => latin1 (fst kv) = true
                       /\ arrayIndex (fst kv) = None
                       /\ codec_safe (snd kv) = true) ps.
Proof.
  cbn [codec_safe]. intros H. apply andb_true_iff in H as [Hd Hf].
  split; [exact Hd|]. apply Forall_forall. intros kv Hkv.
  rewrite forallb_forall in Hf. specialize (Hf kv Hkv).
  apply andb_true_iff in Hf as [Hf Hs]. apply andb_true_iff in Hf as [Hl Hi].
  repeat split; try assumption. now destruct (arrayIndex (fst kv)).
Qed.

Lemma skip_ws_length (r : jsstring) : length (skip_ws r) <= length r.
Proof.
  induction r as [|a r IHr]; cbn [skip_ws]; [lia|].
  destruct (is_json_whitespace a); cbn [length]; lia.
Qed.

(** The parser reads a value back from its text. *)
Lemma parseValue_stringify (v : json) :
  codec_safe v = true -> parses_back v.
Proof.
  induction v as [|b|lit|s|l IH|ps IH] using json_ind; intros Hsafe;
    (split; [exact Hsafe|]); intros fuel rest Hfuel;
    (destruct fuel as [|f]; [cbn [weight] in Hfuel; lia|]).
  - reflexivity.
  - destruct b; reflexivity.
  - discriminate.
  - cbn [codec_safe] in Hsafe. cbn [stringify]. unfold quoteJSONString.
    norm_app. rewrite parseValue_quote.
    now rewrite parseChars_quoteChars.
  - cbn [codec_safe] in Hsafe. rewrite forallb_forall in Hsafe.
    assert (Hall : Forall parses_back l).
    { apply Forall_forall. intros x Hx. rewrite Forall_forall in IH.
      apply (IH x Hx). now apply Hsafe. }
    cbn [stringify]. norm_app. rewrite parseValue_bracket.
    destruct l as [|x l]; [reflexivity|].
    apply Forall_cons_iff in Hall as [Hx Hl].
    destruct (stringify_head x (proj1 Hx)) as (c & r & Ec & Hws & Hb & _).
    assert (Et : join_comma (map stringify (x :: l)) ++ code "]" :: rest
                 = c :: (r ++ match l with
                              | [] => []
                              | _ :: _ => code "," :: join_comma (map stringify l)
                              end ++ code "]" :: rest)).
    { cbn [map join_comma]. rewrite Ec. destruct l; cbn [map]; now norm_app. }
    assert (Hskip : skip_ws (join_comma (map stringify (x :: l)) ++ code "]" :: rest)
                    = join_comma (map stringify (x :: l)) ++ code "]" :: rest).
    { rewrite Et. cbn [skip_ws] in Hws |- *.
      destruct (is_json_whitespace c); [|reflexivity].
      exfalso. assert (Hlen := skip_ws_length r).
      rewrite Hws in Hlen. cbn [length] in Hlen. lia. }
    rewrite Hskip. rewrite Et at 1. rewrite Hb. rewrite <- Et.
    cbn [weight] in Hfuel.
    rewrite (parseElements_join l Hl x f rest Hx); [reflexivity | lia].
  - destruct (codec_safe_object _ Hsafe) as [Hd Hps].
    assert (Hall : Forall (fun kv => latin1 (fst kv) = true /\ parses_back (snd kv)) ps).
    { apply Forall_forall. intros kv Hkv. rewrite Forall_forall in IH, Hps.
      destruct (Hps kv Hkv) as (Hl & _ & Hs). split; [exact Hl|].
      now apply (IH kv Hkv). }
    cbn [stringify]. norm_app. rewrite parseValue_brace.
    destruct ps as [|[k v] ps]; [reflexivity|].
    apply Forall_cons_iff in Hall as [[Hk Hv] Hl]. cbn [fst snd] in Hk, Hv.
    assert (Et : exists r,
               join_comma
                 (map (fun kv => quoteJSONString (fst kv) ++ code ":" :: stringify (snd kv))
                    ((k, v) :: ps)) ++ code "}" :: rest
               = 34%N :: r).
    { cbn [map join_comma fst snd]. unfold quoteJSONString at 1.
      destruct ps; norm_app; eexists; reflexivity. }
    destruct Et as [r Et].
    cbn [weight] in Hfuel.
    assert (Hm := parseMembers_join ps Hl k v f rest Hk Hv).
    rewrite Et in Hm |- *. cbn [skip_ws].
    change (is_json_whitespace 34) with false. cbv iota.
    change (34 == "}")%N with false. cbv iota.
    rewrite Hm by lia.
    rewrite fold_createDataProperty; [reflexivity|exact Hd|].
    apply Forall_forall. intros kv Hkv. rewrite Forall_forall in Hps.
    now destruct (Hps kv Hkv) as (_ & Hi & _).
Qed.

Lemma join_comma_length (parts : list jsstring) (ws : list nat) :
  Forall2 (fun p w => w <= length p) parts ws ->
  list_sum (map S ws) <= S (length (join_comma parts)).
Proof.
  unfold list_sum.
  induction 1 as [|p w parts ws Hw Hrest IH]; [cbn; lia|].
  cbn [map fold_right].
  destruct parts as [|q parts].
  - inversion Hrest; subst. cbn. lia.
  - change (join_comma (p :: q :: parts)) with (p ++ code "," :: join_comma (q :: parts)).
    rewrite length_app. cbn [length]. lia.
Qed.

(** The fuel [JSON_parse] gives is enough. *)
Lemma weight_le_length (v : json) :
  codec_safe v = true -> weight v <= length (stringify v).
Proof.
  induction v as [|b|lit|s|l IH|ps IH] using json_ind; intros Hsafe.
  - cbn. lia.
  - destruct b; cbn; lia.
  - discriminate.
  - cbn [weight stringify]. unfold quoteJSONString. cbn [length]. lia.
  - cbn [codec_safe] in Hsafe. rewrite forallb_forall in Hsafe.
    cbn [weight stringify length]. rewrite length_app. cbn [length].
    assert (H : list_sum (map (fun x => S (weight x)) l)
                <= S (length (join_comma (map stringify l)))).
    { rewrite <- (map_map weight S). apply join_comma_length.
      clear -IH Hsafe. induction l as [|x l IHl]; [constructor|].
      apply Forall_cons_iff in IH as [Hx IH]. cbn [map]. constructor.
      - apply Hx, Hsafe. now left.
      - apply IHl; [exact IH|]. intros y Hy. apply Hsafe. now right. }
    lia.
  - destruct (codec_safe_object _ Hsafe) as [_ Hps].
    cbn [weight stringify length]. rewrite length_app. cbn [length].
    assert (H : list_sum (map (fun kv => S (weight (snd kv))) ps)
                <= S (length (join_comma
                                (map (fun kv => quoteJSONString (fst kv)
                                                  ++ code ":" :: stringify (snd kv))
                                   ps)))).
    { rewrite <- (map_map (fun kv => weight (snd kv)) S). apply join_comma_length.
      clear -IH Hps. induction ps as [|kv ps IHl]; [constructor|].
      apply Forall_cons_iff in IH as [Hx IH].
      apply Forall_cons_iff in Hps as [(_ & _ & Hs) Hps]. cbn [map]. constructor.
      - rewrite length_app. cbn [length]. specialize (Hx Hs). lia.
      - now apply IHl. }
    lia.
Qed.

Lemma JSON_parse_stringify (v : json) :
  codec_safe v = true -> JSON_parse (stringify v) = Some v.
Proof.
  intros Hsafe. unfold JSON_parse.
  destruct (parseValue_stringify v Hsafe) as [_ H].
  assert (Hw := weight_le_length v Hsafe).
  specialize (H (S (length (stringify v))) []). rewrite app_nil_r in H.
  rewrite H by lia. reflexivity.
Qed.

Lemma join_comma_latin1 (parts : list jsstring) :
  forallb latin1 parts = true -> latin1 (join_comma parts) = true.
Proof.
  induction parts as [|p parts IH]; intros H; [reflexivity|].
  cbn [forallb] in H. apply andb_true_iff in H as [Hp H].
  destruct parts as [|q parts]; [exact Hp|].
  change (join_comma (p :: q :: parts)) with (p ++ code "," :: join_comma (q :: parts)).
  rewrite latin1_app, Hp. apply latin1_cons. split; [cbn; lia|]. now apply IH.
Qed.

(** The text of a value the codec carries is within [0xFF]: [btoa] takes
    it. *)
Lemma stringify_latin1 (v : json) :
  codec_safe v = true -> latin1 (stringify v) = true.
Proof.
  induction v as [|b|lit|s|l IH|ps IH] using json_ind; intros Hsafe.
  - reflexivity.
  - destruct b; reflexivity.
  - discriminate.
  - now apply quoteJSONString_latin1.
  - cbn [codec_safe] in Hsafe. rewrite forallb_forall in Hsafe.
    cbn [stringify]. apply latin1_cons. split; [cbn; lia|].
    rewrite latin1_app, andb_true_r. apply join_comma_latin1.
    apply forallb_forall. intros p Hp. apply in_map_iff in Hp as (x & <- & Hx).
    rewrite Forall_forall in IH. apply (IH x Hx). now apply Hsafe.
  - destruct (codec_safe_object _ Hsafe) as [_ Hps].
    cbn [stringify]. apply latin1_cons. split; [cbn; lia|].
    rewrite latin1_app, andb_true_r. apply join_comma_latin1.
    apply forallb_forall. intros p Hp. apply in_map_iff in Hp as (kv & <- & Hkv).
    rewrite Forall_forall in IH, Hps. destruct (Hps kv Hkv) as (Hl & _ & Hs).
    rewrite latin1_app, (quoteJSONString_latin1 _ Hl).
    apply latin1_cons. split; [cbn; lia|]. now apply (IH kv Hkv).
Qed.

(** The codec on values: what goes in comes out, with the prefix marker
    or without. *)
Lemma decode_encode_value (v : json) :
  codec_safe v = true ->
  decodeState (encodeState v) = v
  /\ decodeState (js "#data=" ++ encodeState v) = v.
Proof.
  intros Hsafe.
  destruct (atob_btoa (stringify v) (stringify_latin1 v Hsafe)) as (b64 & Eb & Ea).
  unfold encodeState. rewrite Eb. cbn [try_catch].
  unfold decodeState. rewrite replace_prefix. cbn [app].
  assert (Hr : replace (js "#data=") [] b64 = b64).
  { apply (replace_absent (code "#")). exact (btoa_no_hash _ _ Eb). }
  rewrite Hr, Ea. cbn [option_bind].
  now rewrite JSON_parse_stringify.
Qed.

(** *** Worksheets are values the codec carries *)

Lemma codec_safe_fields (ps : list (jsstring * json)) :
  distinct_keys (map fst ps) = true ->
  Forall (fun kv => key_ok (fst kv) = true /\ codec_safe (snd kv) = true) ps ->
  codec_safe (JObject ps) = true.
Proof.
  intros Hd Hf. cbn [codec_safe]. rewrite Hd. cbn [andb].
  apply forallb_forall. intros kv Hkv. rewrite Forall_forall in Hf.
  destruct (Hf kv Hkv) as [Hk Hs]. unfold key_ok in Hk.
  now rewrite Hk, Hs.
Qed.

Lemma Forall_optField (P : jsstring * json -> Prop) (k : string)
  (o : option json) :
  (forall v, o = Some v -> P (js k, v)) -> Forall P (optField k o).
Proof.
  intros H. destruct o as [v|]; cbn [optField]; [|constructor].
  constructor; [now apply H | constructor].
Qed.

Lemma stringsToJS_safe (l : list jsstring) :
  latin1_list l = true -> codec_safe (stringsToJS l) = true.
Proof.
  unfold latin1_list, stringsToJS. cbn [codec_safe]. rewrite !forallb_forall.
  intros H v Hv. apply in_map_iff in Hv as (s & <- & Hs). now apply H.
Qed.

Lemma nullableToJS_safe (o : option jsstring) :
  latin1_opt o = true -> codec_safe (nullableToJS o) = true.
Proof. destruct o; intros H; [exact H | reflexivity]. Qed.

Ltac field_ok :=
  split; [reflexivity | cbn [snd codec_safe]; try assumption; try reflexivity].

Lemma questionToJS_safe (i : jsstring) (q : QuestionFields) :
  latin1 i = true -> latin1_question q = true ->
  codec_safe (questionToJS i q) = true.
Proof.
  intros Hi Hq. unfold latin1_question in Hq.
  repeat match type of Hq with
         | (_ && _) = true => let H := fresh "Hq" in
                              apply andb_true_iff in Hq as [Hq H]
         end.
  unfold questionToJS. apply codec_safe_fields.
  - destruct (qType q), (listItems q), (options q), (image q), (description q),
      (multiSelect q), (correctAnswer q); reflexivity.
  - repeat (apply Forall_app; split);
      repeat match goal with
             | |- Forall _ (_ :: _) => apply Forall_cons
             | |- Forall _ [] => apply Forall_nil
             | |- Forall _ (optField _ _) =>
                 apply Forall_optField; let v := fresh "v" in
                                        let E := fresh "E" in intros v E
             end;
      try (field_ok; fail).
    + destruct (qType q) as [[]|]; try discriminate;
        injection E as <-; field_ok.
    + destruct (listItems q); try discriminate. injection E as <-.
      split; [reflexivity|]. now apply stringsToJS_safe.
    + destruct (options q); try discriminate. injection E as <-.
      split; [reflexivity|]. now apply stringsToJS_safe.
    + destruct (image q); try discriminate. injection E as <-.
      split; [reflexivity|]. now apply nullableToJS_safe.
    + destruct (description q); try discriminate. injection E as <-.
      split; [reflexivity|]. now apply nullableToJS_safe.
    + destruct (multiSelect q); try discriminate. injection E as <-.
      split; reflexivity.
    + destruct (correctAnswer q) as [[s|l]|]; try discriminate;
        injection E as <-; (split; [reflexivity|]);
        [exact Hq0 | now apply stringsToJS_safe].
Qed.

Lemma blockToJS_safe (b : Block) :
  latin1_block b = true -> codec_safe (blockToJS b) = true.
Proof.
  induction b as [i c|i|i u t|i q|i t ch IH] using Block_ind;
    cbn [latin1_block]; intros H;
    repeat match type of H with
           | (_ && _) = true => let H' := fresh "H" in
                                apply andb_true_iff in H as [H H']
           end.
  - cbn [blockToJS]. apply codec_safe_fields; [reflexivity|].
    repeat (apply Forall_cons; [field_ok|]). apply Forall_nil.
  - cbn [blockToJS]. apply codec_safe_fields; [reflexivity|].
    repeat (apply Forall_cons; [field_ok|]). apply Forall_nil.
  - cbn [blockToJS]. apply codec_safe_fields.
    + destruct t; reflexivity.
    + apply Forall_app. split.
      * repeat (apply Forall_cons; [field_ok|]). apply Forall_nil.
      * apply Forall_optField. intros v E. destruct t; try discriminate.
        injection E as <-. field_ok.
  - cbn [blockToJS]. now apply questionToJS_safe.
  - cbn [blockToJS]. apply codec_safe_fields.
    + destruct t; reflexivity.
    + repeat (apply Forall_app; split).
      * repeat (apply Forall_cons; [field_ok|]). apply Forall_nil.
      * apply Forall_optField. intros v E. destruct t; try discriminate.
        injection E as <-. field_ok.
      * apply Forall_cons; [|apply Forall_nil]. split; [reflexivity|].
        cbn [snd codec_safe]. apply forallb_forall. intros v Hv.
        apply in_map_iff in Hv as (c & <- & Hc).
        rewrite Forall_forall in IH. apply (IH c Hc).
        rewrite forallb_forall in H0. now apply H0.
Qed.

Lemma worksheetToJS_safe (x : WorksheetData) :
  latin1_worksheet x = true -> codec_safe (worksheetToJS x) = true.
Proof.
  unfold latin1_worksheet. intros H.
  apply andb_true_iff in H as [H Hd]. apply andb_true_iff in H as [H Hb].
  apply andb_true_iff in H as [Ht Hde].
  unfold worksheetToJS. apply codec_safe_fields.
  - destruct (design x); reflexivity.
  - apply Forall_app. split.
    + apply Forall_cons; [field_ok|]. apply Forall_cons; [field_ok|].
      apply Forall_cons; [|apply Forall_nil]. split; [reflexivity|].
      cbn [snd codec_safe]. apply forallb_forall. intros v Hv.
      apply in_map_iff in Hv as (c & <- & Hc). apply blockToJS_safe.
      rewrite forallb_forall in Hb. now apply Hb.
    + apply Forall_optField. intros v E.
      destruct (design x) as [d|]; try discriminate. injection E as <-.
      apply andb_true_iff in Hd as [Ha Hf].
      split; [reflexivity|]. cbn [snd]. unfold designToJS.
      apply codec_safe_fields; [reflexivity|].
      repeat (apply Forall_cons; [field_ok|]). apply Forall_nil.
Qed.

(** *** Worksheets and their values correspond one to one *)

Lemma head_not_optField (k k' : string) (o : option json)
  (rest : list (jsstring * json)) :
  js k' <> js k -> head_not k rest -> head_not k (optField k' o ++ rest).
Proof. intros Hk Hr. destruct o; [exact Hk | exact Hr]. Qed.

Lemma head_not_optField_last (k k' : string) (o : option json) :
  js k' <> js k -> head_not k (optField k' o).
Proof. intros Hk. destruct o; [exact Hk | exact I]. Qed.

Lemma optField_inj (k : string) (o o' : option json)
  (rest rest' : list (jsstring * json)) :
  head_not k rest -> head_not k rest' ->
  optField k o ++ rest = optField k o' ++ rest' ->
  o = o' /\ rest = rest'.
Proof.
  intros Hr Hr' E. destruct o as [v|], o' as [v'|]; cbn [optField app] in E.
  - injection E as -> ->. now split.
  - subst rest'. exfalso. now apply Hr'.
  - subst rest. exfalso. now apply Hr.
  - now split.
Qed.

Lemma option_map_inj {A B : Type} (f : A -> B) (o o' : option A) :
  (forall a a', f a = f a' -> a = a') ->
  option_map f o = option_map f o' -> o = o'.
Proof.
  intros Hf E. destruct o, o'; try discriminate; [|reflexivity].
  injection E as E. now rewrite (Hf _ _ E).
Qed.

Lemma map_JString_inj (l l' : list jsstring) :
  map JString l = map JString l' -> l = l'.
Proof.
  revert l'. induction l as [|s l IH]; intros [|s' l'] E; try discriminate.
  - reflexivity.
  - injection E as -> E. now rewrite (IH _ E).
Qed.

Lemma stringsToJS_inj (l l' : list jsstring) :
  stringsToJS l = stringsToJS l' -> l = l'.
Proof. intros E. injection E as E. now apply map_JString_inj. Qed.

Lemma nullableToJS_inj (o o' : option jsstring) :
  nullableToJS o = nullableToJS o' -> o = o'.
Proof. destruct o, o'; cbn; intros E; try discriminate; congruence. Qed.

Lemma qTypeName_inj (a b : QuestionType) :
  JString (qTypeName a) = JString (qTypeName b) -> a = b.
Proof. destruct a, b; intros E; try reflexivity; vm_compute in E; discriminate. Qed.

Ltac head_not_tac :=
  repeat (apply head_not_optField; [vm_compute; discriminate|]);
  try (apply head_not_optField_last; vm_compute; discriminate);
  try exact I; try (cbn; vm_compute; discriminate).

Lemma questionToJS_inj (i i' : jsstring) (q q' : QuestionFields) :
  questionToJS i q = questionToJS i' q' -> i = i' /\ q = q'.
Proof.
  unfold questionToJS. intros E. injection E as Ei E.
  apply optField_inj in E as [E1 E]; [|head_not_tac..].
  injection E as E2 E.
  apply optField_inj in E as [E3 E]; [|head_not_tac..].
  apply optField_inj in E as [E4 E]; [|head_not_tac..].
  apply optField_inj in E as [E5 E]; [|head_not_tac..].
  apply optField_inj in E as [E6 E]; [|head_not_tac..].
  apply optField_inj in E as [E7 E]; [|head_not_tac..].
  rewrite <- (app_nil_r (optField "correctAnswer" _)) in E.
  rewrite <- (app_nil_r (optField "correctAnswer"
                           (option_map _ (correctAnswer q')))) in E.
  apply optField_inj in E as [E8 _]; [|exact I..].
  split; [exact Ei|].
  apply option_map_inj in E1; [|exact qTypeName_inj].
  apply option_map_inj in E3; [|exact stringsToJS_inj].
  apply option_map_inj in E4; [|exact stringsToJS_inj].
  apply option_map_inj in E5; [|exact nullableToJS_inj].
  apply option_map_inj in E6; [|exact nullableToJS_inj].
  apply option_map_inj in E7; [|intros a a' Ea; congruence].
  apply option_map_inj in E8.
  2:{ intros [s|l] [s'|l'] Ea; try discriminate.
      - congruence.
      - now rewrite (stringsToJS_inj _ _ Ea). }
  destruct q, q'. cbn in *. congruence.
Qed.

Lemma blockToJS_inj (b : Block) :
  forall b', blockToJS b = blockToJS b' -> b = b'.
Proof.
  induction b as [i c|i|i u t|i q|i t ch IH] using Block_ind;
    intros [i' c'|i'|i' u' t'|i' q'|i' t' ch'] E;
    cbn [blockToJS] in E; unfold questionToJS in E;
    try (injection E as _ E; vm_compute in E; discriminate).
  - injection E as -> ->. reflexivity.
  - injection E as ->. reflexivity.
  - injection E as -> -> E.
    rewrite <- (app_nil_r (optField "title" (option_map JString t))) in E.
    rewrite <- (app_nil_r (optField "title" (option_map JString t'))) in E.
    apply optField_inj in E as [E _]; [|exact I..].
    apply option_map_inj in E; [|intros a a' Ea; congruence].
    now subst.
  - fold (questionToJS i q) in E. fold (questionToJS i' q') in E.
    apply questionToJS_inj in E as [-> ->]. reflexivity.
  - injection E as -> E.
    apply optField_inj in E as [E1 E]; [|cbn; vm_compute; discriminate..].
    apply option_map_inj in E1; [|intros a a' Ea; congruence].
    injection E as E. subst. f_equal.
    revert ch' E. induction IH as [|c ch Hc _ IHch]; intros [|c' ch'] E;
      try discriminate; [reflexivity|].
    cbn [map] in E. injection E as Ec E.
    now rewrite (Hc _ Ec), (IHch _ E).
Qed.

(** Two worksheets with the same value are the same worksheet. *)
Lemma worksheetToJS_inj (x y : WorksheetData) :
  worksheetToJS x = worksheetToJS y -> x = y.
Proof.
  unfold worksheetToJS. intros E. injection E as Et Ed Eb E.
  rewrite <- (app_nil_r (optField "design" (option_map designToJS (design x)))) in E.
  rewrite <- (app_nil_r (optField "design" (option_map designToJS (design y)))) in E.
  apply optField_inj in E as [E _]; [|exact I..].
  apply option_map_inj in E.
  2:{ intros [a f] [a' f'] Ea. unfold designToJS in Ea. cbn in Ea. congruence. }
  assert (Eb' : blocks x = blocks y).
  { revert Eb. generalize (blocks y). induction (blocks x) as [|b bs IH];
      intros [|b' bs'] Eb; try discriminate; [reflexivity|].
    cbn [map] in Eb. injection Eb as Eb1 Eb.
    now rewrite (blockToJS_inj b b' Eb1), (IH _ Eb). }
  destruct x, y. cbn in *. congruence.
Qed.

(** *** The round trip *)

(** C1.  For every worksheet whose strings have code units up to [0xFF]
    only (the characters [btoa] can encode), [decodeState] applied to what
    [encodeState] gives for the worksheet returns the worksheet, with the
    [#data=] marker in front or without it; and no other worksheet has the
    value that is returned. *)
Theorem codec_round_trip :
  forall x : WorksheetData,
    latin1_worksheet x = true ->
    decodeState (encodeState (worksheetToJS x)) = worksheetToJS x
    /\ decodeState (js "#data=" ++ encodeState (worksheetToJS x))
       = worksheetToJS x
    /\ (forall y : WorksheetData,
           decodeState (js "#data=" ++ encodeState (worksheetToJS x))
           = worksheetToJS y ->
           y = x).
Proof.
  intros x H.
  destruct (decode_encode_value (worksheetToJS x) (worksheetToJS_safe x H))
    as [E1 E2].
  repeat split; try assumption.
  intros y Ey. rewrite E2 in Ey. symmetry. now apply worksheetToJS_inj.
Qed.

Lemma codec_round_trip_witness :
  latin1_worksheet (sampleSheet sampleTree) = true
  /\ decodeState (js "#data=" ++ encodeState (worksheetToJS (sampleSheet sampleTree)))
     = worksheetToJS (sampleSheet sampleTree).
Proof.
  split; [reflexivity|].
  exact (proj1 (proj2 (codec_round_trip (sampleSheet sampleTree) eq_refl))).
Defined.

(** Outside the domain of [btoa] the codec gives up: a title with the euro
    sign is encoded as the empty string, which decodes to [null]. *)
Example codec_beyond_latin1 :
  encodeState (worksheetToJS (mkWorksheet [8364%N] [] [] None)) = []
  /\ decodeState [] = JNull.
Proof. split; reflexivity. Qed.

(** [decodeState] gives [null] when [atob] or [JSON.parse] throws. *)
Lemma decodeState_null_on_throw (hash : jsstring) :
  option_bind (atob (replace (js "#data=") [] hash)) JSON_parse = None ->
  decodeState hash = JNull.
Proof. unfold decodeState. now intros ->. Qed.

(** C2, at the input that breaks it.  The link [#data=eyJ0aXRsZSI6IngifQ==]
    carries the text of an object with a [title] and no [blocks].
    [decodeState] returns that object, not [null]: it never looks at the
    shape of what it parsed.  The file import of [Answer.tsx], given the
    same text, refuses it.  (Text that is no base64, and base64 of text
    that is no JSON, do give [null].) *)
Theorem decodeState_accepts_missing_blocks :
  atob (js "eyJ0aXRsZSI6IngifQ==") = Some (js "{" ++ 34%N :: js "title"
                                             ++ 34%N :: js ":" ++ 34%N :: js "x"
                                             ++ 34%N :: js "}")
  /\ decodeState (js "#data=eyJ0aXRsZSI6IngifQ==")
     = JObject [(js "title", JString (js "x"))]
  /\ getProperty (js "blocks") (decodeState (js "#data=eyJ0aXRsZSI6IngifQ=="))
     = None
  /\ handleFileUpload (js "{" ++ 34%N :: js "title" ++ 34%N :: js ":"
                         ++ 34%N :: js "x" ++ 34%N :: js "}")
     = InvalidFormat
  /\ decodeState (js "garbage-not-base64") = JNull
  /\ decodeState (js "#data=bm90IGpzb24=") = JNull.
Proof. repeat split; vm_compute; reflexivity. Qed.

(* ===================================================================== *)
(** * Further properties of the tree helpers *)
(* ===================================================================== *)

(** *** Lookup *)

(** X1.  [findBlock] is sound and complete: it answers with a block of the
    tree that has the id asked for, and it answers [null] exactly when no
    block of the tree, at any depth, has that id. *)
Theorem findBlock_sound_complete :
  forall (t : list Block) (id : jsstring),
    (forall b, findBlock t id = Some b -> In b (nodes t) /\ block_id b = id)
    /\ (findBlock t id = None <-> ~ In id (ids t)).
Proof.
  intros t id. split.
  - apply findBlock_some.
  - apply findBlock_none_iff.
Qed.

Lemma findBlock_sound_complete_witness :
  findBlock sampleTree (js "q") = Some (sampleQuestion "q")
  /\ In (sampleQuestion "q") (nodes sampleTree)
  /\ block_id (sampleQuestion "q") = js "q".
Proof.
  split; [reflexivity|].
  exact (proj1 (findBlock_sound_complete sampleTree (js "q"))
           (sampleQuestion "q") eq_refl).
Defined.

(** *** Removal *)

Lemma remove_commutes (a b : jsstring) (t : list Block) :
  removeBlockRecursive (removeBlockRecursive t a) b
  = removeBlockRecursive (removeBlockRecursive t b) a.
Proof.
  induction t as [|c rest IHch IHrest] using forest_ind.
  - reflexivity.
  - rewrite !removeBlockRecursive_cons.
    destruct (streq (block_id c) a) eqn:Ea, (streq (block_id c) b) eqn:Eb;
      rewrite ?removeBlockRecursive_cons, ?removeNode_id, ?Ea, ?Eb;
      try exact IHrest.
    f_equal; [|exact IHrest].
    destruct c; try reflexivity.
    rewrite !removeNode_group. f_equal. exact IHch.
Qed.

(** X2.  Removing an id twice is removing it once, and two removals give
    the same tree in either order. *)
Theorem remove_idempotent_and_commutes :
  forall (t : list Block) (a b : jsstring),
    removeBlockRecursive (removeBlockRecursive t a) a = removeBlockRecursive t a
    /\ removeBlockRecursive (removeBlockRecursive t a) b
       = removeBlockRecursive (removeBlockRecursive t b) a.
Proof.
  intros t a b. split.
  - apply remove_absent, remove_gone.
  - apply remove_commutes.
Qed.

Lemma remove_keeps_NoDup (id : jsstring) (t : list Block) :
  NoDup (ids t) -> NoDup (ids (removeBlockRecursive t id)).
Proof.
  induction t as [|b rest IHch IHrest] using forest_ind; intros H.
  - exact H.
  - rewrite ids_cons in H. rewrite removeBlockRecursive_cons.
    apply NoDup_cons_iff in H as [Hb H].
    assert (Hch := NoDup_app_remove_r _ _ H).
    assert (Hrs := NoDup_app_remove_l _ _ H).
    destruct (streq (block_id b) id); [now apply IHrest|].
    rewrite ids_cons, removeNode_id, removeNode_children.
    apply NoDup_cons.
    + intros Hin. apply Hb. apply in_app_or in Hin as [Hin|Hin]; apply in_or_app;
        [left|right]; now apply (remove_ids_incl id).
    + apply NoDup_app; [now apply IHch | now apply IHrest|].
      intros x Hx Hx'. apply (NoDup_app_disjoint _ _ H x).
      * now apply (remove_ids_incl id).
      * now apply (remove_ids_incl id).
Qed.

(** X3.  A removal brings no id into the tree, never makes it larger, and
    keeps unique ids unique. *)
Theorem remove_keeps_tree_well_formed :
  forall (t : list Block) (id : jsstring),
    incl (ids (removeBlockRecursive t id)) (ids t)
    /\ count_blocks (removeBlockRecursive t id) <= count_blocks t
    /\ (unique_ids t -> unique_ids (removeBlockRecursive t id)).
Proof.
  intros t id. repeat split.
  - apply remove_ids_incl.
  - apply count_blocks_remove_le.
  - apply remove_keeps_NoDup.
Qed.

Lemma remove_keeps_tree_well_formed_witness :
  unique_ids sampleTree
  /\ unique_ids (removeBlockRecursive sampleTree (js "g2")).
Proof.
  assert (Hu : unique_ids sampleTree) by (unfold unique_ids; solve_concrete_NoDup).
  split; [exact Hu|].
  exact (proj2 (proj2 (remove_keeps_tree_well_formed sampleTree (js "g2"))) Hu).
Defined.

(** *** Update *)

Lemma updateNode_id_miss (id : jsstring) (newData b : Block) :
  streq (block_id b) id = false ->
  block_id (updateNode id newData b) = block_id b
  /\ block_children (updateNode id newData b)
     = updateRecursive id newData (block_children b).
Proof.
  intros H. rewrite updateNode_eq, H. destruct b; split; reflexivity.
Qed.

Lemma findBlock_after_update (id : jsstring) (newData : Block) (t : list Block) :
  block_id newData = id -> In id (ids t) ->
  findBlock (updateRecursive id newData t) id = Some newData.
Proof.
  intros Hnew.
  induction t as [|b rest IHch IHrest] using forest_ind; intros Hin.
  - destruct Hin.
  - unfold updateRecursive. cbn [map]. fold (updateRecursive id newData rest).
    rewrite findBlock_cons.
    destruct (streq (block_id b) id) eqn:E.
    + rewrite updateNode_eq, E, Hnew. now rewrite streq_refl.
    + destruct (updateNode_id_miss id newData b E) as [Ei Ec].
      rewrite Ei, E, Ec.
      rewrite ids_cons in Hin. destruct Hin as [Hin|Hin].
      { apply streq_false_iff in E. contradiction. }
      destruct (findBlock (block_children b) id) as [r|] eqn:F.
      * assert (Hc : In id (ids (block_children b))).
        { destruct (in_dec (list_eq_dec N.eq_dec) id (ids (block_children b)))
            as [H|H]; [exact H|].
          apply findBlock_none_iff in H. congruence. }
        now rewrite (IHch Hc).
      * apply findBlock_none_iff in F.
        rewrite (update_absent id newData _ F).
        apply findBlock_none_iff in F. rewrite F.
        apply in_app_or in Hin as [Hin|Hin].
        -- apply findBlock_none_iff in F. contradiction.
        -- now apply IHrest.
Qed.

Lemma update_twice (id : jsstring) (n1 n2 : Block) (t : list Block) :
  block_id n1 = id ->
  updateRecursive id n2 (updateRecursive id n1 t) = updateRecursive id n2 t.
Proof.
  intros Hn1.
  induction t as [|b rest IHch IHrest] using forest_ind.
  - reflexivity.
  - unfold updateRecursive in *. cbn [map]. rewrite IHrest. f_equal.
    rewrite (updateNode_eq id n1 b), (updateNode_eq id n2 b).
    destruct (streq (block_id b) id) eqn:E.
    + now rewrite updateNode_eq, Hn1, streq_refl.
    + destruct b; rewrite updateNode_eq; cbn [block_id] in *; rewrite E;
        try reflexivity.
      f_equal. exact IHch.
Qed.

(** X4.  When the new block keeps the id, as callers are trusted to do, an
    update is read back by [findBlock], and a second update of the same id
    overrides the first. *)
Theorem update_then_lookup :
  forall (t : list Block) (id : jsstring) (n1 n2 : Block),
    block_id n1 = id ->
    (In id (ids t) -> findBlock (updateRecursive id n1 t) id = Some n1)
    /\ updateRecursive id n2 (updateRecursive id n1 t) = updateRecursive id n2 t.
Proof.
  intros t id n1 n2 H. split.
  - now apply findBlock_after_update.
  - now apply update_twice.
Qed.

Lemma update_then_lookup_witness :
  block_id (sampleText "q") = js "q"
  /\ findBlock (updateRecursive (js "q") (sampleText "q") sampleTree) (js "q")
     = Some (sampleText "q").
Proof.
  split; [reflexivity|].
  apply (proj1 (update_then_lookup sampleTree (js "q") (sampleText "q")
                  (sampleText "q") eq_refl)).
  vm_compute. tauto.
Defined.

(** *** Insertion *)

Lemma findBlock_app (l1 l2 : list Block) (id : jsstring) :
  findBlock (l1 ++ l2) id
  = match findBlock l1 id with
    | Some r => Some r
    | None => findBlock l2 id
    end.
Proof.
  induction l1 as [|b l1 IH]; [reflexivity|].
  cbn [app]. rewrite !findBlock_cons, IH.
  destruct (streq (block_id b) id); [reflexivity|].
  now destruct (findBlock (block_children b) id).
Qed.

Lemma ids_splice (k : nat) (x : Block) (l : list Block) :
  Permutation (ids (firstn k l ++ x :: skipn k l)) (ids [x] ++ ids l).
Proof.
  rewrite ids_middle. rewrite <- (firstn_skipn k l) at 3. rewrite ids_app.
  rewrite !app_assoc. apply Permutation_app_tail, Permutation_app_comm.
Qed.

Lemma splice_insert_shape {A : Type} (start : Z) (x : A) (l : list A) :
  exists k, k <= length l /\ splice_insert start x l = firstn k l ++ x :: skipn k l.
Proof.
  unfold splice_insert.
  set (k := Z.to_nat _). exists (Nat.min k (length l)). split; [lia|].
  destruct (Nat.le_gt_cases k (length l)) as [H|H].
  - now rewrite Nat.min_l by exact H.
  - rewrite Nat.min_r by lia.
    now rewrite !firstn_all2, !skipn_all2 by lia.
Qed.

Lemma insertBlockAt_root (t : list Block) (parentId : option jsstring)
  (index : Z) (b : Block) :
  truthy parentId = false ->
  insertBlockAt t parentId index b
  = firstn (Z.to_nat (safeIndex index (length t))) t
      ++ b :: skipn (Z.to_nat (safeIndex index (length t))) t.
Proof.
  intros H. unfold insertBlockAt. rewrite H. cbn [negb].
  unfold splice_insert, safeIndex.
  destruct (Z.max 0 (Z.min index (Z.of_nat (length t))) <? 0)%Z eqn:E;
    [apply Z.ltb_lt in E; lia|].
  now rewrite Z.min_l by lia.
Qed.

(** X5.  Without a parent id, and with the empty string as parent id, the
    block goes into the root list at the index clamped to the list: at the
    front for an index of zero or less, at the end for an index of the
    length or more.  Every other block stays, the tree grows by the blocks
    of the inserted subtree, and when the id is new to the tree [findBlock]
    finds the inserted block. *)
Theorem insertBlockAt_root_clamps :
  forall (t : list Block) (index : Z) (b : Block),
    insertBlockAt t (Some []) index b = insertBlockAt t None index b
    /\ ((index <= 0)%Z -> insertBlockAt t None index b = b :: t)
    /\ ((Z.of_nat (length t) <= index)%Z -> insertBlockAt t None index b = t ++ [b])
    /\ ((0 <= index <= Z.of_nat (length t))%Z ->
        insertBlockAt t None index b
        = firstn (Z.to_nat index) t ++ b :: skipn (Z.to_nat index) t)
    /\ count_blocks (insertBlockAt t None index b)
       = count_blocks t + count_blocks [b]
    /\ (~ In (block_id b) (ids t) ->
        findBlock (insertBlockAt t None index b) (block_id b) = Some b).
Proof.
  intros t index b. rewrite (insertBlockAt_root t (Some []) index b eq_refl).
  rewrite (insertBlockAt_root t None index b eq_refl).
  split; [reflexivity|]. unfold safeIndex. repeat split.
  - intros H. now replace (Z.to_nat (Z.max 0 (Z.min index (Z.of_nat (length t)))))
      with 0 by lia.
  - intros H. replace (Z.to_nat (Z.max 0 (Z.min index (Z.of_nat (length t)))))
      with (length t) by lia.
    now rewrite firstn_all, skipn_all.
  - intros H. now replace (Z.to_nat (Z.max 0 (Z.min index (Z.of_nat (length t)))))
      with (Z.to_nat index) by lia.
  - rewrite !count_blocks_ids.
    rewrite (Permutation_length (ids_splice _ b t)), length_app. lia.
  - intros Hid. rewrite findBlock_app.
    assert (H1 : findBlock (firstn (Z.to_nat (Z.max 0 (Z.min index (Z.of_nat (length t))))) t)
                   (block_id b) = None).
    { apply findBlock_none_iff. intros Hin. apply Hid.
      rewrite <- (firstn_skipn (Z.to_nat (Z.max 0 (Z.min index (Z.of_nat (length t))))) t).
      rewrite ids_app. apply in_or_app. now left. }
    rewrite H1, findBlock_cons. now rewrite streq_refl.
Qed.

Lemma insertBlockAt_root_clamps_witness :
  ~ In (block_id (sampleText "new")) (ids sampleTree)
  /\ findBlock (insertBlockAt sampleTree None 7 (sampleText "new")) (js "new")
     = Some (sampleText "new").
Proof.
  assert (H : ~ In (block_id (sampleText "new")) (ids sampleTree)).
  { vm_compute. intuition discriminate. }
  split; [exact H|].
  exact (proj2 (proj2 (proj2 (proj2 (proj2
           (insertBlockAt_root_clamps sampleTree 7 (sampleText "new")))))) H).
Defined.

Lemma no_group_absent (p : jsstring) (t : list Block) :
  ~ In p (ids t) -> no_group_with p t.
Proof.
  intros H g Hg _ E. apply H. rewrite <- E. now apply in_nodes_ids.
Qed.

Lemma insertInto_absent (p : jsstring) (index : Z) (b : Block) (t : list Block) :
  ~ In p (ids t) -> map (insertInto p index b) t = t.
Proof. intros H. now apply insertInto_no_group, no_group_absent. Qed.

Lemma insertInto_at_path (p : jsstring) (index : Z) (b : Block) (path : list nat) :
  forall t l i ti ch,
    unique_ids t -> list_at path t = Some l ->
    nth_error l i = Some (GroupBlock p ti ch) ->
    map (insertInto p index b) t
    = modify_at (path ++ [i])
        (splice_insert (safeIndex index (length ch)) b) t.
Proof.
  induction path as [|j path IH]; intros t l i ti ch Hu Hl Hg; simpl in Hl.
  - injection Hl as Hl. subst l. cbn [app modify_at]. rewrite Hg.
    destruct (nth_error_split_at _ _ _ Hg) as (l1 & l2 & E & Hlen & Hf & Hs).
    rewrite Hf, Hs. rewrite E at 1. rewrite E in Hu.
    assert (Hin : In p (ids [GroupBlock p ti ch])).
    { rewrite ids_single_group. now left. }
    destruct (unique_ids_middle _ _ _ _ Hu Hin) as (H1 & H2 & _).
    rewrite map_app. cbn [map insertInto]. rewrite streq_refl.
    now rewrite (insertInto_absent _ _ _ _ H1), (insertInto_absent _ _ _ _ H2).
  - destruct (nth_error t j) as [[| | | |gi gt ch']|] eqn:E; try discriminate.
    cbn [app modify_at]. rewrite E.
    assert (Hbn := list_at_nodes _ _ _ _ _ Hl Hg).
    apply in_nodes_ids in Hbn. cbn [block_id] in Hbn.
    destruct (nth_error_split_at _ _ _ E) as (l1 & l2 & E' & Hlen & Hf & Hs).
    rewrite Hf, Hs. rewrite E' at 1. rewrite E' in Hu.
    assert (Hin : In p (ids [GroupBlock gi gt ch'])).
    { rewrite ids_single_group. now right. }
    destruct (unique_ids_middle _ _ _ _ Hu Hin) as (H1 & H2 & Hgr).
    destruct (unique_ids_group _ _ _ _ Hgr Hbn) as [Hne Hch].
    rewrite map_app. cbn [map insertInto].
    apply streq_false_iff in Hne. rewrite Hne.
    rewrite (insertInto_absent _ _ _ _ H1), (insertInto_absent _ _ _ _ H2).
    now rewrite (IH ch' l i ti ch Hch Hl Hg).
Qed.

(** X6.  In a tree with unique ids, an insertion with the id of a group of
    the tree puts the block into the children of that group, at the index
    clamped to them, and changes nothing else. *)
Theorem insertBlockAt_into_group :
  forall (t : list Block) (path : list nat) (l : list Block) (i : nat)
         (p : jsstring) (ti : option jsstring) (ch : list Block)
         (index : Z) (b : Block),
    unique_ids t ->
    p <> [] ->
    list_at path t = Some l ->
    nth_error l i = Some (GroupBlock p ti ch) ->
    insertBlockAt t (Some p) index b
    = modify_at (path ++ [i])
        (fun children =>
           firstn (Z.to_nat (safeIndex index (length ch))) children
             ++ b :: skipn (Z.to_nat (safeIndex index (length ch))) children)
        t
    /\ list_at (path ++ [i]) t = Some ch.
Proof.
  intros t path l i p ti ch index b Hu Hp Hl Hg. split.
  - unfold insertBlockAt.
    assert (Htr : truthy (Some p) = true) by (destruct p; [congruence|reflexivity]).
    rewrite Htr. cbn [negb].
    rewrite (insertInto_at_path p index b path t l i ti ch Hu Hl Hg).
    clear. revert t. induction (path ++ [i]) as [|j q IH]; intros t.
    + cbn [modify_at]. unfold splice_insert, safeIndex.
      set (c := Z.max 0 (Z.min index (Z.of_nat (length ch)))).
      destruct (c <? 0)%Z eqn:E; [apply Z.ltb_lt in E; lia|].
      destruct (Nat.le_gt_cases (Z.to_nat c) (length t)) as [H|H].
      * now rewrite Z.min_l by lia.
      * rewrite Z.min_r by lia. rewrite Nat2Z.id.
        now rewrite !firstn_all2, !skipn_all2 by lia.
    + cbn [modify_at]. destruct (nth_error t j) as [[| | | |gi gt c']|]; try reflexivity.
      now rewrite IH.
  - clear Hu Hp. revert t Hl. induction path as [|j path IH]; intros t Hl.
    + cbn in Hl. injection Hl as ->. cbn [app list_at]. now rewrite Hg.
    + cbn [app list_at] in *.
      destruct (nth_error t j) as [[| | | |gi gt c']|]; try discriminate.
      now apply IH.
Qed.

Lemma insertBlockAt_into_group_witness :
  unique_ids sampleTree
  /\ insertBlockAt sampleTree (Some (js "g2")) 5 (sampleText "new")
     = [ sampleText "t1";
         sampleGroup "g1"
           [ sampleText "a"; sampleText "b";
             sampleGroup "g2" [sampleQuestion "q"; sampleText "new"] ] ].
Proof.
  assert (Hu : unique_ids sampleTree) by (unfold unique_ids; solve_concrete_NoDup).
  split; [exact Hu|].
  exact (proj1 (insertBlockAt_into_group sampleTree [1]
                  [sampleText "a"; sampleText "b"; sampleGroup "g2" [sampleQuestion "q"]]
                  2 (js "g2") (Some (js "New Group")) [sampleQuestion "q"]
                  5 (sampleText "new") Hu ltac:(discriminate) eq_refl eq_refl)).
Defined.

(** *** What a drop does to the ids *)

Lemma perm_into_children {A : Type} (g : A) (X B C R : list A) :
  Permutation X (B ++ C) -> Permutation (g :: X ++ R) (B ++ g :: C ++ R).
Proof.
  intros H. rewrite <- Permutation_middle. apply perm_skip.
  rewrite app_assoc. now apply Permutation_app_tail.
Qed.

Lemma perm_into_rest {A : Type} (g : A) (Y B C R : list A) :
  Permutation Y (B ++ R) -> Permutation (g :: C ++ Y) (B ++ g :: C ++ R).
Proof.
  intros H. rewrite <- Permutation_middle. apply perm_skip.
  rewrite H. rewrite !app_assoc. apply Permutation_app_tail, Permutation_app_comm.
Qed.

(** In a tree with unique ids the block is inserted once, into the group
    that has the id, or not at all. *)
Lemma insertInto_ids (p : jsstring) (index : Z) (b : Block) (t : list Block) :
  NoDup (ids t) ->
  ids (map (insertInto p index b) t) = ids t
  \/ (In p (ids t)
      /\ Permutation (ids (map (insertInto p index b) t)) (ids [b] ++ ids t)).
Proof.
  induction t as [|c rest IHch IHrest] using forest_ind; intros H.
  - now left.
  - rewrite ids_cons in H. apply NoDup_cons_iff in H as [Hc H].
    assert (Hch := NoDup_app_remove_r _ _ H).
    assert (Hrs := NoDup_app_remove_l _ _ H).
    cbn [map]. rewrite (ids_cons c rest).
    destruct c as [i co|i|i u ti|i q|gi gt ch];
      try (cbn [insertInto]; rewrite ids_cons; cbn [block_id block_children] in *;
           destruct (IHrest Hrs) as [E|[Hin Hp]];
           [ left; now rewrite E
           | right; split; [right; now apply in_or_app; right|];
             change (ids []) with (@nil jsstring); cbn [app];
             rewrite <- Permutation_middle; now apply perm_skip ]).
    cbn [insertInto block_id block_children] in *.
    destruct (streq gi p) eqn:E.
    + apply streq_true_iff in E. subst gi. right. split; [now left|].
      rewrite insertInto_absent
        by (intros Hin; apply Hc; apply in_or_app; now right).
      rewrite ids_cons. cbn [block_id block_children].
      destruct (splice_insert_shape (safeIndex index (length ch)) b ch)
        as (k & _ & ->).
      apply perm_into_children, ids_splice.
    + rewrite ids_cons. cbn [block_id block_children].
      destruct (IHch Hch) as [Ec|[Hinc Hpc]], (IHrest Hrs) as [Er|[Hinr Hpr]].
      * left. now rewrite Ec, Er.
      * right. split; [right; apply in_or_app; now right|].
        rewrite Ec. now apply perm_into_rest.
      * right. split; [right; apply in_or_app; now left|].
        rewrite Er. now apply perm_into_children.
      * exfalso. exact (NoDup_app_disjoint _ _ H p Hinc Hinr).
Qed.

Lemma insertBlockAt_ids (cur : list Block) (parentId : option jsstring)
  (index : Z) (mb : Block) :
  NoDup (ids cur) ->
  ids (insertBlockAt cur parentId index mb) = ids cur
  \/ Permutation (ids (insertBlockAt cur parentId index mb)) (ids [mb] ++ ids cur).
Proof.
  intros H. destruct (truthy parentId) eqn:Et.
  - unfold insertBlockAt. rewrite Et. cbn [negb].
    destruct parentId as [p|]; [|now left].
    destruct (insertInto_ids p index mb cur H) as [E|[_ Hp]]; [now left | now right].
  - right. rewrite (insertBlockAt_root cur parentId index mb Et). apply ids_splice.
Qed.

(** X7.  A drop that names no block of the tree changes nothing: a drag
    item for an existing block without an id, or with an id that no block
    of the tree has, and a palette item without a payload, all give back
    the worksheet, and no id is generated. *)
Theorem handleDragDrop_stale_item :
  forall (prev : WorksheetData) (s : IdSupply) (item : DragItem)
         (targetId targetParentId : option jsstring) (targetIndex : option Z),
    match item_type item with
    | ItemBlock =>
        match item_id item with
        | Some id => ~ In id (ids (blocks prev))
        | None => True
        end
    | ItemNewBlock => item_payload item = None
    end ->
    handleDragDrop item targetId targetParentId targetIndex prev s = (prev, s).
Proof.
  intros prev s item targetId targetParentId targetIndex H.
  unfold handleDragDrop. destruct (item_type item).
  - destruct (item_id item) as [id|]; [|reflexivity].
    apply findBlock_none_iff in H. now rewrite H.
  - now rewrite H.
Qed.

Lemma handleDragDrop_stale_item_witness :
  ~ In (js "gone") (ids sampleTree)
  /\ handleDragDrop (blockItem "gone" 0 None) None None (Some 0%Z)
       (sampleSheet sampleTree) numbered
     = (sampleSheet sampleTree, numbered).
Proof.
  assert (H : ~ In (js "gone") (ids sampleTree)).
  { vm_compute. intuition discriminate. }
  split; [exact H|].
  exact (handleDragDrop_stale_item (sampleSheet sampleTree) numbered
           (blockItem "gone" 0 None) None None (Some 0%Z) H).
Defined.

Lemma found_cut (t : list Block) (id : jsstring) (found : Block) :
  unique_ids t -> findBlock t id = Some found ->
  exists l1 l2,
    ids t = l1 ++ ids [found] ++ l2
    /\ ids (removeBlockRecursive t id) = l1 ++ l2.
Proof.
  intros Hu Hf. destruct (findBlock_some t id found Hf) as [Hin <-].
  now apply remove_cuts_subtree.
Qed.

(** The blocks of the worksheet a drop of an existing block gives. *)
Lemma handleDragDrop_block_ids (prev : WorksheetData) (s : IdSupply)
  (item : DragItem) (targetId targetParentId : option jsstring)
  (targetIndex : option Z) :
  unique_ids (blocks prev) ->
  item_type item = ItemBlock ->
  snd (handleDragDrop item targetId targetParentId targetIndex prev s) = s
  /\ unique_ids (blocks (fst (handleDragDrop item targetId targetParentId
                                targetIndex prev s)))
  /\ incl (ids (blocks (fst (handleDragDrop item targetId targetParentId
                               targetIndex prev s))))
          (ids (blocks prev)).
Proof.
  intros Hu Hty. unfold handleDragDrop. rewrite Hty.
  destruct (item_id item) as [id|]; [|now repeat split; try apply incl_refl].
  destruct (findBlock (blocks prev) id) as [found|] eqn:Hf;
    [|now repeat split; try apply incl_refl].
  unfold ret. cbn [fst snd]. split; [reflexivity|].
  destruct (is_divider found && truthy targetParentId);
    [now split; try apply incl_refl|].
  cbn [with_blocks blocks].
  destruct (found_cut _ _ _ Hu Hf) as (l1 & l2 & E1 & E2).
  assert (Hcur : NoDup (ids (removeBlockRecursive (blocks prev) id)))
    by now apply remove_keeps_NoDup.
  match goal with
  | |- context [insertBlockAt ?c ?p ?i ?m] =>
      destruct (insertBlockAt_ids c p i m Hcur) as [E|Hp]
  end.
  - unfold unique_ids. rewrite E. split; [exact Hcur | apply remove_ids_incl].
  - assert (Hperm : Permutation (ids [found] ++ ids (removeBlockRecursive (blocks prev) id))
                      (ids (blocks prev))).
    { rewrite E1, E2. rewrite !app_assoc.
      apply Permutation_app_tail, Permutation_app_comm. }
    split.
    + unfold unique_ids. apply (Permutation_NoDup (l := ids (blocks prev)));
        [|exact Hu].
      symmetry. now rewrite Hp.
    + intros x Hx. apply (Permutation_in x Hperm).
      now apply (Permutation_in x Hp).
Qed.

(** X8.  In a tree with unique ids, the move of an existing block invents
    no id and keeps the ids unique, wherever it is dropped, and generates
    no id.  Dropped without a parent id the block is never lost: the tree
    keeps exactly its ids and its size, and [findBlock] returns the moved
    block as it was, subtree included. *)
Theorem handleDragDrop_move_keeps_ids :
  forall (prev : WorksheetData) (s : IdSupply) (item : DragItem)
         (targetId targetParentId : option jsstring) (targetIndex : option Z)
         (id : jsstring) (found : Block),
    unique_ids (blocks prev) ->
    item_type item = ItemBlock ->
    item_id item = Some id ->
    findBlock (blocks prev) id = Some found ->
    exists next,
      handleDragDrop item targetId targetParentId targetIndex prev s = (next, s)
      /\ unique_ids (blocks next)
      /\ incl (ids (blocks next)) (ids (blocks prev))
      /\ (truthy targetParentId = false ->
          Permutation (ids (blocks next)) (ids (blocks prev))
          /\ count_blocks (blocks next) = count_blocks (blocks prev)
          /\ findBlock (blocks next) id = Some found).
Proof.
  intros prev s item targetId targetParentId targetIndex id found Hu Hty Hid Hf.
  destruct (handleDragDrop_block_ids prev s item targetId targetParentId
              targetIndex Hu Hty) as (Hs & Hnd & Hincl).
  destruct (handleDragDrop item targetId targetParentId targetIndex prev s)
    as [next s'] eqn:E. cbn [fst snd] in *. subst s'.
  exists next. split; [reflexivity|]. split; [exact Hnd|]. split; [exact Hincl|].
  intros Htr. unfold handleDragDrop in E. rewrite Hty, Hid, Hf in E.
  rewrite Htr, andb_false_r in E. unfold ret in E. injection E as <-.
  cbn [with_blocks blocks].
  rewrite (insertBlockAt_root _ targetParentId _ found Htr).
  destruct (found_cut _ _ _ Hu Hf) as (l1 & l2 & E1 & E2).
  repeat split.
  - rewrite ids_splice, E1, E2. rewrite !app_assoc.
    apply Permutation_app_tail, Permutation_app_comm.
  - rewrite !count_blocks_ids. rewrite (Permutation_length (ids_splice _ _ _)).
    rewrite E1, E2, !length_app. lia.
  - rewrite findBlock_app.
    match goal with
    | |- context [findBlock (firstn ?k ?c) id] =>
        assert (H1 : findBlock (firstn k c) id = None)
    end.
    { apply findBlock_none_iff. intros Hin.
      apply (remove_gone id (blocks prev)).
      match goal with
      | H : In id (ids (firstn ?k ?c)) |- _ =>
          rewrite <- (firstn_skipn k c), ids_app; apply in_or_app; now left
      end. }
    rewrite H1, findBlock_cons.
    destruct (findBlock_some _ _ _ Hf) as [_ Hfid]. now rewrite Hfid, streq_refl.
Qed.

Lemma handleDragDrop_move_keeps_ids_witness :
  unique_ids sampleTree
  /\ exists next,
      handleDragDrop (blockItem "g2" 2 (Some (js "g1"))) None None (Some 0%Z)
        (sampleSheet sampleTree) numbered = (next, numbered)
      /\ unique_ids (blocks next)
      /\ count_blocks (blocks next) = count_blocks sampleTree.
Proof.
  assert (Hu : unique_ids sampleTree) by (unfold unique_ids; solve_concrete_NoDup).
  split; [exact Hu|].
  destruct (handleDragDrop_move_keeps_ids (sampleSheet sampleTree) numbered
              (blockItem "g2" 2 (Some (js "g1"))) None None (Some 0%Z)
              (js "g2") (sampleGroup "g2" [sampleQuestion "q"])
              Hu eq_refl eq_refl eq_refl)
    as (next & E & Hn & _ & Hroot).
  exists next. split; [exact E|]. split; [exact Hn|].
  exact (proj1 (proj2 (Hroot eq_refl))).
Defined.

(** *** The ids of the builder stay unique *)

Lemma createBlock_spec (type : BlockType) (qType : option QuestionType)
  (s : IdSupply) :
  snd (createBlock type qType s) = mkSupply (draw s) (S (drawn s))
  /\ block_id (fst (createBlock type qType s)) = draw s (drawn s)
  /\ block_children (fst (createBlock type qType s)) = []
  /\ block_type (fst (createBlock type qType s)) = type.
Proof. destruct type; repeat split. Qed.

Lemma wrapped_incl (t : list Block) : incl (wrapped t) (nodes t).
Proof.
  unfold wrapped. induction t as [|b rest IH]; intros x Hx; [destruct Hx|].
  cbn [filter] in Hx. rewrite nodes_cons.
  destruct (negb (is_divider b)).
  - rewrite nodes_cons in Hx. destruct Hx as [Hx|Hx]; [now left|]. right.
    apply in_app_or in Hx as [Hx|Hx]; apply in_or_app; [now left|].
    right. now apply IH.
  - right. apply in_or_app. right. now apply IH.
Qed.

(** A field edit of a block of a tree with unique ids leaves every id
    where it is. *)
Lemma update_ids (newData : Block) (t : list Block) :
  forall b, NoDup (ids t) -> In b (nodes t) ->
    block_id newData = block_id b ->
    block_children newData = block_children b ->
    ids (updateRecursive (block_id b) newData t) = ids t.
Proof.
  induction t as [|c rest IHch IHrest] using forest_ind;
    intros b Hnd Hb Hid Hch.
  - destruct Hb.
  - rewrite ids_cons in Hnd. assert (Hnd' := Hnd).
    apply NoDup_cons_iff in Hnd' as [Hc Hnd'].
    unfold updateRecursive. cbn [map].
    fold (updateRecursive (block_id b) newData rest).
    rewrite nodes_cons in Hb. rewrite (ids_cons c rest).
    destruct Hb as [<-|Hb].
    + rewrite updateNode_eq, streq_refl, ids_cons, Hid, Hch.
      rewrite update_absent; [reflexivity|].
      intros H. apply Hc. apply in_or_app. now right.
    + assert (Hne : streq (block_id c) (block_id b) = false).
      { apply streq_false_iff. intros E. apply Hc. rewrite E.
        apply in_app_or in Hb as [Hb|Hb]; apply in_or_app;
          [left|right]; now apply in_nodes_ids. }
      destruct (updateNode_id_miss (block_id b) newData c Hne) as [Ei Ec].
      rewrite ids_cons, Ei, Ec. f_equal.
      apply in_app_or in Hb as [Hb|Hb].
      * rewrite (IHch b (NoDup_app_remove_r _ _ Hnd') Hb Hid Hch).
        rewrite update_absent; [reflexivity|].
        apply in_nodes_ids in Hb.
        exact (NoDup_app_disjoint _ _ Hnd' _ Hb).
      * rewrite (IHrest b (NoDup_app_remove_l _ _ Hnd') Hb Hid Hch).
        rewrite update_absent; [reflexivity|].
        apply in_nodes_ids in Hb. intros Hin.
        exact (NoDup_app_disjoint _ _ Hnd' _ Hin Hb).
Qed.

Lemma perm_pull (A X C D : list jsstring) (g : jsstring) :
  Permutation (A ++ (g :: X ++ C) ++ D) (X ++ A ++ (g :: C) ++ D).
Proof.
  cbn [app]. rewrite <- app_assoc.
  transitivity (A ++ X ++ g :: C ++ D).
  - apply Permutation_app_head, Permutation_middle.
  - rewrite !app_assoc. apply Permutation_app_tail, Permutation_app_comm.
Qed.

Lemma ids_modify_insert (x : Block) (k : nat) (path : list nat) :
  forall t l, list_at path t = Some l ->
    Permutation (ids (modify_at path (fun c => firstn k c ++ x :: skipn k c) t))
      (ids [x] ++ ids t).
Proof.
  induction path as [|j path IH]; intros t l Hl; cbn [modify_at].
  - apply ids_splice.
  - cbn [list_at] in Hl.
    destruct (nth_error t j) as [[| | | |gi gt ch]|] eqn:E; try discriminate.
    destruct (nth_error_split_at _ _ _ E) as (l1 & l2 & Et & _ & Hf & Hs).
    rewrite Hf, Hs. rewrite Et. rewrite !ids_middle, !ids_single_group.
    transitivity (ids l1 ++ (gi :: ids [x] ++ ids ch) ++ ids l2).
    + apply Permutation_app_head, Permutation_app_tail. constructor.
      exact (IH ch l Hl).
    + apply perm_pull.
Qed.

Lemma NoDup_map_draw (s : IdSupply) (a n : nat) :
  supply_injective s -> NoDup (map (draw s) (seq a n)).
Proof.
  intros Hinj. revert a. induction n as [|n IH]; intros a; cbn [seq map].
  - constructor.
  - constructor; [|apply IH]. intros Hin.
    apply in_map_iff in Hin as (m & E & Hm). apply in_seq in Hm.
    apply Hinj in E. lia.
Qed.

(** New ids from the generator, put anywhere among ids it returned
    earlier, keep the ids unique. *)
Lemma fresh_extension (s : IdSupply) (k : nat) (l l' : list jsstring) :
  supply_injective s ->
  NoDup l ->
  (forall x, In x l -> exists n, n < drawn s /\ x = draw s n) ->
  Permutation l' (map (draw s) (seq (drawn s) k) ++ l) ->
  NoDup l'
  /\ (forall x, In x l' -> exists n, n < drawn s + k /\ x = draw s n).
Proof.
  intros Hinj Hnd Hdr Hp. split.
  - apply (Permutation_NoDup (Permutation_sym Hp)).
    apply NoDup_app; [now apply NoDup_map_draw | exact Hnd|].
    intros x Hx Hxl. apply in_map_iff in Hx as (m & <- & Hm). apply in_seq in Hm.
    destruct (Hdr _ Hxl) as (n & Hn & E). apply Hinj in E. lia.
  - intros x Hx. apply (Permutation_in x Hp) in Hx.
    apply in_app_or in Hx as [Hx|Hx].
    + apply in_map_iff in Hx as (m & <- & Hm). apply in_seq in Hm.
      exists m. split; [lia | reflexivity].
    + destruct (Hdr _ Hx) as (n & Hn & E). exists n. split; [lia | exact E].
Qed.

Lemma step_keeps_unique_ids (e e' : Editor) :
  step e e' ->
  supply_injective (supply e) ->
  unique_ids (blocks (data e)) -> ids_drawn e ->
  draw (supply e') = draw (supply e)
  /\ unique_ids (blocks (data e')) /\ ids_drawn e'.
Proof.
  intros Hstep Hinj Hu Hd. unfold ids_drawn in *. destruct Hstep as
    [e type qType | e b newData Hb Hedit | e id | e b Hb
    | e item targetId targetParentId targetIndex | e | e t d].
  - unfold run, addBlock, bind, ret.
    destruct (createBlock_spec type qType (supply e)) as (Es & Ei & Ec & _).
    destruct (createBlock type qType (supply e)) as [nb s1].
    cbn [fst snd data supply blocks with_blocks] in *. subst s1.
    cbn [draw drawn]. split; [reflexivity|].
    assert (Hp : Permutation (ids (blocks (data e) ++ [nb]))
                   (map (draw (supply e)) (seq (drawn (supply e)) 1)
                      ++ ids (blocks (data e)))).
    { rewrite ids_app, ids_cons, Ei, Ec. cbn. apply Permutation_app_comm. }
    destruct (fresh_extension (supply e) 1 _ _ Hinj Hu Hd Hp) as [H1 H2].
    split; [exact H1|]. intros x Hx. destruct (H2 x Hx) as (n & Hn & E).
    exists n. split; [lia | exact E].
  - cbn [data supply updateBlock blocks]. split; [reflexivity|].
    destruct Hedit as (Hid & _ & Hch).
    rewrite (update_ids newData _ b Hu (wrapped_incl _ _ Hb) Hid Hch).
    unfold unique_ids. rewrite (update_ids newData _ b Hu (wrapped_incl _ _ Hb) Hid Hch).
    now split.
  - cbn [data supply removeBlock blocks]. split; [reflexivity|]. split.
    + now apply remove_keeps_NoDup.
    + intros x Hx. apply Hd. now apply (remove_ids_incl id).
  - unfold run, duplicateBlock, bind, ret.
    assert (Hcopy := duplicate_block b (supply e)).
    destruct (duplicateBlockHelper b (supply e)) as [copy s1].
    destruct Hcopy as (_ & Hids & Hs). subst s1.
    cbn [data supply blocks with_blocks draw drawn]. split; [reflexivity|].
    destruct (nodes_have_paths _ b (wrapped_incl _ _ Hb)) as (path & l & i & Hl & Hi).
    rewrite (insertAfter_at_path copy path _ l i b Hu Hl Hi).
    assert (Hp := ids_modify_insert copy (S i) path _ l Hl).
    rewrite Hids in Hp.
    exact (fresh_extension (supply e) _ _ _ Hinj Hu Hd Hp).
  - unfold run, handleDragDrop. destruct (item_type item) eqn:Hty.
    + assert (H := handleDragDrop_block_ids (data e) (supply e) item targetId
                     targetParentId targetIndex Hu Hty).
      unfold handleDragDrop in H. rewrite Hty in H.
      match goal with
      | H : snd ?m = _ /\ _ |- _ => destruct m as [next s1]
      end.
      cbn [fst snd data supply] in *. destruct H as (-> & Hn & Hincl).
      split; [reflexivity|]. split; [exact Hn|].
      intros x Hx. now apply Hd, Hincl.
    + destruct (item_payload item) as [payload|].
      2:{ unfold ret. cbn [data supply]. now repeat split. }
      unfold bind, ret.
      destruct (createBlock_spec (payload_type payload) (payload_qType payload)
                  (supply e)) as (Es & Ei & Ec & _).
      destruct (createBlock _ _ (supply e)) as [nb s1].
      cbn [fst snd data supply] in *. subst s1. cbn [draw drawn].
      split; [reflexivity|].
      assert (Hsame : unique_ids (blocks (data e))
                      /\ (forall x, In x (ids (blocks (data e))) ->
                            exists n, n < S (drawn (supply e))
                                      /\ x = draw (supply e) n)).
      { split; [exact Hu|]. intros x Hx. destruct (Hd x Hx) as (n & Hn & E).
        exists n. split; [lia | exact E]. }
      destruct (is_divider nb && truthy targetParentId); [exact Hsame|].
      cbn [with_blocks blocks].
      match goal with
      | |- context [insertBlockAt ?c ?p ?i ?m] =>
          destruct (insertBlockAt_ids c p i m Hu) as [E|Hp]
      end.
      * unfold unique_ids. rewrite E. exact Hsame.
      * assert (Hp' : Permutation
                        (ids (insertBlockAt (blocks (data e)) targetParentId
                                match
                                  match targetIndex with
                                  | Some i => Some i
                                  | None =>
                                      match targetId with
                                      | Some (c :: tid) =>
                                          if negb (findIndexInParent (c :: tid)
                                                     (blocks (data e)) targetParentId
                                                   =? -1)%Z
                                          then Some (findIndexInParent (c :: tid)
                                                       (blocks (data e)) targetParentId
                                                     + 1)%Z
                                          else None
                                      | _ => None
                                      end
                                  end
                                with
                                | Some i => i
                                | None => (-1)%Z
                                end nb))
                        (map (draw (supply e)) (seq (drawn (supply e)) 1)
                           ++ ids (blocks (data e)))).
        { rewrite Hp, ids_cons, Ei, Ec. reflexivity. }
        destruct (fresh_extension (supply e) 1 _ _ Hinj Hu Hd Hp') as [H1 H2].
        split; [exact H1|]. intros x Hx. destruct (H2 x Hx) as (n & Hn & E).
        exists n. split; [lia | exact E].
  - cbn [data supply with_blocks blocks]. split; [reflexivity|].
    split; [constructor | intros x []].
  - cbn [data supply blocks]. now repeat split.
Qed.

(** X9.  With a generator that never repeats an id, every worksheet the
    builder reaches from a new one has unique ids, and each of them is an
    id the generator returned: adding, editing, removing, duplicating and
    dropping never make two blocks share an id. *)
Theorem builder_keeps_ids_unique :
  forall e : Editor,
    reachable e ->
    supply_injective (supply e) ->
    unique_ids (blocks (data e)) /\ ids_drawn e.
Proof.
  intros e Hr. induction Hr as [s|e e' _ IH Hstep]; intros Hinj.
  - split; [constructor | intros x []].
  - assert (Hdraw : draw (supply e') = draw (supply e)).
    { destruct Hstep as
        [e type qType | e b newData Hb Hedit | e id | e b Hb
        | e item targetId targetParentId targetIndex | e | e t d];
        unfold run; cbn [supply]; try reflexivity.
      - unfold duplicateBlock, bind, ret.
        assert (Hcopy := duplicate_block b (supply e)).
        destruct (duplicateBlockHelper b (supply e)) as [copy s1].
        destruct Hcopy as (_ & _ & ->). reflexivity.
      - unfold handleDragDrop. destruct (item_type item).
        + destruct (item_id item); [|reflexivity].
          now destruct (findBlock (blocks (data e)) j).
        + destruct (item_payload item) as [payload|]; [|reflexivity].
          unfold bind, ret.
          destruct (createBlock_spec (payload_type payload) (payload_qType payload)
                      (supply e)) as (Es & _).
          destruct (createBlock _ _ (supply e)) as [nb s1].
          cbn [snd supply] in *. now subst s1. }
    assert (Hinj' : supply_injective (supply e)).
    { intros n m E. apply Hinj. now rewrite Hdraw. }
    destruct (IH Hinj') as [Hu Hd].
    destruct (step_keeps_unique_ids e e' Hstep Hinj' Hu Hd) as (_ & H1 & H2).
    now split.
Qed.

Lemma fourBlocks_reachable : reachable fourBlocks.
Proof.
  unfold fourBlocks. cbv zeta.
  repeat (eapply reachable_step; [|apply step_add]).
  apply reachable_init.
Qed.

Lemma numbered_injective (k : nat) :
  supply_injective (mkSupply (draw numbered) k).
Proof.
  intros n m E. cbn [draw numbered] in E. injection E as E. lia.
Qed.

Lemma builder_keeps_ids_unique_witness :
  reachable fourBlocks
  /\ supply_injective (supply fourBlocks)
  /\ unique_ids (blocks (data fourBlocks)).
Proof.
  split; [exact fourBlocks_reachable|].
  split; [exact (numbered_injective 4)|].
  exact (proj1 (builder_keeps_ids_unique fourBlocks fourBlocks_reachable
                  (numbered_injective 4))).
Defined.

(** *** Duplicating, and taking the copy away again *)

Lemma remove_inserted (x : Block) (k : nat) (path : list nat) :
  forall t l, list_at path t = Some l ->
    ~ In (block_id x) (ids t) ->
    removeBlockRecursive
      (modify_at path (fun c => firstn k c ++ x :: skipn k c) t) (block_id x)
    = t.
Proof.
  induction path as [|j path IH]; intros t l Hl Hx; cbn [modify_at].
  - rewrite <- (firstn_skipn k t), ids_app in Hx.
    rewrite removeBlockRecursive_app, removeBlockRecursive_cons, streq_refl.
    rewrite !remove_absent.
    + apply firstn_skipn.
    + intros H. apply Hx, in_or_app. now right.
    + intros H. apply Hx, in_or_app. now left.
  - cbn [list_at] in Hl.
    destruct (nth_error t j) as [[| | | |gi gt ch]|] eqn:E; try discriminate.
    destruct (nth_error_split_at _ _ _ E) as (l1 & l2 & Et & _ & Hf & Hs).
    rewrite Hf, Hs. rewrite Et, ids_middle, ids_single_group in Hx.
    assert (H1 : ~ In (block_id x) (ids l1)).
    { intros H. apply Hx, in_or_app. now left. }
    assert (H2 : ~ In (block_id x) (ids l2)).
    { intros H. apply Hx, in_or_app. right. apply in_or_app. now right. }
    assert (Hc : ~ In (block_id x) (ids ch)).
    { intros H. apply Hx, in_or_app. right. apply in_or_app. left. now right. }
    assert (Hg : streq gi (block_id x) = false).
    { apply streq_false_iff. intros Eg. apply Hx, in_or_app. right.
      apply in_or_app. left. now left. }
    rewrite removeBlockRecursive_app, removeBlockRecursive_cons.
    cbn [block_id]. rewrite Hg, removeNode_group, (IH ch l Hl Hc).
    rewrite (remove_absent _ l1 H1), (remove_absent _ l2 H2). now rewrite Et.
Qed.

Lemma with_blocks_same (prev : WorksheetData) :
  with_blocks prev (blocks prev) = prev.
Proof. now destruct prev. Qed.

(** X10.  In a tree with unique ids, with a generator that returns none of
    them, a duplication makes the tree larger by the size of the duplicated
    subtree and takes one id for each of its blocks; the copy has the first
    of these ids, and removing that id gives back the worksheet as it was
    before the duplication. *)
Theorem duplicate_then_remove :
  forall (prev : WorksheetData) (s : IdSupply) (b : Block),
    unique_ids (blocks prev) ->
    fresh_for s (blocks prev) ->
    In b (nodes (blocks prev)) ->
    removeBlock (draw s (drawn s)) (fst (duplicateBlock b prev s)) = prev
    /\ count_blocks (blocks (fst (duplicateBlock b prev s)))
       = count_blocks (blocks prev) + count_blocks [b]
    /\ snd (duplicateBlock b prev s)
       = mkSupply (draw s) (drawn s + count_blocks [b]).
Proof.
  intros prev s b Hu Hfresh Hb.
  assert (Hcopy := duplicate_block b s).
  unfold duplicateBlock, bind, ret.
  destruct (duplicateBlockHelper b s) as [copy s1].
  destruct Hcopy as (_ & Hids & Hs). cbn [fst snd].
  destruct (nodes_have_paths _ b Hb) as (path & l & i & Hl & Hi).
  rewrite (insertAfter_at_path copy path _ l i b Hu Hl Hi).
  assert (Hid : block_id copy = draw s (drawn s)).
  { rewrite count_blocks_single, (ids_cons copy []) in Hids.
    cbn [seq map] in Hids. now injection Hids. }
  assert (Hnew : ~ In (block_id copy) (ids (blocks prev))).
  { rewrite Hid. apply Hfresh. lia. }
  unfold insert_after. repeat split.
  - unfold removeBlock, with_blocks. cbn [blocks title description_ design].
    rewrite <- Hid.
    rewrite (remove_inserted copy (S i) path _ l Hl Hnew). now destruct prev.
  - cbn [with_blocks blocks]. rewrite !count_blocks_ids.
    rewrite (Permutation_length (ids_modify_insert copy (S i) path _ l Hl)).
    rewrite length_app, Hids, length_map, length_seq, <- !count_blocks_ids. lia.
  - exact Hs.
Qed.

Lemma duplicate_then_remove_witness :
  unique_ids (blocks (sampleSheet sampleTree))
  /\ removeBlock (draw numbered (drawn numbered))
       (fst (duplicateBlock (sampleGroup "g2" [sampleQuestion "q"])
               (sampleSheet sampleTree) numbered))
     = sampleSheet sampleTree.
Proof.
  assert (Hu : unique_ids (blocks (sampleSheet sampleTree))).
  { unfold unique_ids. solve_concrete_NoDup. }
  split; [exact Hu|].
  apply (duplicate_then_remove (sampleSheet sampleTree) numbered
           (sampleGroup "g2" [sampleQuestion "q"]) Hu).
  - intros n _ H. vm_compute in H. intuition discriminate.
  - vm_compute. tauto.
Defined.

(** X11.  Duplicating a block whose id is nowhere in the tree leaves the
    worksheet as it is; the copy is made all the same, and its ids are
    used up. *)
Theorem duplicate_stale_block :
  forall (prev : WorksheetData) (s : IdSupply) (b : Block),
    ~ In (block_id b) (ids (blocks prev)) ->
    duplicateBlock b prev s
    = (prev, mkSupply (draw s) (drawn s + count_blocks [b])).
Proof.
  intros prev s b H.
  assert (Hcopy := duplicate_block b s).
  unfold duplicateBlock, bind, ret.
  destruct (duplicateBlockHelper b s) as [copy s1].
  destruct Hcopy as (_ & _ & ->).
  now rewrite (insertAfter_absent _ copy _ H), with_blocks_same.
Qed.

Lemma duplicate_stale_block_witness :
  ~ In (block_id (sampleText "gone")) (ids (blocks (sampleSheet sampleTree)))
  /\ fst (duplicateBlock (sampleText "gone") (sampleSheet sampleTree) numbered)
     = sampleSheet sampleTree.
Proof.
  assert (H : ~ In (block_id (sampleText "gone"))
                (ids (blocks (sampleSheet sampleTree)))).
  { vm_compute. intuition discriminate. }
  split; [exact H|].
  now rewrite (duplicate_stale_block (sampleSheet sampleTree) numbered
                 (sampleText "gone") H).
Defined.

(** *** Drops at the root: from the palette, after a target, on a page *)

Lemma cut_at_length {A : Type} (l1 l2 : list A) :
  firstn (length l1) (l1 ++ l2) = l1 /\ skipn (length l1) (l1 ++ l2) = l2.
Proof.
  split.
  - now rewrite firstn_app, Nat.sub_diag, firstn_all, firstn_O, app_nil_r.
  - now rewrite skipn_app, Nat.sub_diag, skipn_all.
Qed.

Lemma insertBlockAt_at (l1 l2 : list Block) (b : Block) :
  insertBlockAt (l1 ++ l2) None (Z.of_nat (length l1)) b = l1 ++ b :: l2.
Proof.
  rewrite (insertBlockAt_root _ None _ b eq_refl). unfold safeIndex.
  rewrite length_app.
  replace (Z.to_nat _) with (length l1) by lia.
  destruct (cut_at_length l1 l2) as [-> ->]. reflexivity.
Qed.

Lemma insertBlockAt_after (l1 l2 : list Block) (tgt b : Block) :
  insertBlockAt (l1 ++ tgt :: l2) None (Z.of_nat (length l1) + 1) b
  = l1 ++ tgt :: b :: l2.
Proof.
  assert (H := insertBlockAt_at (l1 ++ [tgt]) l2 b).
  rewrite length_app, <- !app_assoc in H. cbn [app length] in H.
  replace (Z.of_nat (length l1) + 1)%Z with (Z.of_nat (length l1 + 1)) by lia.
  exact H.
Qed.

Lemma insertBlockAt_front (t : list Block) (index : Z) (b : Block) :
  (index <= 0)%Z -> insertBlockAt t None index b = b :: t.
Proof.
  intros H. rewrite (insertBlockAt_root _ None _ b eq_refl). unfold safeIndex.
  now replace (Z.to_nat _) with 0 by lia.
Qed.

Lemma is_divider_type (b : Block) :
  is_divider b = true <-> block_type b = TyDivider.
Proof. destruct b; cbn; split; congruence. Qed.

(** X12.  A drop from the palette makes one block of the type of the
    payload, without children, under the next id of the generator, and
    takes that id whatever becomes of the block.  Without a parent id the
    block always lands in the root list, between the blocks that were
    there; a page break aimed at a parent is refused and the worksheet
    stays as it was. *)
Theorem handleDragDrop_new_block :
  forall (prev : WorksheetData) (s : IdSupply) (item : DragItem)
         (payload : Payload)
         (targetId targetParentId : option jsstring) (targetIndex : option Z),
    item_type item = ItemNewBlock ->
    item_payload item = Some payload ->
    let nb := fst (createBlock (payload_type payload) (payload_qType payload) s) in
    let r := handleDragDrop item targetId targetParentId targetIndex prev s in
    snd r = mkSupply (draw s) (S (drawn s))
    /\ block_id nb = draw s (drawn s)
    /\ block_type nb = payload_type payload
    /\ block_children nb = []
    /\ (payload_type payload = TyDivider -> truthy targetParentId = true ->
        fst r = prev)
    /\ (truthy targetParentId = false ->
        exists k, k <= length (blocks prev)
                  /\ blocks (fst r)
                     = firstn k (blocks prev) ++ nb :: skipn k (blocks prev)).
Proof.
  intros prev s item payload targetId targetParentId targetIndex Hty Hp.
  cbv zeta. unfold handleDragDrop. rewrite Hty, Hp. unfold bind, ret.
  destruct (createBlock_spec (payload_type payload) (payload_qType payload) s)
    as (Es & Ei & Ec & Et).
  destruct (createBlock (payload_type payload) (payload_qType payload) s)
    as [nb s1].
  cbn [fst snd] in *. repeat split; try assumption.
  - intros Hd Htr. rewrite <- Et in Hd. apply is_divider_type in Hd.
    now rewrite Hd, Htr.
  - intros Htr. rewrite Htr, andb_false_r. cbn [with_blocks blocks].
    rewrite (insertBlockAt_root _ targetParentId _ nb Htr).
    eexists. split; [|reflexivity]. unfold safeIndex. lia.
Qed.

Lemma handleDragDrop_new_block_witness :
  item_type (paletteItem questionPayload) = ItemNewBlock
  /\ snd (handleDragDrop (paletteItem questionPayload) None None (Some 1%Z)
            (sampleSheet twoPages) numbered)
     = mkSupply (draw numbered) (S (drawn numbered)).
Proof.
  split; [reflexivity|].
  exact (proj1 (handleDragDrop_new_block (sampleSheet twoPages) numbered
                  (paletteItem questionPayload) questionPayload
                  None None (Some 1%Z) eq_refl eq_refl)).
Defined.

(** X13.  A move that names a target and gives no index (the lower half
    of a page) puts the block right after the first root block with the
    target's id, as the root list is once the moved block is taken out.
    When no root block has that id any more the index falls back to -1 and
    the block goes to the front of the worksheet; that is what happens to a
    block dropped with its own id as the target. *)
Theorem handleDragDrop_after_target :
  forall (prev : WorksheetData) (s : IdSupply) (item : DragItem)
         (id tid : jsstring) (found : Block),
    item_type item = ItemBlock ->
    item_id item = Some id ->
    findBlock (blocks prev) id = Some found ->
    tid <> [] ->
    let cur := removeBlockRecursive (blocks prev) id in
    let r := handleDragDrop item (Some tid) None None prev s in
    (forall l1 tgt l2,
        cur = l1 ++ tgt :: l2 -> block_id tgt = tid ->
        (forall x, In x l1 -> block_id x <> tid) ->
        r = (with_blocks prev (l1 ++ tgt :: found :: l2), s))
    /\ ((forall x, In x cur -> block_id x <> tid) ->
        r = (with_blocks prev (found :: cur), s))
    /\ (tid = id -> r = (with_blocks prev (found :: cur), s)).
Proof.
  intros prev s item id tid found Hty Hid Hf Htid. cbv zeta.
  unfold handleDragDrop. rewrite Hty, Hid, Hf. unfold ret.
  rewrite andb_false_r.
  destruct tid as [|c tid]; [congruence|].
  unfold findIndexInParent. cbn [truthy negb].
  assert (Hfront : (forall x, In x (removeBlockRecursive (blocks prev) id) ->
                              block_id x <> c :: tid) ->
                   (with_blocks prev
                      (insertBlockAt (removeBlockRecursive (blocks prev) id) None
                         match
                           (if negb (findIndex (removeBlockRecursive (blocks prev) id)
                                       (c :: tid) =? -1)%Z
                            then Some (findIndex (removeBlockRecursive (blocks prev) id)
                                         (c :: tid) + 1)%Z
                            else None)
                         with
                         | Some i => i
                         | None => (-1)%Z
                         end found), s)
                   = (with_blocks prev
                        (found :: removeBlockRecursive (blocks prev) id), s)).
  { intros Habs. rewrite (findIndex_absent _ _ Habs).
    change ((-1 =? -1)%Z) with true. cbn [negb].
    now rewrite insertBlockAt_front by lia. }
  repeat split.
  - intros l1 tgt l2 Ecur Etgt Hl1. rewrite Ecur, <- Etgt.
    rewrite <- Etgt in Hl1. rewrite (findIndex_first l1 l2 tgt Hl1).
    replace (negb (Z.of_nat (length l1) =? -1)%Z) with true
      by (symmetry; apply negb_true_iff, Z.eqb_neq; lia).
    now rewrite insertBlockAt_after.
  - exact Hfront.
  - intros E. apply Hfront. rewrite E. intros x Hx Ex.
    assert (H := in_root_ids _ _ Hx). rewrite Ex in H.
    exact (remove_gone _ _ H).
Qed.

Lemma handleDragDrop_after_target_witness :
  findBlock (blocks (sampleSheet twoPages)) (js "B") = Some (sampleQuestion "B")
  /\ handleDragDrop (blockItem "B" 1 None) (Some (js "B")) None None
       (sampleSheet twoPages) numbered
     = (sampleSheet [sampleQuestion "B"; sampleText "A"; DividerBlock (js "d");
                     sampleText "C"], numbered).
Proof.
  split; [reflexivity|].
  assert (Hne : js "B" <> []) by discriminate.
  exact (proj2 (proj2 (handleDragDrop_after_target (sampleSheet twoPages) numbered
                         (blockItem "B" 1 None) (js "B") (js "B")
                         (sampleQuestion "B") eq_refl eq_refl eq_refl Hne))
           eq_refl).
Defined.

Lemma lengthBefore_concat (segs : list (list Block)) (n : nat) :
  lengthBefore segs n = Z.of_nat (length (concat (firstn n segs))).
Proof.
  unfold lengthBefore.
  assert (H : forall (l : list (list Block)) (acc : Z),
             fold_left (fun acc s => (acc + Z.of_nat (length s))%Z) l acc
             = (acc + Z.of_nat (length (concat l)))%Z).
  { induction l as [|x l IH]; intros acc; cbn [fold_left concat].
    - cbn. lia.
    - rewrite IH, length_app. lia. }
  rewrite H. lia.
Qed.

Lemma dropped_new_at (prev : WorksheetData) (s : IdSupply) (payload : Payload)
  (l1 l2 : list Block) :
  blocks prev = l1 ++ l2 ->
  dropped (paletteItem payload)
    (mkDropCall None None (Some (Z.of_nat (length l1)))) prev s
  = l1 ++ fst (createBlock (payload_type payload) (payload_qType payload) s) :: l2.
Proof.
  intros H. unfold dropped, handleDragDrop, paletteItem.
  cbn [item_type item_payload call_targetId call_targetParentId call_targetIndex].
  unfold bind, ret.
  destruct (createBlock (payload_type payload) (payload_qType payload) s)
    as [nb s1].
  cbn [fst truthy]. rewrite andb_false_r. cbn [with_blocks blocks].
  rewrite H. apply insertBlockAt_at.
Qed.

Lemma dropped_new_after (prev : WorksheetData) (s : IdSupply) (payload : Payload)
  (l1 l2 : list Block) (tgt : Block) :
  blocks prev = l1 ++ tgt :: l2 ->
  block_id tgt <> [] ->
  (forall x, In x l1 -> block_id x <> block_id tgt) ->
  dropped (paletteItem payload)
    (mkDropCall (Some (block_id tgt)) None None) prev s
  = l1 ++ tgt
       :: fst (createBlock (payload_type payload) (payload_qType payload) s) :: l2.
Proof.
  intros H Hne Hl1. unfold dropped, handleDragDrop, paletteItem.
  cbn [item_type item_payload call_targetId call_targetParentId call_targetIndex].
  unfold bind, ret.
  destruct (createBlock (payload_type payload) (payload_qType payload) s)
    as [nb s1].
  cbn [fst truthy]. rewrite andb_false_r. cbn [with_blocks blocks].
  assert (Hidx := findIndex_first l1 l2 tgt Hl1).
  destruct (block_id tgt) as [|c tid]; [congruence|].
  unfold findIndexInParent. cbn [truthy negb].
  rewrite H, Hidx.
  replace (negb (Z.of_nat (length l1) =? -1)%Z) with true
    by (symmetry; apply negb_true_iff, Z.eqb_neq; lia).
  apply insertBlockAt_after.
Qed.

Lemma last_split (seg : list Block) (lastBlock : Block) :
  nth_error seg (length seg - 1) = Some lastBlock ->
  exists seg', seg = seg' ++ [lastBlock].
Proof.
  intros H. destruct (nth_error_split_at _ _ _ H) as (l1 & l2 & E & Hlen & _).
  exists l1. rewrite E. f_equal. rewrite E, length_app in Hlen.
  cbn [length] in Hlen. destruct l2; [reflexivity|]. cbn [length] in Hlen. lia.
Qed.

(** X14.  The drop zones of a page of the builder, for a block dragged
    from the palette, in a worksheet with unique, non-empty ids.  The
    blocks of the worksheet are the segments before the page, the page and
    the segments after it.  The zone under the page, and the lower half of
    a page that has blocks, put the new block right after the last block of
    the page; the upper half, and a page without blocks, put it right
    before the page's first block; the zone under a page break puts it
    right after the break. *)
Theorem page_zones_place_new_block :
  forall (prev : WorksheetData) (s : IdSupply) (payload : Payload)
         (k : nat) (seg : list Block) (e : Pointer),
    unique_ids (blocks prev) ->
    nth_error (segments (blocks prev)) k = Some seg ->
    (forall b, In b seg -> block_id b <> []) ->
    let segs := segments (blocks prev) in
    let nb := fst (createBlock (payload_type payload) (payload_qType payload) s) in
    let before := concat (firstn k segs) in
    let after := concat (skipn (S k) segs) in
    blocks prev = before ++ seg ++ after
    /\ dropped (paletteItem payload) (onDropAppend segs k) prev s
       = before ++ seg ++ nb :: after
    /\ dropped (paletteItem payload) (onDropPage segs k seg e) prev s
       = (if (2 * (clientY e - rect_top e) <? rect_bottom e - rect_top e)%Z
             || match seg with [] => true | _ :: _ => false end
          then before ++ nb :: seg ++ after
          else before ++ seg ++ nb :: after)
    /\ (forall dv, seg = [dv] ->
          dropped (paletteItem payload) (onDropPageBreak (blocks prev) dv) prev s
          = before ++ dv :: nb :: after).
Proof.
  intros prev s payload k seg e Hu Hk Hne. cbv zeta.
  destruct (nth_error_split_at _ _ _ Hk) as (l1 & l2 & Esegs & Hlen & Hf & Hs).
  rewrite Hf, Hs.
  assert (Hbs : blocks prev = concat l1 ++ seg ++ concat l2).
  { assert (H := segments_from_concat (blocks prev) []).
    rewrite <- segments_eq, Esegs, concat_app in H. cbn [concat app] in H.
    now rewrite <- H. }
  assert (Hbefore : lengthBefore (segments (blocks prev)) k
                    = Z.of_nat (length (concat l1))).
  { now rewrite lengthBefore_concat, Hf. }
  assert (Hafter : lengthBefore (segments (blocks prev)) (S k)
                   = Z.of_nat (length (concat l1 ++ seg))).
  { rewrite lengthBefore_concat. do 2 f_equal.
    assert (H := proj1 (cut_at_length (l1 ++ [seg]) l2)).
    rewrite length_app, Hlen, <- app_assoc in H. cbn [length app] in H.
    replace (k + 1) with (S k) in H by lia.
    rewrite Esegs, H, concat_app. cbn [concat]. now rewrite app_nil_r. }
  assert (Hlast : forall seg' lastBlock, seg = seg' ++ [lastBlock] ->
            forall x, In x (concat l1 ++ seg') ->
                      block_id x <> block_id lastBlock).
  { intros seg' lastBlock E x Hx Ex.
    assert (Hb : blocks prev = (concat l1 ++ seg') ++ lastBlock :: concat l2).
    { rewrite Hbs, E, <- !app_assoc. reflexivity. }
    rewrite Hb in Hu.
    assert (Hin : In (block_id lastBlock) (ids [lastBlock])).
    { rewrite ids_cons. now left. }
    destruct (unique_ids_middle _ _ _ _ Hu Hin) as (H1 & _ & _).
    apply H1. rewrite <- Ex. now apply in_root_ids. }
  split; [exact Hbs|]. split; [|split].
  - unfold onDropAppend. rewrite Hafter.
    rewrite (dropped_new_at prev s payload (concat l1 ++ seg) (concat l2)).
    + now rewrite <- app_assoc.
    + now rewrite Hbs, <- app_assoc.
  - unfold onDropPage. rewrite Hbefore.
    destruct (nth_error seg (length seg - 1)) as [lastBlock|] eqn:El.
    + destruct (last_split _ _ El) as (seg' & Eseg).
      assert (Hcons : match seg with [] => true | _ :: _ => false end = false).
      { rewrite Eseg. now destruct seg'. }
      rewrite Hcons, orb_false_r.
      destruct (2 * (clientY e - rect_top e) <? rect_bottom e - rect_top e)%Z.
      * now apply dropped_new_at.
      * rewrite (dropped_new_after prev s payload (concat l1 ++ seg') (concat l2)
                   lastBlock).
        -- rewrite Eseg, <- !app_assoc. reflexivity.
        -- rewrite Hbs, Eseg, <- !app_assoc. reflexivity.
        -- apply Hne. rewrite Eseg. apply in_or_app. right. now left.
        -- now apply (Hlast seg').
    + assert (Eseg : seg = []).
      { destruct seg as [|x seg]; [reflexivity|].
        apply nth_error_None in El. cbn [length] in El. lia. }
      rewrite Eseg, orb_true_r. rewrite Eseg in Hbs. now apply dropped_new_at.
  - intros dv Edv. unfold onDropPageBreak.
    assert (Hb : blocks prev = concat l1 ++ dv :: concat l2).
    { now rewrite Hbs, Edv. }
    assert (Hfirst : forall x, In x (concat l1) -> block_id x <> block_id dv).
    { intros x Hx. apply (Hlast [] dv Edv). now rewrite app_nil_r. }
    rewrite Hb at 1. rewrite (findIndex_first _ _ dv Hfirst).
    assert (H := dropped_new_at prev s payload (concat l1 ++ [dv]) (concat l2)).
    rewrite length_app, <- !app_assoc in H. cbn [length app] in H.
    replace (Z.of_nat (length (concat l1)) + 1)%Z
      with (Z.of_nat (length (concat l1) + 1)) by lia.
    now apply H.
Qed.

Lemma page_zones_place_new_block_witness :
  unique_ids (blocks (sampleSheet twoPages))
  /\ nth_error (segments (blocks (sampleSheet twoPages))) 0
     = Some [sampleText "A"; sampleQuestion "B"]
  /\ dropped (paletteItem questionPayload)
       (onDropAppend (segments (blocks (sampleSheet twoPages))) 0)
       (sampleSheet twoPages) numbered
     = [sampleText "A"; sampleQuestion "B"; newQuestion "n0";
        DividerBlock (js "d"); sampleText "C"].
Proof.
  assert (Hu : unique_ids (blocks (sampleSheet twoPages))).
  { unfold unique_ids. solve_concrete_NoDup. }
  assert (Hne : forall b, In b [sampleText "A"; sampleQuestion "B"] ->
                          block_id b <> []).
  { intros b [<-|[<-|[]]]; discriminate. }
  split; [exact Hu|]. split; [reflexivity|].
  exact (proj1 (proj2 (page_zones_place_new_block (sampleSheet twoPages) numbered
                         questionPayload 0 [sampleText "A"; sampleQuestion "B"]
                         pointerTop Hu eq_refl Hne))).
Defined.

(** * Publishing, opening and importing *)

Lemma startsWith_prefix (pat s : jsstring) : startsWith pat (pat ++ s) = true.
Proof. unfold startsWith. now rewrite strip_prefix_app. Qed.

Lemma worksheetToJS_truthy (x : WorksheetData) :
  truthyValue (Some (worksheetToJS x)) = true.
Proof. reflexivity. Qed.

(** X15.  The link the builder publishes for a worksheet within Latin-1
    opens that worksheet: the answer page loads it and shows no error, and
    the builder opened on the same address switches to it. *)
Theorem published_link_opens :
  forall x : WorksheetData,
    latin1_worksheet x = true ->
    Answer_load (publishHash (worksheetToJS x))
    = mkLoaded (Some (worksheetToJS x)) None
    /\ Builder_load (publishHash (worksheetToJS x)) = Some (worksheetToJS x).
Proof.
  intros x H.
  destruct (decode_encode_value (worksheetToJS x) (worksheetToJS_safe x H))
    as [_ E].
  unfold Answer_load, Builder_load, publishHash.
  rewrite startsWith_prefix, E. cbv zeta.
  now rewrite worksheetToJS_truthy.
Qed.

Lemma published_link_opens_witness :
  latin1_worksheet (sampleSheet sampleTree) = true
  /\ Answer_load (publishHash (worksheetToJS (sampleSheet sampleTree)))
     = mkLoaded (Some (worksheetToJS (sampleSheet sampleTree))) None.
Proof.
  split; [reflexivity|].
  exact (proj1 (published_link_opens (sampleSheet sampleTree) eq_refl)).
Defined.

Lemma quoteUnit_wide (c : N) :
  (256 <= c)%N -> is_leading_surrogate c = false ->
  is_trailing_surrogate c = false -> quoteUnit c = [c].
Proof.
  intros Hc Hl Ht. unfold quoteUnit. rewrite Hl, Ht.
  repeat match goal with
         | |- context [(c =? ?k)%N] =>
             destruct (N.eqb_spec c k); [lia|]
         end.
  destruct (N.ltb_spec c 32); [lia|]. reflexivity.
Qed.

(** A code unit above [0xFF] that is no surrogate is written as it is. *)
Lemma quoteChars_keeps (c : N) :
  (256 <= c)%N -> is_leading_surrogate c = false ->
  is_trailing_surrogate c = false ->
  forall s, In c s -> In c (quoteChars s).
Proof.
  intros Hc Hl Ht s.
  assert (H : forall n s, length s <= n -> In c s -> In c (quoteChars s)).
  { clear s. induction n as [|n IH]; intros s Hlen H;
      (destruct s as [|a s]; [destruct H|]); cbn [length] in Hlen; [lia|].
    assert (Hne : is_leading_surrogate a = true -> a <> c) by congruence.
    cbn [quoteChars]. destruct (is_leading_surrogate a) eqn:Ea.
    - destruct s as [|d s'].
      + destruct H as [E|[]]. exfalso. now apply Hne.
      + destruct (is_trailing_surrogate d) eqn:Ed.
        * destruct H as [E|[E|H]]; [exfalso; now apply Hne | congruence |].
          right. right. apply IH; [cbn [length] in Hlen; lia | exact H].
        * destruct H as [E|H]; [exfalso; now apply Hne|].
          apply in_or_app. right. apply IH; [lia | exact H].
    - destruct H as [->|H].
      + apply in_or_app. left. rewrite quoteUnit_wide by assumption. now left.
      + apply in_or_app. right. apply IH; [lia | exact H]. }
  apply (H (length s)). lia.
Qed.

Lemma latin1_has_wide (c : N) (s : jsstring) :
  In c s -> (256 <= c)%N -> latin1 s = false.
Proof.
  intros Hin Hc. destruct (latin1 s) eqn:E; [|reflexivity].
  unfold latin1 in E. rewrite forallb_forall in E.
  apply E, N.ltb_lt in Hin. lia.
Qed.

Lemma join_comma_head (c : N) (p : jsstring) (ps : list jsstring) :
  In c p -> In c (join_comma (p :: ps)).
Proof.
  intros H. destruct ps as [|q ps]; [exact H|].
  cbn [join_comma]. apply in_or_app. now left.
Qed.

(** X16.  A worksheet whose title holds a code unit above 0xFF that is no
    surrogate cannot be published: [encodeState] gives the empty string,
    the published address ends in [#data=], and that address opens neither
    a worksheet nor an error message, on the answer page as in the
    builder. *)
Theorem wide_title_is_not_published :
  forall (x : WorksheetData) (c : N),
    In c (title x) ->
    (256 <= c)%N ->
    is_leading_surrogate c = false ->
    is_trailing_surrogate c = false ->
    encodeState (worksheetToJS x) = []
    /\ publishHash (worksheetToJS x) = js "#data="
    /\ Answer_load (publishHash (worksheetToJS x)) = mkLoaded None None
    /\ Builder_load (publishHash (worksheetToJS x)) = None.
Proof.
  intros x c Hin Hc Hl Ht.
  assert (E : encodeState (worksheetToJS x) = []).
  { unfold encodeState, btoa. fold (latin1 (stringify (worksheetToJS x))).
    rewrite (latin1_has_wide c); [reflexivity| |exact Hc].
    unfold worksheetToJS. cbn [stringify app map fst snd].
    right. apply in_or_app. left. apply join_comma_head.
    apply in_or_app. right. right. unfold quoteJSONString. right.
    apply in_or_app. left. now apply quoteChars_keeps. }
  unfold publishHash. rewrite E. repeat split.
Qed.

Lemma wide_title_is_not_published_witness :
  In 8364%N (title (mkWorksheet [8364%N] [] [] None))
  /\ publishHash (worksheetToJS (mkWorksheet [8364%N] [] [] None)) = js "#data=".
Proof.
  assert (Hin : In 8364%N (title (mkWorksheet [8364%N] [] [] None))) by now left.
  split; [exact Hin|].
  assert (Hc : (256 <= 8364)%N) by lia.
  exact (proj1 (proj2 (wide_title_is_not_published
                         (mkWorksheet [8364%N] [] [] None) 8364%N
                         Hin Hc eq_refl eq_refl))).
Defined.

(** X17.  The file the builder downloads for a worksheet within Latin-1 is
    taken by the file import of the answer page, which ends up with the
    same worksheet. *)
Theorem downloaded_file_imports :
  forall x : WorksheetData,
    latin1_worksheet x = true ->
    handleFileUpload (handleDownloadFile (worksheetToJS x))
    = Imported (worksheetToJS x).
Proof.
  intros x H. unfold handleFileUpload, handleDownloadFile.
  rewrite (JSON_parse_stringify _ (worksheetToJS_safe x H)).
  reflexivity.
Qed.

Lemma downloaded_file_imports_witness :
  latin1_worksheet (sampleSheet sampleTree) = true
  /\ handleFileUpload (handleDownloadFile (worksheetToJS (sampleSheet sampleTree)))
     = Imported (worksheetToJS (sampleSheet sampleTree)).
Proof.
  split; [reflexivity|].
  exact (downloaded_file_imports (sampleSheet sampleTree) eq_refl).
Defined.

(** * Numbering *)

Lemma toRoman_fold_prefix (l : list (jsstring * N)) :
  forall (k : N) (pre : jsstring),
    snd (fold_left
           (fun (state : N * jsstring) (entry : jsstring * N) =>
              let (num, str) := state in
              let (i, value) := entry in
              let q := (num / value)%N in
              ((num - q * value)%N, str ++ repeat_string i q))
           l (k, pre))
    = pre ++ snd (fold_left
                    (fun (state : N * jsstring) (entry : jsstring * N) =>
                       let (num, str) := state in
                       let (i, value) := entry in
                       let q := (num / value)%N in
                       ((num - q * value)%N, str ++ repeat_string i q))
                    l (k, [])).
Proof.
  induction l as [|[i value] l IH]; intros k pre; cbn [fold_left].
  - cbn. now rewrite app_nil_r.
  - rewrite IH. cbn [app].
    rewrite (IH _ (repeat_string i (k / value))). now rewrite app_assoc.
Qed.

Lemma toRoman_thousands (n : N) :
  toRoman n = repeat_string (js "m") (n / 1000) ++ toRoman (n mod 1000).
Proof.
  unfold toRoman.
  assert (E : roman = (js "m", 1000%N) :: tl roman) by reflexivity.
  rewrite E. cbn [fold_left].
  replace (n mod 1000 / 1000)%N with 0%N by (symmetry; apply N.div_small; lia).
  replace (n mod 1000 - 0 * 1000)%N with (n mod 1000)%N by lia.
  replace (n - n / 1000 * 1000)%N with (n mod 1000)%N by lia.
  rewrite toRoman_fold_prefix. cbn [app].
  change (repeat_string (js "m") 0) with (@nil N). cbn [app]. reflexivity.
Qed.

Lemma romanDigit_le (c : N) : (romanDigit c <= 1000)%N.
Proof.
  unfold romanDigit.
  repeat match goal with
         | |- context [N.eqb c ?k] => destruct (N.eqb c k)
         end; lia.
Qed.

Lemma romanValue_m (s : jsstring) :
  romanValue (code "m" :: s) = (1000 + romanValue s)%N.
Proof.
  destruct s as [|d s]; [reflexivity|].
  cbn [romanValue]. change (romanDigit (code "m")) with 1000%N.
  assert (H := romanDigit_le d).
  destruct (N.ltb_spec 1000 (romanDigit d)); [lia|]. reflexivity.
Qed.

Lemma repeat_string_succ (i : jsstring) (q : N) :
  repeat_string i (N.succ q) = i ++ repeat_string i q.
Proof. unfold repeat_string. now rewrite N2Nat.inj_succ. Qed.

Lemma romanValue_repeat_m (q : N) (s : jsstring) :
  romanValue (repeat_string (js "m") q ++ s) = (1000 * q + romanValue s)%N.
Proof.
  induction q as [|q IH] using N.peano_ind.
  - reflexivity.
  - rewrite repeat_string_succ. change (js "m") with [code "m"] at 1.
    cbn [app]. rewrite romanValue_m, IH. lia.
Qed.

Lemma romanValue_toRoman (n : N) : romanValue (toRoman n) = n.
Proof.
  rewrite toRoman_thousands, romanValue_repeat_m.
  assert (Hs : (n mod 1000 < 1000)%N) by lia.
  assert (E := checked_below
                 (fun k => romanValue (toRoman k) =? k)%N 1000 eq_refl _ Hs).
  cbv beta in E. apply N.eqb_eq in E. rewrite E. lia.
Qed.

(** X18.  For the counts the code can meet, up to [2^32], a Roman numeral
    written by [toRoman] reads back as the number it was written for, so
    no two such numbers get the same numeral. *)
Theorem toRoman_reads_back :
  forall n m : N,
    (n <= maxCount)%N ->
    (m <= maxCount)%N ->
    romanValue (toRoman n) = n
    /\ (n <> m -> toRoman n <> toRoman m).
Proof.
  intros n m _ _. split; [apply romanValue_toRoman|].
  intros Hne E. apply Hne.
  rewrite <- (romanValue_toRoman n), <- (romanValue_toRoman m).
  now rewrite E.
Qed.

Lemma toRoman_reads_back_witness :
  (1994 <= maxCount)%N /\ (4 <= maxCount)%N
  /\ romanValue (toRoman 1994) = 1994%N
  /\ toRoman 1994 <> toRoman 4.
Proof.
  assert (H1 : (1994 <= maxCount)%N) by (unfold maxCount; lia).
  assert (H2 : (4 <= maxCount)%N) by (unfold maxCount; lia).
  assert (Hne : 1994%N <> 4%N) by lia.
  split; [exact H1|]. split; [exact H2|]. split.
  - exact (proj1 (toRoman_reads_back 1994 4 H1 H2)).
  - exact (proj2 (toRoman_reads_back 1994 4 H1 H2) Hne).
Defined.

Lemma js_inj (a b : string) : js a = js b -> a = b.
Proof.
  unfold js. revert b. induction a as [|x a IH]; intros [|y b] E;
    cbn in E; try discriminate; [reflexivity|].
  injection E as Ex E. apply (f_equal ascii_of_N) in Ex.
  rewrite !ascii_N_embedding in Ex. now rewrite Ex, (IH b E).
Qed.

Lemma decimal_inj (n m : N) : decimal n = decimal m -> n = m.
Proof.
  unfold decimal. intros E. apply js_inj in E.
  assert (Hnil : forall k, N.to_uint k <> Decimal.Nil).
  { intros k Ek. assert (H := Unsigned.of_to k). rewrite Ek in H.
    cbn in H. subst k. discriminate. }
  apply Unsigned.to_uint_inj.
  assert (H1 := NilZero.usu _ (Hnil n)). assert (H2 := NilZero.usu _ (Hnil m)).
  rewrite E in H1. congruence.
Qed.

Lemma getNumbering_inj (depth i j : N) :
  (depth = 1%N -> (i < 65439)%N /\ (j < 65439)%N) ->
  getNumbering depth i = getNumbering depth j ->
  i = j.
Proof.
  intros Hd E. unfold getNumbering in E.
  destruct (N.eqb_spec depth 0) as [_|_].
  - apply app_inv_tail, decimal_inj in E. lia.
  - destruct (N.eqb_spec depth 1) as [E1|_].
    + destruct (Hd E1) as [Hi Hj]. apply app_inv_tail in E.
      assert (Hh := f_equal (fun l => hd 0%N l) E). cbn [hd] in Hh.
      rewrite !N.mod_small in Hh by lia. lia.
    + apply app_inv_tail in E.
      assert (H := f_equal romanValue E).
      rewrite !romanValue_toRoman in H. lia.
Qed.

(** X19.  At one depth, two different indices below [2^32] get different
    labels: the numbers at depth 0, the numerals from depth 2 on, and at
    depth 1 the characters from [a] on, as long as the indices stay below
    65439, where the character codes wrap around. *)
Theorem getNumbering_distinct :
  forall depth i j : N,
    (i < maxCount)%N ->
    (j < maxCount)%N ->
    (depth = 1%N -> (i < 65439)%N /\ (j < 65439)%N) ->
    i <> j ->
    getNumbering depth i <> getNumbering depth j.
Proof.
  intros depth i j _ _ Hd Hne E. apply Hne.
  exact (getNumbering_inj depth i j Hd E).
Qed.

Lemma getNumbering_distinct_witness :
  (3 < maxCount)%N /\ (8 < maxCount)%N /\ 3%N <> 8%N
  /\ getNumbering 0 3 <> getNumbering 0 8
  /\ getNumbering 1 3 <> getNumbering 1 8
  /\ getNumbering 2 3 <> getNumbering 2 8.
Proof.
  assert (H1 : (3 < maxCount)%N) by (unfold maxCount; lia).
  assert (H2 : (8 < maxCount)%N) by (unfold maxCount; lia).
  assert (Hne : 3%N <> 8%N) by lia.
  split; [exact H1|]. split; [exact H2|]. split; [exact Hne|].
  split; [|split].
  - apply (getNumbering_distinct 0 3 8 H1 H2); [discriminate | exact Hne].
  - apply (getNumbering_distinct 1 3 8 H1 H2); [intros _; lia | exact Hne].
  - apply (getNumbering_distinct 2 3 8 H1 H2); [discriminate | exact Hne].
Defined.

Lemma childLabels_from (depth : N) (rest : list Block) :
  forall pre : list Block,
    flat_map (fun o : option jsstring => match o with
                                         | Some l => [l]
                                         | None => []
                                         end)
      (map (fun ic => childLabel depth (pre ++ rest) (fst ic) (snd ic))
         (combine (seq (length pre) (length rest)) rest))
    = map (fun k => getNumbering (depth + 1) (N.of_nat k))
        (seq (length (filter isNumbered pre))
           (length (filter isNumbered rest))).
Proof.
  induction rest as [|c rest IH]; intros pre; [reflexivity|].
  cbn [length seq combine map flat_map fst snd].
  assert (IH' := IH (pre ++ [c])).
  rewrite <- app_assoc, length_app, filter_app, length_app in IH'.
  cbn [app length filter] in IH'.
  replace (length pre + 1) with (S (length pre)) in IH' by lia.
  rewrite IH'. unfold childLabel at 1.
  assert (Hf : firstn (length pre + 1) (pre ++ c :: rest) = pre ++ [c]).
  { assert (H := proj1 (cut_at_length (pre ++ [c]) rest)).
    rewrite length_app, <- app_assoc in H. exact H. }
  rewrite Hf, filter_app, length_app. cbn [filter].
  destruct (isNumbered c); cbn [length app seq map].
  - f_equal.
    + f_equal. lia.
    + now replace (length (filter isNumbered pre) + 1)
        with (S (length (filter isNumbered pre))) by lia.
  - now rewrite Nat.add_0_r.
Qed.

Lemma nth_error_combine_seq {A : Type} (l : list A) :
  forall off k x,
    nth_error l k = Some x ->
    nth_error (combine (seq off (length l)) l) k = Some (k + off, x).
Proof.
  induction l as [|c l IH]; intros off k x Hk; [now destruct k|].
  destruct k as [|k]; cbn [length seq combine nth_error] in *.
  - now injection Hk as ->.
  - rewrite (IH (S off) k x Hk). do 2 f_equal. lia.
Qed.

Lemma NoDup_map_in {A B : Type} (f : A -> B) (l : list A) :
  (forall a b, In a l -> In b l -> f a = f b -> a = b) ->
  NoDup l -> NoDup (map f l).
Proof.
  induction l as [|x l IH]; intros Hinj Hnd; cbn [map]; [constructor|].
  apply NoDup_cons_iff in Hnd as [Hx Hnd]. constructor.
  - intros Hin. apply in_map_iff in Hin as (y & Ey & Hy).
    apply Hx. rewrite <- (Hinj y x); [exact Hy | now right | now left | exact Ey].
  - apply IH; [|exact Hnd]. intros a b Ha Hb. apply Hinj; now right.
Qed.

(** X20.  The questions and groups among the children of a group are
    labelled in order with the indices 0, 1, 2, ... of the next depth; the
    other children get no label and use up no index.  The labels of one
    group are pairwise different (in a group at depth 0, where they are
    characters, as long as there are at most 65439 of them). *)
Theorem childLabels_consecutive :
  forall (depth : N) (children : list Block),
    flat_map (fun o : option jsstring => match o with
                                         | Some l => [l]
                                         | None => []
                                         end)
      (childLabels depth children)
    = map (fun k => getNumbering (depth + 1) (N.of_nat k))
        (seq 0 (length (filter isNumbered children)))
    /\ length (childLabels depth children) = length children
    /\ (forall k child,
           nth_error children k = Some child -> isNumbered child = false ->
           nth_error (childLabels depth children) k = Some None)
    /\ ((depth = 0%N ->
         (N.of_nat (length (filter isNumbered children)) <= 65439)%N) ->
        NoDup (flat_map (fun o : option jsstring => match o with
                                                    | Some l => [l]
                                                    | None => []
                                                    end)
                 (childLabels depth children))).
Proof.
  intros depth children.
  assert (E := childLabels_from depth children []). cbn [app length filter] in E.
  fold (childLabels depth children) in E.
  split; [exact E|]. split; [|split].
  - unfold childLabels. rewrite length_map, length_combine, length_seq. lia.
  - intros k child Hk Hn. unfold childLabels.
    rewrite nth_error_map, (nth_error_combine_seq children 0 k child Hk).
    cbn [option_map fst snd]. unfold childLabel. now rewrite Hn.
  - intros Hd. rewrite E. apply NoDup_map_in; [|apply seq_NoDup].
    intros a b Ha Hb Eab. apply in_seq in Ha, Hb.
    apply getNumbering_inj in Eab; [lia|].
    intros E1. assert (E0 : depth = 0%N) by lia. specialize (Hd E0). lia.
Qed.

Lemma childLabels_consecutive_witness :
  childLabels 0 [sampleQuestion "a"; sampleText "t"; sampleGroup "g" []]
  = [Some (js "a."); None; Some (js "b.")]
  /\ NoDup [js "a."; js "b."].
Proof.
  split; [reflexivity|].
  apply (proj2 (proj2 (proj2 (childLabels_consecutive 0
           [sampleQuestion "a"; sampleText "t"; sampleGroup "g" []])))).
  intros _. cbn. lia.
Defined.

(** * The wrapper of a block: where a drop lands, reordering options *)

Lemma splice_insert_end {A : Type} (x : A) (l : list A) :
  splice_insert (safeIndex (Z.of_nat (length l)) (length l)) x l = l ++ [x].
Proof.
  unfold splice_insert, safeIndex.
  destruct (Z.max 0 (Z.min (Z.of_nat (length l)) (Z.of_nat (length l))) <? 0)%Z
    eqn:E; [lia|].
  replace (Z.to_nat _) with (length l) by lia.
  now rewrite firstn_all, skipn_all.
Qed.

Lemma dropped_new_inside (prev : WorksheetData) (s : IdSupply)
  (payload : Payload) (l1 l2 : list Block)
  (i : jsstring) (t : option jsstring) (ch : list Block) :
  unique_ids (blocks prev) ->
  blocks prev = l1 ++ GroupBlock i t ch :: l2 ->
  i <> [] ->
  dropped (paletteItem payload)
    (mkDropCall None (Some i) (Some (Z.of_nat (length ch)))) prev s
  = match payload_type payload with
    | TyDivider => l1 ++ GroupBlock i t ch :: l2
    | _ => l1 ++ GroupBlock i t
                   (ch ++ [fst (createBlock (payload_type payload)
                                  (payload_qType payload) s)]) :: l2
    end.
Proof.
  intros Hu H Hi. unfold dropped, handleDragDrop, paletteItem.
  cbn [item_type item_payload call_targetId call_targetParentId call_targetIndex].
  unfold bind, ret.
  destruct (createBlock_spec (payload_type payload) (payload_qType payload) s)
    as (_ & _ & _ & Et).
  destruct (createBlock (payload_type payload) (payload_qType payload) s)
    as [nb s1].
  cbn [fst snd] in *.
  assert (Htr : truthy (Some i) = true) by (destruct i; [congruence|reflexivity]).
  rewrite Htr, andb_true_r.
  assert (Hins : insertBlockAt (blocks prev) (Some i) (Z.of_nat (length ch)) nb
                 = l1 ++ GroupBlock i t (ch ++ [nb]) :: l2).
  { unfold insertBlockAt. rewrite Htr. cbn [negb].
    rewrite H in Hu |- *.
    assert (Hin : In i (ids [GroupBlock i t ch])).
    { rewrite ids_single_group. now left. }
    destruct (unique_ids_middle _ _ _ _ Hu Hin) as (H1 & H2 & _).
    rewrite map_app. cbn [map insertInto]. rewrite streq_refl.
    now rewrite (insertInto_absent _ _ _ l1 H1), (insertInto_absent _ _ _ l2 H2),
      splice_insert_end. }
  destruct (is_divider nb) eqn:Ed.
  - apply is_divider_type in Ed. rewrite Et in Ed. now rewrite Ed.
  - assert (Hnd : payload_type payload <> TyDivider).
    { intros E. rewrite <- Et in E. apply is_divider_type in E. congruence. }
    cbn [with_blocks blocks]. rewrite Hins.
    now destruct (payload_type payload).
Qed.

(** X21.  A block from the palette dropped on the wrapper of a root block
    lands where [onDragOver] showed the drop, in a worksheet with unique
    ids: right before the block for the top edge, right after it for the
    bottom, and as the last child of the group for the inside of a group.
    A page break dropped on the inside of a group is refused. *)
Theorem wrapper_drop_lands_where_shown :
  forall (prev : WorksheetData) (s : IdSupply) (payload : Payload)
         (l1 l2 : list Block) (b : Block) (e : Pointer),
    unique_ids (blocks prev) ->
    blocks prev = l1 ++ b :: l2 ->
    block_id b <> [] ->
    let nb := fst (createBlock (payload_type payload) (payload_qType payload) s) in
    let after :=
      dropped (paletteItem payload)
        (onDrop b (Z.of_nat (length l1)) None 0 e) prev s in
    match onDragOver b 0 e with
    | PosTop => after = l1 ++ nb :: b :: l2
    | PosBottom => after = l1 ++ b :: nb :: l2
    | PosInside =>
        exists i t ch,
          b = GroupBlock i t ch
          /\ after = match payload_type payload with
                     | TyDivider => l1 ++ b :: l2
                     | _ => l1 ++ GroupBlock i t (ch ++ [nb]) :: l2
                     end
    end.
Proof.
  intros prev s payload l1 l2 b e Hu H Hid. cbv zeta.
  unfold onDragOver, onDrop.
  destruct (is_group b && negb (clientY e <? rect_top e + 20)%Z
            && negb (clientY e >? rect_bottom e - 20)%Z
            && (clientY e <? rect_top e + 80)%Z && (0 <? 1)%Z) eqn:Ein.
  - assert (Hg : is_group b = true).
    { repeat (apply andb_true_iff in Ein as [Ein _]). exact Ein. }
    destruct b as [| | | |i t ch]; try discriminate. exists i, t, ch.
    split; [reflexivity|]. cbn [block_id block_children] in *.
    now apply dropped_new_inside.
  - destruct (clientY e <? rect_top e + 20)%Z.
    + now apply dropped_new_at.
    + assert (E := dropped_new_at prev s payload (l1 ++ [b]) l2).
      rewrite length_app, <- !app_assoc in E. cbn [length app] in E.
      replace (Z.of_nat (length l1) + 1)%Z
        with (Z.of_nat (length l1 + 1)) by lia.
      now apply E.
Qed.

Lemma wrapper_drop_lands_where_shown_witness :
  unique_ids (blocks (sampleSheet twoPages))
  /\ dropped (paletteItem questionPayload)
       (onDrop (sampleQuestion "B") 1 None 0 pointerTop)
       (sampleSheet twoPages) numbered
     = [sampleText "A"; newQuestion "n0"; sampleQuestion "B";
        DividerBlock (js "d"); sampleText "C"].
Proof.
  assert (Hu : unique_ids (blocks (sampleSheet twoPages))).
  { unfold unique_ids. solve_concrete_NoDup. }
  split; [exact Hu|].
  assert (Hne : block_id (sampleQuestion "B") <> []) by discriminate.
  exact (wrapper_drop_lands_where_shown (sampleSheet twoPages) numbered
           questionPayload [sampleText "A"]
           [DividerBlock (js "d"); sampleText "C"] (sampleQuestion "B")
           pointerTop Hu eq_refl Hne).
Defined.

Lemma firstn_skipn_min {A : Type} (k : nat) (l : list A) :
  firstn (Nat.min k (length l)) l = firstn k l
  /\ skipn (Nat.min k (length l)) l = skipn k l.
Proof.
  destruct (Nat.le_gt_cases k (length l)) as [H|H].
  - now rewrite Nat.min_l by exact H.
  - rewrite Nat.min_r by lia.
    now rewrite !firstn_all2, !skipn_all2 by lia.
Qed.

Lemma splice_insert_nat {A : Type} (k : nat) (x : A) (l : list A) :
  splice_insert (Z.of_nat k) x l = firstn k l ++ x :: skipn k l.
Proof.
  unfold splice_insert.
  destruct (Z.of_nat k <? 0)%Z eqn:Ez; [apply Z.ltb_lt in Ez; lia|].
  replace (Z.to_nat _) with (Nat.min k (length l)) by lia.
  now destruct (firstn_skipn_min k l) as [-> ->].
Qed.

(** X22.  [handleItemDrop] on the options or the sentences of a question.
    It hands nothing to [updateBlock] when no option is being dragged and
    when the option is dropped on itself, whatever the list.  Otherwise a
    dragged option of the list is moved to the index of the drop, or to
    the end when that index is beyond the list: the list handed over has
    it there, has the other options in the order they were in, and so is a
    permutation of the old list.  For a dragged index beyond the list
    nothing is taken out and an [undefined] entry is put in at the index of
    the drop. *)
Theorem handleItemDrop_moves_item :
  forall (A : Type) (options : list A) (dragged dropIdx : nat),
    handleItemDrop None dropIdx options = None
    /\ handleItemDrop (Some dragged) dragged options = None
    /\ (dragged <> dropIdx ->
        (forall item,
            nth_error options dragged = Some item ->
            exists moved,
              handleItemDrop (Some dragged) dropIdx options
              = Some (map Some moved)
              /\ nth_error moved (Nat.min dropIdx (length options - 1))
                 = Some item
              /\ splice_remove (Nat.min dropIdx (length options - 1)) moved
                 = splice_remove dragged options
              /\ Permutation moved options)
        /\ (nth_error options dragged = None ->
            handleItemDrop (Some dragged) dropIdx options
            = Some (firstn dropIdx (map Some options)
                      ++ None :: skipn dropIdx (map Some options)))).
Proof.
  intros A options dragged dropIdx.
  split; [reflexivity|]. split.
  { unfold handleItemDrop. now rewrite Nat.eqb_refl. }
  intros Hne.
  assert (Hrun : handleItemDrop (Some dragged) dropIdx options
                 = Some (firstn dropIdx (map Some (splice_remove dragged options))
                           ++ nth_error options dragged
                           :: skipn dropIdx
                                (map Some (splice_remove dragged options)))).
  { unfold handleItemDrop.
    destruct (Nat.eqb_spec dragged dropIdx) as [Eq|_]; [contradiction|].
    now rewrite splice_insert_nat. }
  split.
  - intros item Hd.
    destruct (nth_error_split options dragged Hd) as (l1 & l2 & E & Hlen).
    assert (Hrm : splice_remove dragged options = l1 ++ l2).
    { rewrite E, <- Hlen. apply splice_remove_middle. }
    assert (Hl : length options - 1 = length (l1 ++ l2)).
    { rewrite E, !length_app. cbn [length]. lia. }
    rewrite Hl.
    destruct (firstn_skipn_min dropIdx (l1 ++ l2)) as [Hf Hs].
    set (k := Nat.min dropIdx (length (l1 ++ l2))) in *.
    exists (firstn k (l1 ++ l2) ++ item :: skipn k (l1 ++ l2)).
    assert (Hfl : length (firstn k (l1 ++ l2)) = k).
    { rewrite length_firstn. unfold k. lia. }
    split; [|split; [|split]].
    + rewrite Hrun, Hd, Hrm, Hf, Hs, firstn_map, skipn_map.
      symmetry. now rewrite map_app.
    + rewrite nth_error_app2 by lia. now rewrite Hfl, Nat.sub_diag.
    + rewrite Hrm. rewrite <- Hfl at 1. rewrite splice_remove_middle.
      apply firstn_skipn.
    + rewrite <- Permutation_middle, firstn_skipn, E.
      apply Permutation_middle.
  - intros Hd. rewrite Hrun, Hd. apply nth_error_None in Hd.
    assert (Hrm : splice_remove dragged options = options).
    { unfold splice_remove.
      now rewrite (firstn_all2 options), (skipn_all2 options), app_nil_r by lia. }
    now rewrite Hrm.
Qed.

Lemma handleItemDrop_moves_item_witness :
  0 <> 2
  /\ nth_error [js "Option 1"; js "Option 2"; js "Option 3"] 0
     = Some (js "Option 1")
  /\ exists moved,
       handleItemDrop (Some 0) 2 [js "Option 1"; js "Option 2"; js "Option 3"]
       = Some (map Some moved)
       /\ nth_error moved 2 = Some (js "Option 1").
Proof.
  assert (Hne : 0 <> 2) by lia.
  split; [exact Hne|]. split; [reflexivity|].
  destruct (proj1 (proj2 (proj2 (handleItemDrop_moves_item jsstring
                                   [js "Option 1"; js "Option 2"; js "Option 3"]
                                   0 2)) Hne)
              (js "Option 1") eq_refl) as (moved & H1 & H2 & _).
  exists moved. split; assumption.
Defined.

(** * Answering a multiple-choice question *)

Lemma existsb_without (opt o : jsstring) (l : list jsstring) :
  existsb (fun x => streq x o) (filter (fun x => negb (streq x opt)) l)
  = existsb (fun x => streq x o) l && negb (streq o opt).
Proof.
  induction l as [|x l IH]; [reflexivity|].
  cbn [filter existsb]. destruct (streq x opt) eqn:Ex; cbn [negb existsb].
  - rewrite IH. apply streq_true_iff in Ex. subst x.
    rewrite (streq_sym opt o). now destruct (streq o opt), (existsb _ l).
  - rewrite IH. destruct (streq x o) eqn:Eo; [|reflexivity].
    apply streq_true_iff in Eo. subst x. now rewrite Ex.
Qed.

(** X23.  A click on an option of a multiple-choice question.  With
    several answers allowed it toggles the option and leaves the others as
    they were; with a single answer the clicked option is the one selected
    afterwards, and no other. *)
Theorem multiple_choice_click :
  forall (isMulti : bool) (value : AnswerValue) (opt o : jsstring),
    MultipleChoicePlayer.isSelected isMulti
      (MultipleChoicePlayer.handleChange isMulti value opt) o
    = if streq o opt
      then (if isMulti
            then negb (MultipleChoicePlayer.isSelected isMulti value opt)
            else true)
      else (if isMulti
            then MultipleChoicePlayer.isSelected isMulti value o
            else false).
Proof.
  intros isMulti value opt o.
  unfold MultipleChoicePlayer.isSelected, MultipleChoicePlayer.handleChange.
  destruct isMulti.
  - set (current := match value with ManyAnswers l => l | _ => [] end).
    assert (Hcur : forall x,
               match value with
               | ManyAnswers l => existsb (fun y => streq y x) l
               | _ => false
               end = existsb (fun y => streq y x) current).
    { intros x. unfold current. now destruct value. }
    rewrite !Hcur.
    destruct (existsb (fun y => streq y opt) current) eqn:Ein.
    + rewrite existsb_without. destruct (streq o opt) eqn:Eo; cbn [negb].
      * apply andb_false_r.
      * apply andb_true_r.
    + rewrite existsb_app. cbn [existsb]. rewrite orb_false_r, (streq_sym opt o).
      destruct (streq o opt) eqn:Eo.
      * apply orb_true_r.
      * rewrite orb_false_r. reflexivity.
  - rewrite (streq_sym opt o). now destruct (streq o opt).
Qed.

(** * Moving a root block to an index: the two handlers *)

Lemma clamp_split {A : Type} (l1 l2 : list A) (t : nat) :
  firstn (Nat.min t (length (l1 ++ l2))) (l1 ++ l2)
  = (if Nat.leb t (length l1) then firstn t l1 else l1 ++ firstn (t - length l1) l2)
  /\ skipn (Nat.min t (length (l1 ++ l2))) (l1 ++ l2)
     = (if Nat.leb t (length l1) then skipn t l1 ++ l2 else skipn (t - length l1) l2).
Proof.
  rewrite length_app. destruct (Nat.leb_spec t (length l1)) as [Hle|Hgt].
  - rewrite Nat.min_l by lia. rewrite firstn_app, skipn_app.
    replace (t - length l1) with 0 by lia. cbn [firstn skipn].
    now rewrite app_nil_r.
  - destruct (Nat.le_gt_cases (t - length l1) (length l2)) as [Hin|Hout].
    + rewrite Nat.min_l by lia.
      replace t with (length l1 + (t - length l1)) at 1 3 by lia.
      now rewrite firstn_past, skipn_past.
    + rewrite Nat.min_r by lia.
      rewrite firstn_past, skipn_past.
      now rewrite !firstn_all2, !skipn_all2 by lia.
Qed.

(** X24.  The move of a root block to an index of the root list, in a
    worksheet with unique ids.  An index up to the block's own puts the
    block right before the block that was at that index.  An index beyond
    its own is taken as an index of the list without the block, and the
    block lands one place further down, right after the block that was at
    that index; so a block dropped on its own lower half changes places
    with the block after it. *)
Theorem handleDragDrop_root_move :
  forall (prev : WorksheetData) (s : IdSupply) (item : DragItem)
         (l1 l2 : list Block) (b : Block) (t : nat),
    unique_ids (blocks prev) ->
    blocks prev = l1 ++ b :: l2 ->
    item_type item = ItemBlock ->
    item_id item = Some (block_id b) ->
    handleDragDrop item None None (Some (Z.of_nat t)) prev s
    = (with_blocks prev
         (if Nat.leb t (length l1)
          then firstn t l1 ++ b :: skipn t l1 ++ l2
          else l1 ++ firstn (t - length l1) l2
                 ++ b :: skipn (t - length l1) l2), s).
Proof.
  intros prev s item l1 l2 b t Hu H Hty Hid.
  unfold handleDragDrop. rewrite Hty, Hid.
  assert (Hin : In (block_id b) (ids [b])) by (rewrite ids_cons; now left).
  rewrite H in Hu. destruct (unique_ids_middle _ _ _ _ Hu Hin) as (H1 & H2 & _).
  assert (Hf : findBlock (blocks prev) (block_id b) = Some b).
  { rewrite H, findBlock_app, (proj2 (findBlock_none_iff l1 _) H1).
    now rewrite findBlock_cons, streq_refl. }
  assert (Hr : removeBlockRecursive (blocks prev) (block_id b) = l1 ++ l2).
  { rewrite H, removeBlockRecursive_app, removeBlockRecursive_cons, streq_refl.
    now rewrite (remove_absent _ l1 H1), (remove_absent _ l2 H2). }
  rewrite Hf, Hr. unfold ret. rewrite andb_false_r. f_equal. f_equal.
  rewrite (insertBlockAt_root _ None _ b eq_refl). unfold safeIndex.
  replace (Z.to_nat _) with (Nat.min t (length (l1 ++ l2))) by lia.
  destruct (clamp_split l1 l2 t) as [-> ->].
  destruct (Nat.leb t (length l1)); now rewrite <- ?app_assoc.
Qed.

Lemma handleDragDrop_root_move_witness :
  unique_ids (blocks (sampleSheet threeTexts))
  /\ handleDragDrop (blockItem "A" 0 None) None None (Some (Z.of_nat 1))
       (sampleSheet threeTexts) numbered
     = (sampleSheet [sampleText "B"; sampleText "A"; sampleText "C"], numbered).
Proof.
  assert (Hu : unique_ids (blocks (sampleSheet threeTexts))).
  { unfold unique_ids. solve_concrete_NoDup. }
  split; [exact Hu|].
  exact (handleDragDrop_root_move (sampleSheet threeTexts) numbered
           (blockItem "A" 0 None) [] [sampleText "B"; sampleText "C"]
           (sampleText "A") 1 Hu eq_refl eq_refl eq_refl).
Defined.

(** X25.  The older handler of [index.tsx], for the same move: the index
    is corrected for the block taken out, and the block lands right before
    the block that was at the index, whether that is above or below its own
    place; dropped on its own lower half it stays where it is. *)
Theorem legacy_root_move :
  forall (prev : WorksheetData) (s : IdSupply) (item : DragItem)
         (l1 l2 : list Block) (b : Block) (t : nat),
    blocks prev = l1 ++ b :: l2 ->
    (forall x, In x l1 -> block_id x <> block_id b) ->
    item_type item = ItemBlock ->
    item_id item = Some (block_id b) ->
    truthy (item_parentId item) = false ->
    t <= length (blocks prev) ->
    Legacy.handleDragDrop item None None (Some (Z.of_nat t)) prev s
    = (Some (with_blocks prev
               (if Nat.leb t (length l1)
                then firstn t l1 ++ b :: skipn t l1 ++ l2
                else l1 ++ firstn (t - length l1 - 1) l2
                       ++ b :: skipn (t - length l1 - 1) l2)), s).
Proof.
  intros prev s item l1 l2 b t Hl Hfirst Hty Hid Hpar Ht.
  destruct (Nat.leb_spec t (length l1)) as [Hle|Hgt].
  - unfold Legacy.handleDragDrop. rewrite Hty, Hpar, Hid. cbn [negb].
    unfold Legacy.findIndexOpt. rewrite Hl.
    rewrite findIndex_nth by exact Hfirst.
    rewrite findIndex_first by exact Hfirst.
    destruct (Z.of_nat (length l1) =? -1)%Z eqn:E; [apply Z.eqb_eq in E; lia|].
    unfold ret. f_equal. unfold Legacy.insertMoving. cbn [truthy negb].
    unfold option_map. f_equal. f_equal.
    unfold Legacy.insertIdx. rewrite Hty, Hpar, E. cbn [negb andb].
    destruct (Z.of_nat (length l1) <? Z.of_nat t)%Z eqn:E2;
      [apply Z.ltb_lt in E2; lia|].
    rewrite Nat2Z.id, splice_remove_middle.
    unfold splice_insert.
    destruct (Z.of_nat t <? 0)%Z eqn:E3; [apply Z.ltb_lt in E3; lia|].
    replace (Z.to_nat _) with (Nat.min t (length (l1 ++ l2)))
      by (rewrite length_app; lia).
    destruct (clamp_split l1 l2 t) as [-> ->].
    destruct (Nat.leb_spec t (length l1)); [reflexivity|lia].
  - rewrite (legacy_move_down_root prev s item l1 l2 b t Hl Hfirst Hty Hid Hpar)
      by lia.
    do 3 f_equal. rewrite Hl.
    replace t with (length l1 + S (t - length l1 - 1)) at 1 2 by lia.
    rewrite firstn_past, skipn_past. cbn [firstn skipn].
    rewrite splice_remove_middle. now rewrite <- app_assoc.
Qed.

Lemma legacy_root_move_witness :
  blocks (sampleSheet threeTexts)
  = [] ++ sampleText "A" :: [sampleText "B"; sampleText "C"]
  /\ Legacy.handleDragDrop (blockItem "A" 0 None) None None (Some (Z.of_nat 1))
       (sampleSheet threeTexts) numbered
     = (Some (sampleSheet threeTexts), numbered).
Proof.
  split; [reflexivity|].
  assert (Hfirst : forall x, In x [] -> block_id x <> block_id (sampleText "A")).
  { intros x []. }
  assert (Hlen : 1 <= length (blocks (sampleSheet threeTexts))) by (cbn; lia).
  exact (legacy_root_move (sampleSheet threeTexts) numbered
           (blockItem "A" 0 None) [] [sampleText "B"; sampleText "C"]
           (sampleText "A") 1 eq_refl Hfirst eq_refl eq_refl eq_refl Hlen).
Defined.

Lemma filter_keeps_others (id : jsstring) (l : list Block) :
  ~ In id (ids l) ->
  filter (fun x => negb (streq (block_id x) id)) l = l.
Proof.
  intros H. induction l as [|x l IH]; [reflexivity|].
  cbn [filter].
  assert (Hx : streq (block_id x) id = false).
  { apply streq_false_iff. intros E. apply H. rewrite <- E.
    apply in_root_ids. now left. }
  rewrite Hx. cbn [negb]. f_equal. apply IH.
  intros Hin. apply H. rewrite ids_cons. right. apply in_or_app. now right.
Qed.

Lemma remove_root_both (l1 l2 : list Block) (b : Block) :
  unique_ids (l1 ++ b :: l2) ->
  removeBlockRecursive (l1 ++ b :: l2) (block_id b) = l1 ++ l2
  /\ filter (fun x => negb (streq (block_id x) (block_id b))) (l1 ++ b :: l2)
     = l1 ++ l2.
Proof.
  intros Hu.
  assert (Hin : In (block_id b) (ids [b])) by (rewrite ids_cons; now left).
  destruct (unique_ids_middle _ _ _ _ Hu Hin) as (H1 & H2 & _). split.
  - rewrite removeBlockRecursive_app, removeBlockRecursive_cons, streq_refl.
    now rewrite (remove_absent _ l1 H1), (remove_absent _ l2 H2).
  - rewrite filter_app. cbn [filter]. rewrite streq_refl. cbn [negb].
    now rewrite (filter_keeps_others _ l1 H1), (filter_keeps_others _ l2 H2).
Qed.

(** X26.  In a worksheet with unique ids the older [removeBlock] of
    [index.tsx], told where the block is, gives what the recursive
    [removeBlock] of [QuestionBoard.tsx] gives: for a root block with no
    parent id, and for a child of a root group with the id of that group. *)
Theorem legacy_remove_agrees :
  forall (prev : WorksheetData) (id : jsstring),
    unique_ids (blocks prev) ->
    (In id (map block_id (blocks prev)) ->
     Legacy.removeBlock id None prev = Some (removeBlock id prev))
    /\ (forall l1 l2 p t ch,
           blocks prev = l1 ++ GroupBlock p t ch :: l2 ->
           p <> [] ->
           In id (map block_id ch) ->
           Legacy.removeBlock id (Some p) prev = Some (removeBlock id prev)).
Proof.
  intros prev id Hu. split.
  - intros Hin. apply in_map_iff in Hin as (b & <- & Hb).
    apply in_split in Hb as (l1 & l2 & E). rewrite E in Hu.
    destruct (remove_root_both l1 l2 b Hu) as [Hr Hf].
    unfold Legacy.removeBlock, removeBlock, with_blocks. cbn [truthy negb].
    now rewrite E, Hr, Hf.
  - intros l1 l2 p t ch E Hp Hin.
    apply in_map_iff in Hin as (c & <- & Hc).
    apply in_split in Hc as (c1 & c2 & Ech).
    rewrite E in Hu.
    assert (Hpin : In p (ids [GroupBlock p t ch])).
    { rewrite ids_single_group. now left. }
    destruct (unique_ids_middle _ _ _ _ Hu Hpin) as (Hp1 & _ & Hg).
    assert (Hcin : In (block_id c) (ids [GroupBlock p t ch])).
    { rewrite ids_single_group. right. rewrite Ech.
      apply in_root_ids, in_or_app. right. now left. }
    destruct (unique_ids_middle _ _ _ _ Hu Hcin) as (H1 & H2 & _).
    unfold unique_ids in Hg. rewrite ids_single_group in Hg.
    apply NoDup_cons_iff in Hg as [Hpc Hch].
    assert (Hne : streq p (block_id c) = false).
    { apply streq_false_iff. intros Epc. apply Hpc. rewrite Epc, Ech.
      apply in_root_ids, in_or_app. right. now left. }
    rewrite Ech in Hch. destruct (remove_root_both c1 c2 c Hch) as [Hr Hf].
    unfold Legacy.removeBlock, removeBlock, with_blocks.
    assert (Htr : truthy (Some p) = true) by (destruct p; [congruence|reflexivity]).
    rewrite Htr. cbn [negb]. unfold Legacy.findIndexOpt. rewrite E.
    assert (Hfirst : forall x, In x l1 ->
                       block_id x <> block_id (GroupBlock p t ch)).
    { intros x Hx Ex. apply Hp1. cbn [block_id] in Ex. rewrite <- Ex.
      now apply in_root_ids. }
    assert (Hidx := findIndex_first l1 l2 (GroupBlock p t ch) Hfirst).
    cbn [block_id] in Hidx. rewrite Hidx.
    replace (negb (Z.of_nat (length l1) =? -1)%Z) with true
      by (symmetry; apply negb_true_iff, Z.eqb_neq; lia).
    rewrite Nat2Z.id, nth_error_app2 by lia. rewrite Nat.sub_diag.
    cbn [nth_error]. do 2 f_equal. unfold Legacy.set_nth.
    destruct (cut_at_length l1 (GroupBlock p t ch :: l2)) as [Hfn Hsn].
    rewrite Hfn.
    replace (skipn (S (length l1)) (l1 ++ GroupBlock p t ch :: l2)) with l2.
    2:{ change (S (length l1)) with (1 + length l1).
        rewrite <- skipn_skipn, Hsn. reflexivity. }
    rewrite removeBlockRecursive_app, removeBlockRecursive_cons.
    cbn [block_id]. rewrite Hne, removeNode_group.
    rewrite (remove_absent _ l1 H1), (remove_absent _ l2 H2).
    now rewrite Ech, Hr, Hf.
Qed.

Lemma legacy_remove_agrees_witness :
  unique_ids (blocks (sampleSheet sampleTree))
  /\ Legacy.removeBlock (js "b") (Some (js "g1")) (sampleSheet sampleTree)
     = Some (removeBlock (js "b") (sampleSheet sampleTree)).
Proof.
  assert (Hu : unique_ids (blocks (sampleSheet sampleTree))).
  { unfold unique_ids. solve_concrete_NoDup. }
  split; [exact Hu|].
  assert (Hne : js "g1" <> []) by discriminate.
  apply (proj2 (legacy_remove_agrees (sampleSheet sampleTree) (js "b") Hu)
           [sampleText "t1"] [] (js "g1") (Some (js "New Group"))
           [sampleText "a"; sampleText "b"; sampleGroup "g2" [sampleQuestion "q"]]
           eq_refl Hne).
  cbn. tauto.
Defined.

(** * Numbering of the top-level blocks *)




(** * Field edits *)

(** X28.  An edit of a field of a block, [{...block, field: value}] handed
    to [updateBlock] under the id of the block, in a worksheet with unique
    ids: every id stays where it is, the worksheet keeps its size and its
    ids stay unique, whatever the depth of the block. *)
Theorem field_edit_keeps_ids :
  forall (prev : WorksheetData) (b newData : Block),
    unique_ids (blocks prev) ->
    In b (nodes (blocks prev)) ->
    fieldEdit b newData ->
    ids (blocks (updateBlock (block_id b) newData prev)) = ids (blocks prev)
    /\ count_blocks (blocks (updateBlock (block_id b) newData prev))
       = count_blocks (blocks prev)
    /\ unique_ids (blocks (updateBlock (block_id b) newData prev)).
Proof.
  intros prev b newData Hu Hb (Hid & _ & Hch).
  assert (E := update_ids newData (blocks prev) b Hu Hb Hid Hch).
  cbn [updateBlock blocks]. repeat split.
  - exact E.
  - now rewrite !count_blocks_ids, E.
  - unfold unique_ids. now rewrite E.
Qed.

Lemma field_edit_keeps_ids_witness :
  unique_ids (blocks (sampleSheet sampleTree))
  /\ ids (blocks (updateBlock (block_id (sampleText "b"))
                    (TextBlock (js "b") (js "edited")) (sampleSheet sampleTree)))
     = ids (blocks (sampleSheet sampleTree)).
Proof.
  assert (Hu : unique_ids (blocks (sampleSheet sampleTree))).
  { unfold unique_ids. solve_concrete_NoDup. }
  split; [exact Hu|].
  apply (field_edit_keeps_ids (sampleSheet sampleTree) (sampleText "b")
           (TextBlock (js "b") (js "edited")) Hu).
  - cbn. tauto.
  - repeat split.
Defined.
